(** * dod-playground: the per-frame simulation step of [source/game.cpp]

    A shallow embedding of the component store, the Motion System
    ([MoveSystem::UpdateSystem]), the spatial grid and the Avoidance System
    ([AvoidanceSystem::UpdateSystem]) and of [game_update], followed by the
    properties of the specification.

    Modelling conventions.
    - A C++ [float] is an IEEE-754 binary32 value: a [spec_float] operated on
      with the Standard Library's [SpecFloat] functions at precision 24 and
      maximal exponent 128.  Every arithmetic operator rounds to binary32
      (round to nearest, ties to even); no contraction into fused operations.
    - An [unsigned int] is a [Z] with the wrap-around modulo 2^32 written out.
    - A [std::vector] is a list read with [!!] and written with
      [<[ _ := _ ]>]; a C array of declared size is a map from indices whose
      accesses check the declared bounds.  An access outside a vector or an
      array is undefined behaviour in C++ and is a fault ([None]) here.
    - The population sizes [kObjectCount] and [kAvoidCount] are fields of a
      configuration record so that small scenes can be evaluated; the
      constants of the source are in [game_config]. *)

From Stdlib Require Import ZArith Lia Bool.
From Stdlib Require Import Floats.SpecFloat.
From stdpp Require Import base option list numbers.

Local Open Scope Z_scope.

(** ** binary32 arithmetic *)

Definition float : Type := spec_float.

Definition prec : Z := 24.
Definition emax : Z := 128.

Definition fadd : float -> float -> float := SFadd prec emax.
Definition fsub : float -> float -> float := SFsub prec emax.
Definition fmul : float -> float -> float := SFmul prec emax.
Definition fdiv : float -> float -> float := SFdiv prec emax.
Definition fneg : float -> float := SFopp.
(** [a < b] on floats; false as soon as one side is a NaN. *)
Definition flt : float -> float -> bool := SFltb.
Definition fle : float -> float -> bool := SFleb.

(** [(float)n] for an [int] [n]. *)
Definition float_of_int (n : Z) : float := binary_normalize prec emax n 0 false.

(** The decimal literal [n/10] written with an [f] suffix: the binary32
    value nearest to the quotient. *)
Definition float_of_tenths (n : Z) : float :=
  fdiv (float_of_int n) (float_of_int 10).

Definition fzero : float := S754_zero false.

Definition is_nan (f : float) : bool :=
  match f with S754_nan => true | _ => false end.

(** A float that is neither a NaN nor an infinity. *)
Definition is_finite (f : float) : bool :=
  match f with S754_zero _ | S754_finite _ _ _ => true | _ => false end.

(** A well-formed binary32 value: mantissa and exponent in canonical form. *)
Definition fvalid (f : float) : bool := valid_binary prec emax f.

(** ** unsigned int *)

Definition wrap32 (n : Z) : Z := n mod 2 ^ 32.

(** [(unsigned int)f].  The fractional part is discarded.  When the
    truncated value is not in [0, 2^32) (this covers NaN and the infinities)
    the C++ standard leaves the conversion undefined; [undef f] stands for
    the bits the target delivers there, reduced to 32 bits. *)
Definition uint_of_float (undef : float -> Z) (f : float) : Z :=
  match f with
  | S754_zero _ => 0
  | S754_finite s m e =>
      let t := Z.shiftl (Z.pos m) e in
      if s then (if t =? 0 then 0 else wrap32 (undef f))
      else (if t <? 2 ^ 32 then t else wrap32 (undef f))
  | _ => wrap32 (undef f)
  end.

(** ** Components *)

Record PositionComponent := mkPosition { pos_x : float; pos_y : float }.

Record SpriteComponent := mkSprite
  { colorR : Z; colorG : Z; colorB : Z; spriteIndex : Z }.

Record WorldBoundsComponent := mkBounds
  { xMin : Z; xMax : Z; yMin : Z; yMax : Z }.

Record MoveComponent := mkMove { velx : float; vely : float }.

(** ["ID" of a game object is just an index into the scene array]: a
    [size_t]. *)
Abbreviation EntityID := nat (only parsing).

(** [Entities]: the struct-of-arrays store. *)
Record Entities := mkEntities
  { m_Positions : list PositionComponent;
    m_Sprites : list SpriteComponent;
    m_Moves : list MoveComponent;
    m_IdGenerator : EntityID }.

Definition s_WorldBounds : WorldBoundsComponent := mkBounds (-128) 128 (-64) 64.

(** Build-time configuration: the two population constants and the
    behaviour of the target on an out-of-range float to unsigned
    conversion. *)
Record Config := mkConfig
  { kObjectCount : nat;
    kAvoidCount : nat;
    cast_undef : float -> Z }.

(** The constants of the source. *)
Definition game_config (undef : float -> Z) : Config :=
  mkConfig (Z.to_nat 1000000) (Z.to_nat 20) undef.

(** ** Loops *)

(** A loop whose body may fault, run over the successive values of its
    counter. *)
Fixpoint foldM {A S : Type} (body : A -> S -> option S) (l : list A) (s : S)
  : option S :=
  match l with
  | [] => Some s
  | a :: l' => s' ← body a s; foldM body l' s'
  end.

(** ** Motion System *)

Module MoveSystem.

(** One face of the bounds check: when [hit] holds the velocity component
    is mirrored and the coordinate put back on [bound]. *)
Definition reflect (hit : bool) (bound : float) (pv : float * float)
  : float * float :=
  if hit then (bound, fneg (snd pv)) else pv.

(** One axis of the loop body: integrate, then test the lower face and the
    upper face in turn, each on the current coordinate. *)
Definition step_axis (lo hi : Z) (deltaTime : float) (p v : float)
  : float * float :=
  let p1 := fadd p (fmul v deltaTime) in
  let pv := (p1, v) in
  let pv := reflect (flt (fst pv) (float_of_int lo)) (float_of_int lo) pv in
  let pv := reflect (flt (float_of_int hi) (fst pv)) (float_of_int hi) pv in
  pv.

Definition step_entity (deltaTime : float)
    (pos : PositionComponent) (move : MoveComponent)
  : PositionComponent * MoveComponent :=
  let ax :=
    step_axis (xMin s_WorldBounds) (xMax s_WorldBounds) deltaTime
      (pos_x pos) (velx move) in
  let ay :=
    step_axis (yMin s_WorldBounds) (yMax s_WorldBounds) deltaTime
      (pos_y pos) (vely move) in
  (mkPosition (fst ax) (fst ay), mkMove (snd ax) (snd ay)).

Definition body (deltaTime : float) (io : nat) (s : Entities)
  : option Entities :=
  pos ← m_Positions s !! io;
  move ← m_Moves s !! io;
  let r := step_entity deltaTime pos move in
  Some (mkEntities (<[io := fst r]> (m_Positions s)) (m_Sprites s)
          (<[io := snd r]> (m_Moves s)) (m_IdGenerator s)).

Definition UpdateSystem (cfg : Config) (deltaTime : float) (s : Entities)
  : option Entities :=
  foldM (body deltaTime) (seq 0 (kObjectCount cfg + kAvoidCount cfg)) s.

End MoveSystem.

(** ** Spatial grid and Avoidance System *)

(** A C array of fixed, declared size is a total map from indices; each
    access checks the index against the declared bounds and faults outside
    them. *)
Definition upd {A : Type} (a : Z -> A) (k : Z) (v : A) : Z -> A :=
  fun k' => if k' =? k then v else a k'.

Module AvoidanceSystem.

Definition kAvoidDistance : float := float_of_tenths 13.
(** The literal [1.1f]. *)
Definition kOvershoot : float := float_of_tenths 11.

Definition kCellCount : Z := 64.
Definition kShiftAmount : Z := 6.
Definition kGridCellSize : Z * Z :=
  (Z.div (wrap32 (xMax s_WorldBounds - xMin s_WorldBounds)) kCellCount,
   Z.div (wrap32 (yMax s_WorldBounds - yMin s_WorldBounds)) kCellCount).

(** Number of cells, the first dimension of both grid arrays. *)
Definition kGridCells : Z := wrap32 (kCellCount * kCellCount).

(** The grid: [avoidEntityGrid] is the function-local static array, which
    keeps its contents from one call to the next; [activeAvoidCount] is
    zero-initialised at every call. *)
Record Grid := mkGrid
  { avoidEntityGrid : Z -> Z -> EntityID;
    activeAvoidCount : Z -> Z }.

(** [v - ((v & kCellCount) >> kShiftAmount)] *)
Definition wrap_cell (v : Z) : Z :=
  wrap32 (v - Z.shiftr (Z.land v kCellCount) kShiftAmount).

(** [x << kShiftAmount | y] *)
Definition cell_hash (x y : Z) : Z :=
  Z.lor (wrap32 (Z.shiftl x kShiftAmount)) y.

(** [(unsigned int)(p - (float)lo) / size] *)
Definition cell_coord (cfg : Config) (p : float) (lo size : Z) : Z :=
  Z.div (uint_of_float (cast_undef cfg) (fsub p (float_of_int lo))) size.

(** Corners of the footprint of a hazard, after the wrap correction. *)
Definition topRight (cfg : Config) (avoidposition : PositionComponent)
  : Z * Z :=
  (wrap_cell (cell_coord cfg (fadd (pos_x avoidposition) kAvoidDistance)
                (xMin s_WorldBounds) (fst kGridCellSize)),
   wrap_cell (cell_coord cfg (fadd (pos_y avoidposition) kAvoidDistance)
                (yMin s_WorldBounds) (snd kGridCellSize))).

Definition bottomLeft (cfg : Config) (avoidposition : PositionComponent)
  : Z * Z :=
  (wrap_cell (cell_coord cfg (fsub (pos_x avoidposition) kAvoidDistance)
                (xMin s_WorldBounds) (fst kGridCellSize)),
   wrap_cell (cell_coord cfg (fsub (pos_y avoidposition) kAvoidDistance)
                (yMin s_WorldBounds) (snd kGridCellSize))).

(** The values [lo, lo+1, ..., hi] of a loop [for (v = lo; v <= hi; ++v)];
    none when [hi < lo].  A corner is at most (2^32-1)/2, so the counter
    never wraps. *)
Definition range_incl (lo hi : Z) : list Z := seqZ lo (hi - lo + 1).

(** Body of the innermost build loop: append [ia] to the bucket [hash]. *)
Definition insert (cfg : Config) (ia : EntityID) (hash : Z) (g : Grid)
  : option Grid :=
  if negb (hash <? kGridCells) then None else
  let n := activeAvoidCount g hash in
  if negb (n <? Z.of_nat (kAvoidCount cfg)) then None else
  Some (mkGrid (upd (avoidEntityGrid g) hash
                  (upd (avoidEntityGrid g hash) n ia))
               (upd (activeAvoidCount g) hash (wrap32 (n + 1)))).

(** The hashes visited for one hazard, in loop order: [y] outermost. *)
Definition footprint (cfg : Config) (avoidposition : PositionComponent)
  : list Z :=
  let tr := topRight cfg avoidposition in
  let bl := bottomLeft cfg avoidposition in
  y ← range_incl (snd bl) (snd tr);
  x ← range_incl (fst bl) (fst tr);
  [cell_hash x y].

Definition build_body (cfg : Config) (positions : list PositionComponent)
    (ia : EntityID) (g : Grid) : option Grid :=
  avoidposition ← positions !! ia;
  foldM (insert cfg ia) (footprint cfg avoidposition) g.

(** First loop of [UpdateSystem]: the grid rebuilt from the hazards. *)
Definition build (cfg : Config) (positions : list PositionComponent)
    (grid : Z -> Z -> EntityID) : option Grid :=
  foldM (build_body cfg positions)
    (seq (kObjectCount cfg) (kAvoidCount cfg))
    (mkGrid grid (fun _ => 0)).

(** The cell scanned for a regular entity.  As in the source, the
    corrected [y] coordinate is stored into [x], over the corrected [x]. *)
Definition query_hash (cfg : Config) (myposition : PositionComponent) : Z :=
  let x := cell_coord cfg (pos_x myposition)
             (xMin s_WorldBounds) (fst kGridCellSize) in
  let x := wrap_cell x in
  let y := cell_coord cfg (pos_y myposition)
             (yMin s_WorldBounds) (snd kGridCellSize) in
  let x := wrap_cell y in
  cell_hash x y.

(** [(dx * dx + dy * dy) - kAvoidDistance * kAvoidDistance < 0.0f] *)
Definition too_close (avoidposition myposition : PositionComponent) : bool :=
  let dx := fsub (pos_x avoidposition) (pos_x myposition) in
  let dy := fsub (pos_y avoidposition) (pos_y myposition) in
  flt (fsub (fadd (fmul dx dx) (fmul dy dy))
            (fmul kAvoidDistance kAvoidDistance)) fzero.

(** Body of the inner query loop for the regular entity [io] and the slot
    [ia] of the bucket [hash]. *)
Definition check (cfg : Config) (deltaTime : float) (g : Grid)
    (io : EntityID) (hash : Z) (ia : Z) (s : Entities) : option Entities :=
  if negb (ia <? Z.of_nat (kAvoidCount cfg)) then None else
  let avoid := avoidEntityGrid g hash ia in
  myposition ← m_Positions s !! io;
  avoidposition ← m_Positions s !! avoid;
  if too_close avoidposition myposition then
    move ← m_Moves s !! io;
    let move' := mkMove (fneg (velx move)) (fneg (vely move)) in
    let myposition' :=
      mkPosition
        (fadd (pos_x myposition)
              (fmul (fmul (velx move') deltaTime) kOvershoot))
        (fadd (pos_y myposition)
              (fmul (fmul (vely move') deltaTime) kOvershoot)) in
    avoidSprite ← m_Sprites s !! avoid;
    mySprite ← m_Sprites s !! io;
    let mySprite' :=
      mkSprite (colorR avoidSprite) (colorG avoidSprite)
               (colorB avoidSprite) (spriteIndex mySprite) in
    Some (mkEntities (<[io := myposition']> (m_Positions s))
            (<[io := mySprite']> (m_Sprites s))
            (<[io := move']> (m_Moves s))
            (m_IdGenerator s))
  else Some s.

Definition query_body (cfg : Config) (deltaTime : float) (g : Grid)
    (io : EntityID) (s : Entities) : option Entities :=
  myposition ← m_Positions s !! io;
  let hash := query_hash cfg myposition in
  if negb (hash <? kGridCells) then None else
  foldM (check cfg deltaTime g io hash)
    (seqZ 0 (activeAvoidCount g hash)) s.

Definition UpdateSystem (cfg : Config) (deltaTime : float)
    (grid : Z -> Z -> EntityID) (s : Entities)
  : option (Entities * (Z -> Z -> EntityID)) :=
  g ← build cfg (m_Positions s) grid;
  s' ← foldM (query_body cfg deltaTime g) (seq 0 (kObjectCount cfg)) s;
  Some (s', avoidEntityGrid g).

End AvoidanceSystem.

(** ** The game *)

Record sprite_pos_data_t := mkPosData { posX : float; posY : float }.

Record sprite_sprite_data_t := mkSpriteData
  { colR : Z; colG : Z; colB : Z; sprite : Z }.

(** The process-wide state: the scene [s_Objects] and the static grid of
    the Avoidance System. *)
Record Game := mkGame
  { s_Objects : Entities;
    s_Grid : Z -> Z -> EntityID }.

(** [(int)n] for a [size_t] [n]. *)
Definition int_of_size (n : nat) : Z :=
  let r := wrap32 (Z.of_nat n) in
  if r <? 2 ^ 31 then r else r - 2 ^ 32.

(** What [memcpy] writes into the two output buffers. *)
Definition copy_positions (l : list PositionComponent)
  : list sprite_pos_data_t :=
  (fun p => mkPosData (pos_x p) (pos_y p)) <$> l.

Definition copy_sprites (l : list SpriteComponent)
  : list sprite_sprite_data_t :=
  (fun s => mkSpriteData (colorR s) (colorG s) (colorB s) (spriteIndex s))
    <$> l.

Record Frame := mkFrame
  { posData : list sprite_pos_data_t;
    spriteData : list sprite_sprite_data_t;
    objectCount : Z }.

Definition game_update (cfg : Config) (deltaTime : float) (gm : Game)
  : option (Frame * Game) :=
  s1 ← MoveSystem.UpdateSystem cfg deltaTime (s_Objects gm);
  '(s2, grid) ← AvoidanceSystem.UpdateSystem cfg deltaTime (s_Grid gm) s1;
  Some (mkFrame (copy_positions (m_Positions s2))
          (copy_sprites (m_Sprites s2))
          (int_of_size (length (m_Positions s2))),
        mkGame s2 grid).

(** A sequence of [game_update] calls, one per [deltaTime], with the frames
    they return. *)
Fixpoint game_run (cfg : Config) (dts : list float) (gm : Game)
  : option (list Frame * Game) :=
  match dts with
  | [] => Some ([], gm)
  | deltaTime :: dts' =>
      '(frame, gm1) ← game_update cfg deltaTime gm;
      '(frames, gm2) ← game_run cfg dts' gm1;
      Some (frame :: frames, gm2)
  end.

(** ** Start-up *)

(** What the C library supplies to [game_initialize]: [rand_at k] is the
    value of the [k]-th call of [rand()]. *)
Record Libc := mkLibc
  { RAND_MAX : Z;
    rand_at : nat -> Z;
    cosf : float -> float;
    sinf : float -> float }.

Section Startup.
Variable lc : Libc.

(** The random helpers thread the number [k] of [rand()] calls made so
    far. *)
Definition RandomFloat01 (k : nat) : float * nat :=
  (fdiv (float_of_int (rand_at lc k)) (float_of_int (RAND_MAX lc)), S k).

Definition RandomFloat (from to : float) (k : nat) : float * nat :=
  let r := RandomFloat01 k in
  (fadd (fmul (fst r) (fsub to from)) from, snd r).

(** The literal [3.1415926f]. *)
Definition kPi : float := S754_finite false 13176794 (-22).

(** [(uint8_t)f].  The fractional part is discarded.  When the truncated
    value is not in [0, 2^8) the C++ standard leaves the conversion
    undefined, as it does for [unsigned int]; [undef f] stands for the
    bits the target delivers there, reduced to 8 bits. *)
Definition uint8_of_float (undef : float -> Z) (f : float) : Z :=
  match f with
  | S754_zero _ => 0
  | S754_finite s m e =>
      let t := Z.shiftl (Z.pos m) e in
      if s then (if t =? 0 then 0 else undef f mod 2 ^ 8)
      else (if t <? 2 ^ 8 then t else undef f mod 2 ^ 8)
  | _ => undef f mod 2 ^ 8
  end.

(** [MoveComponent::Initialize] *)
Definition Initialize (minSpeed maxSpeed : float) (k : nat)
  : MoveComponent * nat :=
  let r := RandomFloat01 k in
  let angle := fmul (fmul (fst r) kPi) (float_of_int 2) in
  let sp := RandomFloat minSpeed maxSpeed (snd r) in
  (mkMove (fmul (cosf lc angle) (fst sp)) (fmul (sinf lc angle) (fst sp)),
   snd sp).

(** [std::vector::resize] *)
Definition resize {A : Type} (n : nat) (d : A) (l : list A) : list A :=
  take n l ++ replicate (n - length l) d.

Definition reserve (n : nat) (s : Entities) : Entities :=
  mkEntities (resize n (mkPosition fzero fzero) (m_Positions s))
    (resize n (mkSprite 0 0 0 0) (m_Sprites s))
    (resize n (mkMove fzero fzero) (m_Moves s))
    (m_IdGenerator s).

(** Writing the three components of the entity [go]; each write faults
    outside its vector. *)
Definition set_entity (go : nat) (pos : PositionComponent)
    (spr : SpriteComponent) (move : MoveComponent) (s : Entities)
  : option Entities :=
  if negb (go <? length (m_Positions s))%nat then None else
  if negb (go <? length (m_Sprites s))%nat then None else
  if negb (go <? length (m_Moves s))%nat then None else
  Some (mkEntities (<[go := pos]> (m_Positions s))
          (<[go := spr]> (m_Sprites s))
          (<[go := move]> (m_Moves s))
          (m_IdGenerator s)).

(** [AddEntity]: the next identifier, and the store with the generator
    advanced. *)
Definition AddEntity (s : Entities) : nat * Entities :=
  (m_IdGenerator s,
   mkEntities (m_Positions s) (m_Sprites s) (m_Moves s)
     (S (m_IdGenerator s))).

(** Body of the loop creating the regular objects. *)
Definition init_regular (cfg : Config) (i : nat) (st : Entities * nat)
  : option (Entities * nat) :=
  let '(go, s) := AddEntity (fst st) in
  let bx := RandomFloat (float_of_int (xMin s_WorldBounds))
              (float_of_int (xMax s_WorldBounds)) (snd st) in
  let bY := RandomFloat (float_of_int (yMin s_WorldBounds))
              (float_of_int (yMax s_WorldBounds)) (snd bx) in
  let si := RandomFloat fzero (float_of_int 1) (snd bY) in
  let mv := Initialize (float_of_tenths 5) (float_of_tenths 7) (snd si) in
  s' ← set_entity go (mkPosition (fst bx) (fst bY))
         (mkSprite 255 255 255
            (uint8_of_float (cast_undef cfg)
               (fmul (float_of_int 255) (fst si))))
         (fst mv) s;
  Some (s', snd mv).

(** Body of the loop creating the objects that should be avoided. *)
Definition init_avoid (cfg : Config) (i : nat) (st : Entities * nat)
  : option (Entities * nat) :=
  let '(go, s) := AddEntity (fst st) in
  let bx := RandomFloat (float_of_int (xMin s_WorldBounds))
              (float_of_int (xMax s_WorldBounds)) (snd st) in
  let bY := RandomFloat (float_of_int (yMin s_WorldBounds))
              (float_of_int (yMax s_WorldBounds)) (snd bx) in
  let cr := RandomFloat (float_of_tenths 5) (float_of_int 1) (snd bY) in
  let cg := RandomFloat (float_of_tenths 5) (float_of_int 1) (snd cr) in
  let cb := RandomFloat (float_of_tenths 5) (float_of_int 1) (snd cg) in
  let mv := Initialize (float_of_tenths 1) (float_of_tenths 2) (snd cb) in
  let color c :=
    uint8_of_float (cast_undef cfg) (fmul (float_of_int 255) c) in
  s' ← set_entity go
         (mkPosition (fmul (fst bx) (float_of_tenths 2))
                     (fmul (fst bY) (float_of_tenths 2)))
         (mkSprite (color (fst cr)) (color (fst cg)) (color (fst cb)) 255)
         (fst mv) s;
  Some (s', snd mv).

Definition game_initialize (cfg : Config) (gm : Game) : option Game :=
  let s := reserve (kObjectCount cfg + kAvoidCount cfg) (s_Objects gm) in
  st ← foldM (init_regular cfg) (seq 0 (kObjectCount cfg)) (s, 0%nat);
  st ← foldM (init_avoid cfg) (seq 0 (kAvoidCount cfg)) st;
  Some (mkGame (fst st) (s_Grid gm)).

End Startup.

(** The state of the process before [game_initialize]: empty vectors and a
    zero-initialised static grid. *)
Definition game_start : Game :=
  mkGame (mkEntities [] [] [] 0) (fun _ _ => 0%nat).

(** ** Vocabulary of the specification *)

(** [lo <= p <= hi], with the comparisons of the source language. *)
Definition in_range (lo hi : Z) (p : float) : bool :=
  fle (float_of_int lo) p && fle p (float_of_int hi).

(** A position within the world bounds. *)
Definition in_bounds (p : PositionComponent) : bool :=
  in_range (xMin s_WorldBounds) (xMax s_WorldBounds) (pos_x p) &&
  in_range (yMin s_WorldBounds) (yMax s_WorldBounds) (pos_y p).

Definition position_valid (p : PositionComponent) : bool :=
  fvalid (pos_x p) && fvalid (pos_y p).

Definition position_finite (p : PositionComponent) : bool :=
  is_finite (pos_x p) && is_finite (pos_y p).

Definition move_finite (m : MoveComponent) : bool :=
  is_finite (velx m) && is_finite (vely m).

(** Every array of the store holds one element per entity. *)
Definition store_sized (cfg : Config) (s : Entities) : Prop :=
  length (m_Positions s) = (kObjectCount cfg + kAvoidCount cfg)%nat /\
  length (m_Sprites s) = (kObjectCount cfg + kAvoidCount cfg)%nat /\
  length (m_Moves s) = (kObjectCount cfg + kAvoidCount cfg)%nat.

(** The population constants are [int]s and so is their sum. *)
Definition config_ok (cfg : Config) : Prop :=
  Z.of_nat (kObjectCount cfg + kAvoidCount cfg) < 2 ^ 31.

(** A sequence of Motion System calls. *)
Definition move_calls (cfg : Config) (dts : list float) (s : Entities)
  : option Entities :=
  foldM (MoveSystem.UpdateSystem cfg) dts s.

(** The cell that contains a position: both coordinates computed
    independently, as the build side does for the corners of a hazard. *)
Definition containing_cell (cfg : Config) (p : PositionComponent) : Z :=
  AvoidanceSystem.cell_hash
    (AvoidanceSystem.wrap_cell
       (AvoidanceSystem.cell_coord cfg (pos_x p) (xMin s_WorldBounds)
          (fst AvoidanceSystem.kGridCellSize)))
    (AvoidanceSystem.wrap_cell
       (AvoidanceSystem.cell_coord cfg (pos_y p) (yMin s_WorldBounds)
          (snd AvoidanceSystem.kGridCellSize))).

(** [store_frame P s s']: [s'] has the shape of [s], the same sprite
    indices, and differs from [s] at most at the identifiers in [P]. *)
Definition store_frame (P : nat -> Prop) (s s' : Entities) : Prop :=
  length (m_Positions s') = length (m_Positions s) /\
  length (m_Sprites s') = length (m_Sprites s) /\
  length (m_Moves s') = length (m_Moves s) /\
  m_IdGenerator s' = m_IdGenerator s /\
  spriteIndex <$> m_Sprites s' = spriteIndex <$> m_Sprites s /\
  forall j, ~ P j ->
    m_Positions s' !! j = m_Positions s !! j /\
    m_Sprites s' !! j = m_Sprites s !! j /\
    m_Moves s' !! j = m_Moves s !! j.

(** Every used slot of every bucket holds the identifier of a hazard. *)
Definition bucket_ok (cfg : Config) (g : AvoidanceSystem.Grid) : Prop :=
  forall h,
    0 <= AvoidanceSystem.activeAvoidCount g h /\
    forall k, 0 <= k < AvoidanceSystem.activeAvoidCount g h ->
      (kObjectCount cfg <= AvoidanceSystem.avoidEntityGrid g h k
                        < kObjectCount cfg + kAvoidCount cfg)%nat.

(** Two grids with the same occupancy counters and the same used slots. *)
Definition grid_agree (g1 g2 : AvoidanceSystem.Grid) : Prop :=
  forall h,
    AvoidanceSystem.activeAvoidCount g1 h = AvoidanceSystem.activeAvoidCount g2 h /\
    0 <= AvoidanceSystem.activeAvoidCount g1 h /\
    forall k, 0 <= k < AvoidanceSystem.activeAvoidCount g1 h ->
      AvoidanceSystem.avoidEntityGrid g1 h k = AvoidanceSystem.avoidEntityGrid g2 h k.

(** ** Values of binary32 floats *)

(** Magnitude of a float scaled by [2^149]: an integer for every valid
    float, whose exponent is at least -149. *)
Definition Fmag (f : float) : Z :=
  match f with
  | S754_finite _ m e => Z.pos m * 2 ^ (e + 149)
  | _ => 0
  end.

Definition Fsign (f : float) : bool :=
  match f with
  | S754_finite s _ _ | S754_zero s | S754_infinity s => s
  | S754_nan => false
  end.

Definition Fval (f : float) : Z :=
  if Fsign f then - Fmag f else Fmag f.

(** A bound: the mantissa and exponent of a positive binary32 value below
    [2^127]. *)
Definition Fbound (mh : positive) (eh : Z) : Prop :=
  Z.pos mh < 2 ^ 24 /\ -149 <= eh <= 103.

(** What [binary_round_aux] returns for the mantissa [m] and exponent [e]
    it has computed. *)
Definition round_result (s : bool) (m e : Z) : float :=
  match m with
  | Z0 => S754_zero s
  | Z.pos p => if e <=? emax - prec then S754_finite s p e else S754_infinity s
  | Z.neg _ => S754_nan
  end.

(** ** Further vocabulary *)

(** Replace a closed term by its value. *)
Ltac eval_in c H :=
  let v := eval vm_compute in c in change c with v in H.

Ltac eval_goal c :=
  let v := eval vm_compute in c in change c with v.

Definition world_axis (lo hi : Z) : Prop :=
  (lo = xMin s_WorldBounds /\ hi = xMax s_WorldBounds) \/
  (lo = yMin s_WorldBounds /\ hi = yMax s_WorldBounds).

(** ** Small scenes, for evaluation *)

Definition scene_config : Config := mkConfig 1 1 (fun _ => 0).

(** [2^k] as a binary32 value, for [-126 <= k <= 127]. *)
Definition fpow2 (k : Z) : float := S754_finite false 8388608 (k - 23).

(** One regular entity at (1,0) moving at [vel], one hazard at rest at
    (0,0) with colour (200,100,50). *)
Definition scene (vel : MoveComponent) : Entities :=
  mkEntities
    [mkPosition (float_of_int 1) fzero; mkPosition fzero fzero]
    [mkSprite 255 255 255 7; mkSprite 200 100 50 255]
    [vel; mkMove fzero fzero]
    2.

Definition scene_game (vel : MoveComponent) : Game :=
  mkGame (scene vel) (fun _ _ => 0%nat).

(** An entity on [xMax] moving right at speed 1/2, stepped by 1/64 s. *)
Definition scene_at_xMax (vx : float) : Entities :=
  mkEntities
    [mkPosition (float_of_int 128) fzero; mkPosition fzero fzero]
    [mkSprite 255 255 255 7; mkSprite 200 100 50 255]
    [mkMove vx fzero; mkMove fzero fzero]
    2.

(** A regular entity at (10,0), far from the hazard at (0,0). *)
Definition scene_far (vel : MoveComponent) : Game :=
  mkGame
    (mkEntities
       [mkPosition (float_of_int 10) fzero; mkPosition fzero fzero]
       [mkSprite 255 255 255 7; mkSprite 200 100 50 255]
       [vel; mkMove fzero fzero]
       2)
    (fun _ _ => 0%nat).


(** The same with the sprites of [scene] and the hazard at rest. *)
Definition scene_at (p q : PositionComponent) (vel : MoveComponent)
  : Entities :=
  mkEntities [p; q]
    [mkSprite 255 255 255 7; mkSprite 200 100 50 255]
    [vel; mkMove fzero fzero]
    2.

(** The exact squared distance between two finite positions, at the scale
    [2^298]: a distance of 1 is [2^149 * 2^149]. *)
Definition dist2 (p q : PositionComponent) : Z :=
  (Fval (pos_x p) - Fval (pos_x q)) * (Fval (pos_x p) - Fval (pos_x q)) +
  (Fval (pos_y p) - Fval (pos_y q)) * (Fval (pos_y p) - Fval (pos_y q)).

(** What a run lets its caller observe: the frames returned and the
    component store. *)
Definition observable (r : option (list Frame * Game))
  : option (list Frame * Entities) :=
  (fun '(frames, gm) => (frames, s_Objects gm)) <$> r.

(** Every hazard has a well-formed position within the world bounds. *)
Definition hazards_in_bounds (cfg : Config) (positions : list PositionComponent)
  : Prop :=
  forall ia,
    (kObjectCount cfg <= ia < kObjectCount cfg + kAvoidCount cfg)%nat ->
    exists p, positions !! ia = Some p /\
              position_valid p = true /\ in_bounds p = true.


(** * Vocabulary of the further properties *)

(** ** Magnitudes and the C library *)

(** The mantissa that [binary_round_aux] keeps of [m] at the exponent [e]
    and the location [loc], before it is renormalised. *)
Definition rounded (m e : Z) (loc : location) : Z :=
  let r := fst (shr_fexp prec emax m e loc) in
  round_nearest_even (shr_m r) (loc_of_shr_record r).

(** [m / 2^k] rounded to the nearest integer, ties to even. *)
Definition rne (m k : Z) : Z :=
  let f := m / 2 ^ k in
  let rem := m mod 2 ^ k in
  let half := 2 ^ (k - 1) in
  if k <=? 0 then m
  else if rem <? half then f
  else if rem =? half then (if Z.even f then f else f + 1)
  else f + 1.


(** A valid finite float of magnitude at most [2^k]. *)
Definition fbnd (k : Z) (f : float) : Prop :=
  fvalid f = true /\ is_finite f = true /\ Fmag f <= 2 ^ (k + 149).

(** A valid float that is not a NaN: a coordinate may be infinite. *)
Definition coord_ok (f : float) : Prop :=
  fvalid f = true /\ is_nan f = false.

(** A store on which the arithmetic of a frame stays away from NaN:
    well-formed coordinates and velocities of magnitude at most [2^32]. *)
Definition calm (s : Entities) : Prop :=
  forall i p m,
    m_Positions s !! i = Some p -> m_Moves s !! i = Some m ->
    (coord_ok (pos_x p) /\ coord_ok (pos_y p)) /\
    (fbnd 32 (velx m) /\ fbnd 32 (vely m)).

(** What start-up needs from the C library: [RAND_MAX] is a positive
    [int], [rand()] returns a value between 0 and [RAND_MAX], and [cosf]
    and [sinf] return on every finite angle a well-formed value of
    magnitude at most 1. *)
Definition libc_ok (lc : Libc) : Prop :=
  0 < RAND_MAX lc < 2 ^ 31 /\
  (forall k, 0 <= rand_at lc k <= RAND_MAX lc) /\
  (forall a, fvalid a = true -> is_finite a = true ->
     fbnd 0 (cosf lc a) /\ fbnd 0 (sinf lc a)).

(** A C library for evaluation: [rand()] always returns 0, and the angle
    is then 0, of cosine 1 and sine 0. *)
Definition libc_zero : Libc :=
  mkLibc 32767 (fun _ => 0) (fun _ => float_of_int 1) (fun _ => fzero).


(** ** Sprites *)

(** The colour the regular objects are created with. *)
Definition sprite_white (spr : SpriteComponent) : Prop :=
  colorR spr = 255 /\ colorG spr = 255 /\ colorB spr = 255.

(** The sprites of a store in the middle of start-up: white below [n], of
    sprite index 255 from [n] on, up to the identifier generator. *)
Definition sprites_created (n : nat) (s : Entities) : Prop :=
  forall j spr, (j < m_IdGenerator s)%nat -> m_Sprites s !! j = Some spr ->
    if (j <? n)%nat then sprite_white spr else spriteIndex spr = 255.

(** The three colour channels of a sprite. *)
Definition colour (spr : SpriteComponent) : Z * Z * Z :=
  (colorR spr, colorG spr, colorB spr).

(** [new] is [old] where the regular entities may have taken the colour
    of a hazard: the sprites of the hazards are those of [old], and a
    sprite of [new] has the sprite index it has in [old] and either the
    colour it has in [old] or the colour of a hazard of [old]. *)
Definition sprites_recoloured (cfg : Config)
    (old new : list SpriteComponent) : Prop :=
  (forall ia, (kObjectCount cfg <= ia)%nat -> new !! ia = old !! ia) /\
  (forall io spr, new !! io = Some spr ->
     exists spr0, old !! io = Some spr0 /\
       spriteIndex spr = spriteIndex spr0 /\
       (colour spr = colour spr0 \/
        exists ia spa,
          (kObjectCount cfg <= ia < kObjectCount cfg + kAvoidCount cfg)%nat /\
          old !! ia = Some spa /\ colour spr = colour spa)).

(** ** Velocities *)

(** [v'] is [v] or its opposite. *)
Definition flipped (v v' : float) : Prop := v' = v \/ v' = fneg v.

Definition move_flipped (m m' : MoveComponent) : Prop :=
  flipped (velx m) (velx m') /\ flipped (vely m) (vely m').

(** ** Hazards *)

(** Every hazard has a finite position and a finite velocity. *)
Definition hazards_finite (cfg : Config) (s : Entities) : Prop :=
  forall ia p m,
    (kObjectCount cfg <= ia < kObjectCount cfg + kAvoidCount cfg)%nat ->
    m_Positions s !! ia = Some p -> m_Moves s !! ia = Some m ->
    position_finite p = true /\ move_finite m = true.

(** A regular entity in the corner (128, 63) moving right at speed 1/2,
    and a hazard at rest at (127.5, 63). *)
Definition scene_corner : Game :=
  mkGame
    (mkEntities
       [mkPosition (float_of_int 128) (float_of_int 63);
        mkPosition (fdiv (float_of_int 255) (float_of_int 2)) (float_of_int 63)]
       [mkSprite 255 255 255 7; mkSprite 200 100 50 255]
       [mkMove (fpow2 (-1)) fzero; mkMove fzero fzero]
       2)
    (fun _ _ => 0%nat).

(** ** Buckets *)

(** The used slots of the bucket [h], in slot order. *)
Definition bucket (g : AvoidanceSystem.Grid) (h : Z) : list nat :=
  AvoidanceSystem.avoidEntityGrid g h
    <$> seqZ 0 (AvoidanceSystem.activeAvoidCount g h).

(** The occurrences of [h] in a list of hashes, each as one [ia]. *)
Definition hits (ia : nat) (h : Z) (F : list Z) : list nat :=
  h' ← F; if decide (h' = h) then [ia] else [].

(** The hazards whose footprint contains [h]: in identifier order, each
    once per occurrence of [h] in its footprint. *)
Definition registered (cfg : Config) (positions : list PositionComponent)
    (h : Z) : list nat :=
  ia ← seq (kObjectCount cfg) (kAvoidCount cfg);
  match positions !! ia with
  | Some p => hits ia h (AvoidanceSystem.footprint cfg p)
  | None => []
  end.

(** ** The store at start-up *)

(** Within the central quarter of the world, where the hazards are
    created. *)
Definition central (p : PositionComponent) : bool :=
  in_range (-32) 32 (pos_x p) && in_range (-16) 16 (pos_y p).

(** A store in the middle of start-up: well-formed positions within the
    world bounds, velocities of magnitude at most 1, and the hazards
    created so far, those from [n] on, in the central quarter. *)
Definition start_ok (n : nat) (s : Entities) : Prop :=
  forall j p m,
    m_Positions s !! j = Some p -> m_Moves s !! j = Some m ->
    (position_valid p = true /\ in_bounds p = true) /\
    (fbnd 0 (velx m) /\ fbnd 0 (vely m)) /\
    ((n <= j < m_IdGenerator s)%nat -> central p = true).

(** A regular entity at the origin and a hazard on the [xMin] face, at
    (-128, 0). *)
Definition face_positions : list PositionComponent :=
  [mkPosition fzero fzero; mkPosition (float_of_int (-128)) fzero].

(** At least 2 away from the two lower faces of the world: further than
    [kAvoidDistance]. *)
Definition inner (p : PositionComponent) : bool :=
  in_range (-126) 128 (pos_x p) && in_range (-62) 64 (pos_y p).

(** * Loops and the Motion System loop *)

Section MotionLoop.
Import MoveSystem.

Section FoldM.
Context {A S : Type}.
Implicit Types (body : A -> S -> option S).

Lemma foldM_app body l1 l2 s :
  foldM body (l1 ++ l2) s = foldM body l1 s ≫= foldM body l2.
Proof.
  revert s. induction l1 as [|a l1 IH]; intros s; simpl; [done|].
  destruct (body a s) as [s'|]; simpl; [apply IH|done].
Qed.

Lemma foldM_invariant (P : S -> Prop) body l s s' :
  (forall a t t', a ∈ l -> P t -> body a t = Some t' -> P t') ->
  P s -> foldM body l s = Some s' -> P s'.
Proof.
  revert s. induction l as [|a l IH]; intros s Hstep Hs Hrun; simpl in *.
  - by simplify_eq.
  - destruct (body a s) as [t|] eqn:Ht; simpl in *; [|done].
    eapply IH; [| |exact Hrun].
    + intros b u u' Hb. apply Hstep. by right.
    + eapply Hstep; [by left|exact Hs|exact Ht].
Qed.

Lemma foldM_total (P : S -> Prop) body l s :
  (forall a t, a ∈ l -> P t -> exists t', body a t = Some t' /\ P t') ->
  P s -> exists s', foldM body l s = Some s' /\ P s'.
Proof.
  revert s. induction l as [|a l IH]; intros s Hstep Hs; simpl.
  - by exists s.
  - destruct (Hstep a s) as (t & Ht & HPt); [by left|done|].
    rewrite Ht. simpl. apply IH; [|done].
    intros b u Hb. apply Hstep. by right.
Qed.
End FoldM.

Lemma body_Some dt io s s' :
  body dt io s = Some s' ->
  exists pos move,
    m_Positions s !! io = Some pos /\ m_Moves s !! io = Some move /\
    s' = mkEntities (<[io := (step_entity dt pos move).1]> (m_Positions s))
           (m_Sprites s)
           (<[io := (step_entity dt pos move).2]> (m_Moves s))
           (m_IdGenerator s).
Proof.
  unfold body. intros H.
  destruct (m_Positions s !! io) as [pos|] eqn:Hp; simpl in H; [|done].
  destruct (m_Moves s !! io) as [move|] eqn:Hm; simpl in H; [|done].
  exists pos, move. by simplify_eq.
Qed.

Lemma body_eq dt io s pos move :
  m_Positions s !! io = Some pos -> m_Moves s !! io = Some move ->
  body dt io s =
    Some (mkEntities (<[io := (step_entity dt pos move).1]> (m_Positions s))
           (m_Sprites s)
           (<[io := (step_entity dt pos move).2]> (m_Moves s))
           (m_IdGenerator s)).
Proof. unfold body. by intros -> ->. Qed.

Lemma move_range_spec dt n : forall a s s',
  foldM (body dt) (seq a n) s = Some s' ->
  m_Sprites s' = m_Sprites s /\ m_IdGenerator s' = m_IdGenerator s /\
  length (m_Positions s') = length (m_Positions s) /\
  length (m_Moves s') = length (m_Moves s) /\
  forall i,
    ((a <= i < a + n)%nat ->
       exists p m, m_Positions s !! i = Some p /\ m_Moves s !! i = Some m /\
         m_Positions s' !! i = Some (step_entity dt p m).1 /\
         m_Moves s' !! i = Some (step_entity dt p m).2) /\
    (~ (a <= i < a + n)%nat ->
       m_Positions s' !! i = m_Positions s !! i /\
       m_Moves s' !! i = m_Moves s !! i).
Proof.
  induction n as [|n IH]; intros a s s' Hrun; simpl in Hrun.
  - simplify_eq. repeat split; try done; lia.
  - destruct (body dt a s) as [s1|] eqn:Hb; simpl in Hrun; [|done].
    apply body_Some in Hb as (p & m & Hp & Hm & ->).
    apply IH in Hrun as (Hspr & Hid & Hlp & Hlm & Hi). simpl in *.
    rewrite length_insert in Hlp. rewrite length_insert in Hlm.
    repeat split; try done.
    + intros Hr. destruct (decide (i = a)) as [->|Hne].
      * exists p, m. destruct (Hi a) as [_ Hout].
        destruct Hout as [Hop Hom]; [lia|].
        rewrite Hop, Hom.
        apply lookup_lt_Some in Hp as Hlt1. apply lookup_lt_Some in Hm as Hlt2.
        by rewrite !list_lookup_insert_eq.
      * destruct (Hi i) as [Hin _].
        destruct Hin as (p' & m' & Hp' & Hm' & Hp'' & Hm''); [lia|].
        rewrite list_lookup_insert_ne in Hp' by done.
        rewrite list_lookup_insert_ne in Hm' by done.
        by exists p', m'.
    + destruct (Hi i) as [_ Hout]. destruct Hout as [Hop _]; [lia|].
      rewrite Hop. apply list_lookup_insert_ne. lia.
    + destruct (Hi i) as [_ Hout]. destruct Hout as [_ Hom]; [lia|].
      rewrite Hom. apply list_lookup_insert_ne. lia.
Qed.

Lemma move_range_total dt n : forall a s,
  (a + n <= length (m_Positions s))%nat ->
  (a + n <= length (m_Moves s))%nat ->
  is_Some (foldM (body dt) (seq a n) s).
Proof.
  induction n as [|n IH]; intros a s Hp Hm; simpl; [done|].
  destruct (lookup_lt_is_Some_2 (m_Positions s) a) as [p Hpa]; [lia|].
  destruct (lookup_lt_is_Some_2 (m_Moves s) a) as [m Hma]; [lia|].
  rewrite (body_eq dt a s p m Hpa Hma). simpl.
  apply IH; simpl; rewrite length_insert; lia.
Qed.

End MotionLoop.

(** * Rounding to binary32 *)

Lemma iter_pos_nat {A} (f : A -> A) p x :
  SpecFloat.iter_pos f p x = Nat.iter (Pos.to_nat p) f x.
Proof.
  revert x. induction p as [p IH|p IH|]; intros x; cbn [SpecFloat.iter_pos].
  - rewrite !IH, <- Nat.iter_succ_r, <- Nat.iter_add. f_equal. lia.
  - rewrite !IH, <- Nat.iter_add. f_equal. lia.
  - reflexivity.
Qed.

Lemma digits2_log2 m : Z.pos (digits2_pos m) = Z.log2 (Z.pos m) + 1.
Proof.
  assert (Hs : forall p, digits2_pos p = Pos.size p).
  { induction p; simpl; congruence. }
  rewrite Hs. destruct m; simpl; lia.
Qed.

Lemma digits2_bounds m :
  2 ^ (Z.pos (digits2_pos m) - 1) <= Z.pos m < 2 ^ Z.pos (digits2_pos m).
Proof.
  rewrite digits2_log2.
  pose proof (Z.log2_spec (Z.pos m) ltac:(lia)) as H.
  replace (Z.log2 (Z.pos m) + 1 - 1) with (Z.log2 (Z.pos m)) by lia.
  replace (Z.log2 (Z.pos m) + 1) with (Z.succ (Z.log2 (Z.pos m))) by lia.
  exact H.
Qed.

Lemma shr_1_m r : 0 <= shr_m r -> shr_m (shr_1 r) = shr_m r / 2.
Proof.
  destruct r as [m r s]. simpl. intros Hm.
  destruct m as [|[p|p|]|p]; try lia; simpl shr_m.
  - reflexivity.
  - rewrite Pos2Z.inj_xI. apply Z.div_unique with 1; lia.
  - rewrite Pos2Z.inj_xO. apply Z.div_unique with 0; lia.
  - reflexivity.
Qed.

Lemma shr_1_exact m :
  0 <= m -> m mod 2 = 0 ->
  shr_1 (Build_shr_record m false false) = Build_shr_record (m / 2) false false.
Proof.
  intros Hm He. destruct m as [|[p|p|]|p]; try lia; simpl.
  - reflexivity.
  - rewrite Pos2Z.inj_xI in He. exfalso.
    rewrite Z.add_comm, Z.mul_comm, Z.mod_add in He by lia. discriminate.
  - f_equal. rewrite Pos2Z.inj_xO. apply Z.div_unique with 0; lia.
  - discriminate.
Qed.

Lemma shr_iter_m k : forall r,
  0 <= shr_m r -> shr_m (Nat.iter k shr_1 r) = shr_m r / 2 ^ Z.of_nat k.
Proof.
  induction k as [|k IH]; intros r Hr.
  - simpl. by rewrite Z.div_1_r.
  - rewrite Nat.iter_succ_r, IH.
    + rewrite shr_1_m by done. rewrite Nat2Z.inj_succ, Z.pow_succ_r by lia.
      rewrite Z.div_div by lia. reflexivity.
    + rewrite shr_1_m by done. apply Z.div_pos; lia.
Qed.

Lemma shr_iter_exact k : forall m,
  0 <= m -> m mod 2 ^ Z.of_nat k = 0 ->
  Nat.iter k shr_1 (Build_shr_record m false false) =
    Build_shr_record (m / 2 ^ Z.of_nat k) false false.
Proof.
  induction k as [|k IH]; intros m Hm He.
  - simpl. by rewrite Z.div_1_r.
  - rewrite Nat2Z.inj_succ, Z.pow_succ_r in * by lia.
    assert (Hm2 : m mod 2 = 0).
    { apply Z.mod_divide in He; [|lia]. apply Z.mod_divide; [lia|].
      destruct He as [q ->]. exists (q * 2 ^ Z.of_nat k). lia. }
    rewrite Nat.iter_succ_r, shr_1_exact by done.
    rewrite IH.
    + by rewrite Z.div_div by lia.
    + apply Z.div_pos; lia.
    + apply Z.mod_divide in He; [|lia]. apply Z.mod_divide; [lia|].
      destruct He as [q ->]. exists q.
      replace (q * (2 * 2 ^ Z.of_nat k)) with (q * 2 ^ Z.of_nat k * 2) by lia.
      by rewrite Z.div_mul by lia.
Qed.

(** [shr] from an exact location: the mantissa is shifted right by [n]
    when [n] is positive, and stays exact when nothing is lost. *)
Lemma shr_spec m e n :
  0 <= m ->
  let k := Z.max 0 n in
  let res := shr (shr_record_of_loc m loc_Exact) e n in
  shr_m (fst res) = m / 2 ^ k /\ snd res = e + k /\
  (m mod 2 ^ k = 0 -> loc_of_shr_record (fst res) = loc_Exact).
Proof.
  intros Hm k res. subst k res. unfold shr. destruct n as [|p|p]; simpl.
  - rewrite Z.div_1_r. repeat split; lia.
  - rewrite iter_pos_nat.
    replace (Z.max 0 (Z.pos p)) with (Z.of_nat (Pos.to_nat p)) by lia.
    rewrite shr_iter_m by (simpl; lia). simpl.
    repeat split; [lia|].
    intros He. rewrite shr_iter_exact by done. reflexivity.
  - rewrite Z.div_1_r. repeat split; lia.
Qed.

Lemma round_nearest_even_cases m r :
  round_nearest_even m (loc_of_shr_record r) = m \/
  (round_nearest_even m (loc_of_shr_record r) = m + 1 /\
   loc_of_shr_record r <> loc_Exact).
Proof.
  destruct r as [m' [|] [|]]; simpl; try (left; reflexivity);
    try (right; split; [reflexivity|discriminate]).
  destruct (Z.even m); [left; reflexivity|right; split; [reflexivity|discriminate]].
Qed.


Lemma binary_round_aux_spec s m e :
  let k := Z.max 0 (fexp prec emax (Z.pos (digits2_pos m) + e) - e) in
  let m1 := Z.pos m / 2 ^ k in
  let e1 := e + k in
  exists m2,
    (m2 = m1 \/ (m2 = m1 + 1 /\ Z.pos m mod 2 ^ k <> 0)) /\
    let k2 := Z.max 0 (fexp prec emax (Zdigits2 m2 + e1) - e1) in
    binary_round_aux prec emax s (Z.pos m) e loc_Exact =
      round_result s (m2 / 2 ^ k2) (e1 + k2).
Proof.
  intros k m1 e1. unfold binary_round_aux, shr_fexp.
  change (Zdigits2 (Z.pos m)) with (Z.pos (digits2_pos m)).
  destruct (shr_spec (Z.pos m) e
              (fexp prec emax (Z.pos (digits2_pos m) + e) - e) ltac:(lia))
    as (Hm & He & Hx).
  destruct (shr (shr_record_of_loc (Z.pos m) loc_Exact) e _) as [r1 e1'].
  simpl in Hm, He, Hx. fold k in Hm, He, Hx. subst e1'. fold e1. fold m1 in Hm.
  pose proof (round_nearest_even_cases (shr_m r1) r1) as Hr.
  set (m2 := round_nearest_even (shr_m r1) (loc_of_shr_record r1)) in *.
  rewrite Hm in Hr.
  assert (H1 : 0 <= m1) by (apply Z.div_pos; lia).
  exists m2. split.
  - destruct Hr as [Hr|[Hr Hne]]; [by left|].
    right. split; [done|]. intros H0. by apply Hne, Hx.
  - cbv zeta.
    set (k2 := Z.max 0 (fexp prec emax (Zdigits2 m2 + e1) - e1)).
    assert (Hm2 : 0 <= m2) by (destruct Hr as [Hr|[Hr _]]; lia).
    destruct (shr_spec m2 e1 (fexp prec emax (Zdigits2 m2 + e1) - e1) Hm2)
      as (Hm' & He' & _).
    fold k2 in Hm', He'.
    destruct (shr (shr_record_of_loc m2 loc_Exact) e1 _) as [r2 e2].
    simpl in Hm', He'. subst e2. rewrite Hm'. reflexivity.
Qed.

Lemma fexp32 x : fexp prec emax x = Z.max (x - 24) (-149).
Proof. reflexivity. Qed.

Lemma digits2_le m n :
  0 <= n -> (Z.pos (digits2_pos m) <= n <-> Z.pos m < 2 ^ n).
Proof.
  intros Hn. pose proof (digits2_bounds m) as [Hlo Hhi]. split; intros H.
  - eapply Z.lt_le_trans; [exact Hhi|]. apply Z.pow_le_mono_r; lia.
  - destruct (Z.le_gt_cases (Z.pos (digits2_pos m)) n) as [|Hgt]; [done|].
    exfalso. assert (2 ^ n <= 2 ^ (Z.pos (digits2_pos m) - 1))
      by (apply Z.pow_le_mono_r; lia). lia.
Qed.

Lemma digits2_ge m n :
  0 < n -> (n <= Z.pos (digits2_pos m) <-> 2 ^ (n - 1) <= Z.pos m).
Proof.
  intros Hn. pose proof (digits2_bounds m) as [Hlo Hhi]. split; intros H.
  - eapply Z.le_trans; [|exact Hlo]. apply Z.pow_le_mono_r; lia.
  - destruct (Z.le_gt_cases n (Z.pos (digits2_pos m))) as [|Hgt]; [done|].
    exfalso. assert (2 ^ Z.pos (digits2_pos m) <= 2 ^ (n - 1))
      by (apply Z.pow_le_mono_r; lia). lia.
Qed.

Lemma bounded_iff m e :
  bounded prec emax m e = true <->
  Z.pos m < 2 ^ 24 /\ -149 <= e <= 104 /\ (e = -149 \/ 2 ^ 23 <= Z.pos m).
Proof.
  unfold bounded, canonical_mantissa. rewrite andb_true_iff, Z.eqb_eq, Z.leb_le.
  rewrite fexp32. change (emax - prec) with 104.
  pose proof (digits2_le m 24 ltac:(lia)) as Hle.
  pose proof (digits2_ge m 24 ltac:(lia)) as Hge.
  change (24 - 1) with 23 in Hge.
  split.
  - intros [Hc He]. split; [apply Hle; lia|]. split; [lia|].
    destruct (decide (e = -149)); [by left|right]. apply Hge. lia.
  - intros (Hm & He & Hn). apply Hle in Hm. split; [|lia].
    destruct Hn as [->|Hn]; [lia|]. apply Hge in Hn. lia.
Qed.

Lemma Zdigits2_pos_le z n :
  0 < z -> 0 <= n -> (Zdigits2 z <= n <-> z < 2 ^ n).
Proof. intros Hz Hn. destruct z; try lia. simpl. by apply digits2_le. Qed.

Lemma Zdigits2_pos_ge z n :
  0 < z -> 0 < n -> (n <= Zdigits2 z <-> 2 ^ (n - 1) <= z).
Proof. intros Hz Hn. destruct z; try lia. simpl. by apply digits2_ge. Qed.

(** Rounding of an aligned mantissa: the result is [m2], between the floor
    and the ceiling of [m / 2^k], renormalised to at most 24 digits. *)
Lemma binary_round_aux_aligned s m e :
  let E := fexp prec emax (Z.pos (digits2_pos m) + e) in
  e <= E ->
  exists m2 m3 e3,
    binary_round_aux prec emax s (Z.pos m) e loc_Exact = round_result s m3 e3 /\
    m3 * 2 ^ (e3 - E) = m2 /\ E <= e3 <= E + 1 /\ -149 <= E /\
    0 <= m3 < 2 ^ 24 /\ (e3 = -149 \/ 2 ^ 23 <= m3 \/ m3 = 0) /\
    (forall b, b * 2 ^ (E - e) <= Z.pos m -> b <= m2) /\
    (forall b, Z.pos m <= b * 2 ^ (E - e) -> m2 <= b).
Proof.
  intros E HP.
  destruct (binary_round_aux_spec s m e) as (m2 & Hm2 & Hres).
  cbv zeta in Hres. fold E in Hm2, Hres.
  assert (HE : E = Z.max (Z.pos (digits2_pos m) + e - 24) (-149)) by apply fexp32.
  replace (Z.max 0 (E - e)) with (E - e) in * by lia.
  replace (e + (E - e)) with E in Hres by lia.
  set (k := E - e) in *.
  assert (Hk : 0 < 2 ^ k) by (apply Z.pow_pos_nonneg; lia).
  set (m1 := Z.pos m / 2 ^ k) in *.
  assert (Hfl : m1 * 2 ^ k <= Z.pos m < (m1 + 1) * 2 ^ k).
  { pose proof (Z.mul_div_le (Z.pos m) (2 ^ k) Hk).
    pose proof (Z.mul_succ_div_gt (Z.pos m) (2 ^ k) Hk). fold m1 in H, H0. lia. }
  assert (Hmod : Z.pos m mod 2 ^ k = Z.pos m - m1 * 2 ^ k).
  { pose proof (Z.div_mod (Z.pos m) (2 ^ k) ltac:(lia)). fold m1 in H. lia. }
  assert (Hfloor : forall b, b * 2 ^ k <= Z.pos m -> b <= m2).
  { intros b Hb. assert (b <= m1) by nia. destruct Hm2 as [->|[-> _]]; lia. }
  assert (Hceil : forall b, Z.pos m <= b * 2 ^ k -> m2 <= b).
  { intros b Hb. assert (m1 <= b) by nia.
    destruct Hm2 as [->|[-> Hne]]; [lia|].
    destruct (decide (m1 = b)) as [->|]; [|lia]. exfalso. apply Hne. lia. }
  pose proof (digits2_bounds m) as [Hdlo Hdhi].
  set (d := Z.pos (digits2_pos m)) in *.
  assert (Hm1 : m1 < 2 ^ 24).
  { assert (2 ^ d <= 2 ^ (24 + k)) by (apply Z.pow_le_mono_r; lia).
    rewrite Z.pow_add_r in H by lia. nia. }
  assert (Hm1' : -149 < E -> 2 ^ 23 <= m1).
  { intros HE'. assert (Hkd : d - 1 = 23 + k) by lia.
    rewrite Hkd, Z.pow_add_r in Hdlo by lia. nia. }
  assert (Hm2le : 0 <= m2 <= 2 ^ 24).
  { assert (0 <= m1) by (apply Z.div_pos; lia).
    destruct Hm2 as [->|[-> _]]; lia. }
  assert (Hm2ge : -149 < E -> 2 ^ 23 <= m2).
  { intros HE'. specialize (Hm1' HE'). destruct Hm2 as [->|[-> _]]; lia. }
  rewrite fexp32 in Hres.
  destruct (decide (m2 = 0)) as [Hz|Hnz].
  - exists m2, 0, E. rewrite Hz in *. simpl Zdigits2 in Hres.
    replace (Z.max 0 (Z.max (0 + E - 24) (-149) - E)) with 0 in Hres by lia.
    rewrite Z.add_0_r in Hres. change (0 / 2 ^ 0) with 0 in Hres.
    repeat split; try done; try lia.
  - destruct (decide (m2 < 2 ^ 24)) as [Hlt|Hge].
    + assert (Hd2 : Zdigits2 m2 <= 24) by (apply Zdigits2_pos_le; lia).
      replace (Z.max 0 (Z.max (Zdigits2 m2 + E - 24) (-149) - E)) with 0
        in Hres by lia.
      rewrite Z.add_0_r, Z.pow_0_r, Z.div_1_r in Hres.
      exists m2, m2, E. rewrite Z.sub_diag, Z.pow_0_r.
      repeat split; try done; try lia.
      all: destruct (decide (E = -149)); [by left|right; left; apply Hm2ge; lia].
    + assert (Heq : m2 = 2 ^ 24) by lia.
      assert (Hd2 : Zdigits2 m2 = 25).
      { assert (25 <= Zdigits2 m2) by (apply Zdigits2_pos_ge; lia).
        assert (Zdigits2 m2 <= 25) by (apply Zdigits2_pos_le; lia). lia. }
      rewrite Hd2 in Hres.
      replace (Z.max 0 (Z.max (25 + E - 24) (-149) - E)) with 1 in Hres by lia.
      rewrite Heq in Hres. change (2 ^ 24 / 2 ^ 1) with (2 ^ 23) in Hres.
      exists m2, (2 ^ 23), (E + 1).
      replace (E + 1 - E) with 1 by lia.
      repeat split; try done; try lia.
Qed.

Lemma iter_xO_spec m d :
  Z.pos (Pos.iter xO m d) = Z.pos m * 2 ^ Z.pos d /\
  Z.pos (digits2_pos (Pos.iter xO m d)) = Z.pos (digits2_pos m) + Z.pos d.
Proof.
  induction d as [|d IH] using Pos.peano_ind.
  - simpl. split; lia.
  - rewrite Pos.iter_succ. destruct IH as [IH1 IH2]. simpl digits2_pos.
    rewrite Pos2Z.inj_xO, IH1, !Pos2Z.inj_succ, IH2.
    rewrite Z.pow_succ_r by lia. split; lia.
Qed.

Lemma shl_align_spec m e e' :
  let r := shl_align m e e' in
  snd r = Z.min e e' /\
  Z.pos (fst r) = Z.pos m * 2 ^ (e - snd r) /\
  Z.pos (digits2_pos (fst r)) + snd r = Z.pos (digits2_pos m) + e.
Proof.
  unfold shl_align. destruct (e' - e) as [|d|d] eqn:Hd; simpl.
  - replace (e - e) with 0 by lia. repeat split; lia.
  - replace (e - e) with 0 by lia. repeat split; lia.
  - destruct (iter_xO_spec m d) as [H1 H2]. rewrite H1, H2.
    replace (e - e') with (Z.pos d) by lia. repeat split; lia.
Qed.


Lemma binary_round_mag s m e :
  -149 <= e ->
  let r := binary_round prec emax s m e in
  fvalid r = true /\ is_nan r = false /\ Fsign r = s /\
  forall mh eh, Fbound mh eh ->
    Z.pos m * 2 ^ (e + 149) <= Z.pos mh * 2 ^ (eh + 149) ->
    is_finite r = true /\ Fmag r <= Z.pos mh * 2 ^ (eh + 149).
Proof.
  intros He r. subst r. unfold binary_round.
  pose proof (shl_align_spec m e (fexp prec emax (Z.pos (digits2_pos m) + e)))
    as (Hz1 & Hz2 & Hz3). cbv zeta in *.
  destruct (shl_align m e _) as [mz ez]. simpl in Hz1, Hz2, Hz3.
  set (E := fexp prec emax (Z.pos (digits2_pos m) + e)) in *.
  pose proof (binary_round_aux_aligned s mz ez) as Hal. cbv zeta in Hal.
  rewrite Hz3 in Hal. fold E in Hal.
  destruct Hal as (m2 & m3 & e3 & Hres & Hm3 & He3 & HE & Hr3 & Hcan & _ & Hceil);
    [lia|].
  rewrite Hres. clear Hres.
  assert (Hshape : fvalid (round_result s m3 e3) = true /\
                   is_nan (round_result s m3 e3) = false /\
                   Fsign (round_result s m3 e3) = s).
  { unfold round_result. destruct m3 as [|p|p]; [done| |lia].
    change (emax - prec) with 104.
    destruct (e3 <=? 104) eqn:Hle; [|done]. apply Z.leb_le in Hle.
    split; [|done]. apply bounded_iff. split; [lia|]. split; [lia|].
    destruct Hcan as [?|[?|?]]; [by left|by right|lia]. }
  destruct Hshape as (Hv & Hn & Hs).
  split; [done|]. split; [done|]. split; [done|].
  intros mh eh [Hmh Heh] Hle.
  pose proof (digits2_bounds m) as [Hdlo _].
  set (d := Z.pos (digits2_pos m)) in *.
  assert (Hpe : 0 < 2 ^ (e + 149)) by (apply Z.pow_pos_nonneg; lia).
  assert (Hpeh : 0 < 2 ^ (eh + 149)) by (apply Z.pow_pos_nonneg; lia).
  assert (HEeh : E <= eh).
  { assert (HE' : E = Z.max (d + e - 24) (-149)) by apply fexp32.
    destruct (Z.le_gt_cases (d + e - 24) eh) as [|Hgt]; [lia|exfalso].
    assert (Hp : 2 ^ (24 + (eh + 149)) <= 2 ^ (d - 1 + (e + 149)))
      by (apply Z.pow_le_mono_r; lia).
    rewrite (Z.pow_add_r 2 24 (eh + 149)) in Hp by lia.
    rewrite (Z.pow_add_r 2 (d - 1) (e + 149)) in Hp by lia. nia. }
  assert (Hb : m2 <= Z.pos mh * 2 ^ (eh - E)).
  { apply Hceil. rewrite Hz2.
    assert (Hq : 0 < 2 ^ (ez + 149)) by (apply Z.pow_pos_nonneg; lia).
    apply (Z.mul_le_mono_pos_r _ _ (2 ^ (ez + 149))); [done|].
    rewrite <- !Z.mul_assoc, <- !Z.pow_add_r by lia.
    replace (e - ez + (ez + 149)) with (e + 149) by lia.
    replace (eh - E + (E - ez + (ez + 149))) with (eh + 149) by lia.
    done. }
  unfold round_result. destruct m3 as [|p|p]; [simpl; lia| |lia].
  change (emax - prec) with 104.
  destruct (e3 <=? 104) eqn:Hle3; [|apply Z.leb_gt in Hle3; lia].
  split; [done|]. simpl.
  replace (e3 + 149) with ((e3 - E) + (E + 149)) by lia.
  replace (eh + 149) with ((eh - E) + (E + 149)) by lia.
  rewrite (Z.pow_add_r 2 (e3 - E)), (Z.pow_add_r 2 (eh - E)) by lia.
  assert (0 < 2 ^ (E + 149)) by (apply Z.pow_pos_nonneg; lia).
  nia.
Qed.

Lemma fvalid_finite s m e :
  fvalid (S754_finite s m e) = true ->
  Z.pos m < 2 ^ 24 /\ -149 <= e <= 104 /\ (e = -149 \/ 2 ^ 23 <= Z.pos m).
Proof. intros H. by apply bounded_iff. Qed.

Lemma Fmag_nonneg f : 0 <= Fmag f.
Proof.
  destruct f; simpl; lia.
Qed.

Lemma Fmag_finite_pos s m e : -149 <= e -> 0 < Fmag (S754_finite s m e).
Proof. intros. simpl. apply Z.mul_pos_pos; [lia|]. apply Z.pow_pos_nonneg; lia. Qed.

Lemma Fval_zero s : Fval (S754_zero s) = 0.
Proof. by destruct s. Qed.

Lemma binary_normalize_spec M e :
  -149 <= e ->
  let r := binary_normalize prec emax M e false in
  fvalid r = true /\ is_nan r = false /\
  (0 <= M -> 0 <= Fval r) /\ (M <= 0 -> Fval r <= 0) /\
  forall mh eh, Fbound mh eh ->
    Z.abs M * 2 ^ (e + 149) <= Z.pos mh * 2 ^ (eh + 149) ->
    is_finite r = true /\ Z.abs (Fval r) <= Z.pos mh * 2 ^ (eh + 149).
Proof.
  intros He r. subst r. destruct M as [|p|p]; simpl binary_normalize.
  - repeat split; try done.
  - destruct (binary_round_mag false p e He) as (Hv & Hn & Hs & Hb).
    set (r := binary_round prec emax false p e) in *.
    pose proof (Fmag_nonneg r). unfold Fval. rewrite Hs.
    repeat split; try done; try lia.
    + by apply (Hb mh eh).
    + destruct (Hb mh eh) as [_ Hm]; [done|simpl in *; lia|lia].
  - destruct (binary_round_mag true p e He) as (Hv & Hn & Hs & Hb).
    set (r := binary_round prec emax true p e) in *.
    pose proof (Fmag_nonneg r). unfold Fval. rewrite Hs.
    repeat split; try done; try lia.
    + by apply (Hb mh eh).
    + destruct (Hb mh eh) as [_ Hm]; [done|simpl in *; lia|lia].
Qed.

Lemma fadd_spec x y :
  fvalid x = true -> fvalid y = true ->
  is_finite x = true -> is_finite y = true ->
  let r := fadd x y in
  fvalid r = true /\ is_nan r = false /\
  (0 <= Fval x + Fval y -> 0 <= Fval r) /\
  (Fval x + Fval y <= 0 -> Fval r <= 0) /\
  forall mh eh, Fbound mh eh ->
    Z.abs (Fval x + Fval y) <= Z.pos mh * 2 ^ (eh + 149) ->
    is_finite r = true /\ Z.abs (Fval r) <= Z.pos mh * 2 ^ (eh + 149).
Proof.
  intros Hvx Hvy Hfx Hfy r. subst r.
  destruct x as [sx|sx| |sx mx ex], y as [sy|sy| |sy my ey]; try done.
  - destruct sx, sy; simpl; unfold Fval; simpl; repeat split; try done; lia.
  - rewrite Fval_zero. change (fadd _ _) with (S754_finite sy my ey).
    repeat split; try done; lia.
  - rewrite Fval_zero. change (fadd _ _) with (S754_finite sx mx ex).
    repeat split; try done; lia.
  - apply fvalid_finite in Hvx as (Hmx & Hex & _).
    apply fvalid_finite in Hvy as (Hmy & Hey & _).
    unfold fadd, SFadd. cbv zeta.
    set (ez := Z.min ex ey).
    pose proof (shl_align_spec mx ex ez) as (Hx1 & Hx2 & _).
    pose proof (shl_align_spec my ey ez) as (Hy1 & Hy2 & _).
    cbv zeta in *. rewrite Hx1 in Hx2. rewrite Hy1 in Hy2.
    replace (Z.min ex ez) with ez in Hx2 by lia.
    replace (Z.min ey ez) with ez in Hy2 by lia.
    rewrite Hx2, Hy2.
    set (M := cond_Zopp sx (Z.pos mx * 2 ^ (ex - ez)) +
              cond_Zopp sy (Z.pos my * 2 ^ (ey - ez))).
    assert (HM : Fval (S754_finite sx mx ex) + Fval (S754_finite sy my ey)
                 = M * 2 ^ (ez + 149)).
    { unfold Fval, M. simpl Fsign. simpl Fmag.
      replace (ex + 149) with ((ex - ez) + (ez + 149)) by lia.
      replace (ey + 149) with ((ey - ez) + (ez + 149)) by lia.
      rewrite (Z.pow_add_r 2 (ex - ez)), (Z.pow_add_r 2 (ey - ez)) by lia.
      destruct sx, sy; simpl; lia. }
    rewrite HM.
    assert (Hp : 0 < 2 ^ (ez + 149)) by (apply Z.pow_pos_nonneg; lia).
    destruct (binary_normalize_spec M ez ltac:(lia)) as (Hv & Hn & Hp1 & Hp2 & Hb).
    split; [done|]. split; [done|].
    split; [intros H; apply Hp1; nia|]. split; [intros H; apply Hp2; nia|].
    intros mh eh Hbd Hle. apply (Hb mh eh Hbd).
    rewrite Z.abs_mul in Hle. rewrite (Z.abs_eq (2 ^ _)) in Hle by lia.
    exact Hle.
Qed.

Lemma binary_round_aux_not_nan s m e :
  is_nan (binary_round_aux prec emax s (Z.pos m) e loc_Exact) = false.
Proof.
  destruct (binary_round_aux_spec s m e) as (m2 & Hm2 & ->).
  cbv zeta in *.
  assert (0 <= Z.pos m / 2 ^ Z.max 0 (fexp prec emax (Z.pos (digits2_pos m) + e) - e))
    by (apply Z.div_pos; lia).
  assert (0 <= m2) by (destruct Hm2 as [->|[-> _]]; lia).
  match goal with |- is_nan (round_result _ ?q _) = _ =>
    assert (0 <= q) by (apply Z.div_pos; lia); destruct q end;
    unfold round_result; try done; try lia.
  by destruct (_ <=? _).
Qed.

Lemma binary_normalize_not_nan M e :
  is_nan (binary_normalize prec emax M e false) = false.
Proof.
  destruct M; simpl; [done| |]; unfold binary_round;
    destruct (shl_align _ _ _); apply binary_round_aux_not_nan.
Qed.

Lemma fadd_not_nan x y :
  is_finite x = true -> is_nan y = false -> is_nan (fadd x y) = false.
Proof.
  destruct x as [sx|sx| |sx mx ex], y as [sy|sy| |sy my ey]; try done.
  - by destruct sx, sy.
  - intros _ _. apply binary_normalize_not_nan.
Qed.

Lemma fmul_not_nan x y :
  is_finite x = true -> is_finite y = true -> is_nan (fmul x y) = false.
Proof.
  destruct x as [sx|sx| |sx mx ex], y as [sy|sy| |sy my ey]; try done.
  intros _ _. apply binary_round_aux_not_nan.
Qed.

Lemma SFcompare_antisym x y c :
  SFcompare x y = Some c -> SFcompare y x = Some (CompOpp c).
Proof.
  destruct x as [sx|sx| |sx mx ex], y as [sy|sy| |sy my ey]; simpl;
    try discriminate; intros [= <-]; try (by destruct sx); try (by destruct sy);
    try (by destruct sx, sy).
  assert (Hm : Pos.compare_cont Eq my mx = CompOpp (Pos.compare_cont Eq mx my))
    by (symmetry; apply (Pos.compare_cont_antisym mx my Eq)).
  destruct sx, sy; try done; rewrite (Z.compare_antisym ex ey), Hm;
    destruct (ex ?= ey); simpl; try done.
Qed.

(** When neither side is a NaN, [a < b] fails exactly when [b <= a]. *)
Lemma flt_false_fle a b :
  is_nan a = false -> is_nan b = false -> flt a b = false -> fle b a = true.
Proof.
  unfold flt, fle, SFltb, SFleb. intros Ha Hb.
  destruct (SFcompare a b) as [c|] eqn:Hc.
  - rewrite (SFcompare_antisym _ _ _ Hc). by destruct c.
  - by destruct a, b.
Qed.

Lemma fneg_props x :
  Fval (fneg x) = - Fval x /\ fvalid (fneg x) = fvalid x /\
  is_finite (fneg x) = is_finite x.
Proof.
  destruct x as [s|s| |s m e]; try destruct s; unfold Fval; simpl;
    repeat split; lia.
Qed.

Lemma fsub_fadd x y : fsub x y = fadd x (fneg y).
Proof.
  destruct x as [sx|sx| |sx mx ex], y as [sy|sy| |sy my ey]; try done;
    by destruct sx, sy.
Qed.

Lemma mag_lt_exp mx ex my ey :
  Z.pos mx < 2 ^ 24 -> 2 ^ 23 <= Z.pos my -> -149 <= ex < ey ->
  Z.pos mx * 2 ^ (ex + 149) < Z.pos my * 2 ^ (ey + 149).
Proof.
  intros Hx Hy He.
  replace (ey + 149) with ((ey - ex - 1) + (1 + (ex + 149))) by lia.
  rewrite (Z.pow_add_r 2 (ey - ex - 1)), (Z.pow_add_r 2 1 (ex + 149)) by lia.
  assert (HP : 0 < 2 ^ (ex + 149)) by (apply Z.pow_pos_nonneg; lia).
  assert (HA : 0 < 2 ^ (ey - ex - 1)) by (apply Z.pow_pos_nonneg; lia).
  change (2 ^ 1) with 2.
  set (P := 2 ^ (ex + 149)) in *. set (A := 2 ^ (ey - ex - 1)) in *.
  assert (H1 : Z.pos mx * P < 2 ^ 24 * P) by nia.
  assert (H2 : 2 ^ 24 * P <= Z.pos my * (2 * P)) by nia.
  assert (H3 : Z.pos my * (1 * (2 * P)) <= Z.pos my * (A * (2 * P))).
  { apply Z.mul_le_mono_nonneg_l; [lia|].
    apply Z.mul_le_mono_nonneg_r; lia. }
  lia.
Qed.

(** On valid finite floats the comparison is that of the values. *)
Lemma fle_Fval x y :
  fvalid x = true -> fvalid y = true ->
  is_finite x = true -> is_finite y = true ->
  fle x y = true -> Fval x <= Fval y.
Proof.
  intros Hvx Hvy Hfx Hfy.
  destruct x as [sx|sx| |sx mx ex], y as [sy|sy| |sy my ey]; try done.
  - rewrite !Fval_zero. lia.
  - apply fvalid_finite in Hvy as (Hmy & Hey & _).
    rewrite Fval_zero. pose proof (Fmag_finite_pos sy my ey ltac:(lia)).
    unfold fle, SFleb, Fval. simpl SFcompare. simpl Fsign.
    destruct sy; [done|lia].
  - apply fvalid_finite in Hvx as (Hmx & Hex & _).
    rewrite Fval_zero. pose proof (Fmag_finite_pos sx mx ex ltac:(lia)).
    unfold fle, SFleb, Fval. simpl SFcompare. simpl Fsign.
    destruct sx; [lia|done].
  - apply fvalid_finite in Hvx as (Hmx & Hex & Hnx).
    apply fvalid_finite in Hvy as (Hmy & Hey & Hny).
    pose proof (Fmag_finite_pos sx mx ex ltac:(lia)).
    pose proof (Fmag_finite_pos sy my ey ltac:(lia)).
    assert (0 < 2 ^ (ex + 149)) by (apply Z.pow_pos_nonneg; lia).
    assert (0 < 2 ^ (ey + 149)) by (apply Z.pow_pos_nonneg; lia).
    unfold fle, SFleb, Fval. simpl SFcompare. simpl Fsign. simpl Fmag in *.
    destruct sx, sy; try done; try lia.
    + destruct (ex ?= ey) eqn:Hc.
      * apply Z.compare_eq in Hc as ->. fold (Pos.compare mx my).
        destruct (mx ?= my)%positive eqn:Hm; simpl; try done; intros _.
        -- apply Pos.compare_eq in Hm as ->. lia.
        -- apply Pos.compare_gt_iff in Hm.
           assert (Z.pos my * 2 ^ (ey + 149) <= Z.pos mx * 2 ^ (ey + 149))
             by (apply Z.mul_le_mono_nonneg_r; lia).
           lia.
      * done.
      * intros _. apply Z.compare_gt_iff in Hc.
        assert (Z.pos my * 2 ^ (ey + 149) < Z.pos mx * 2 ^ (ex + 149));
          [|lia].
        apply mag_lt_exp; lia.
    + destruct (ex ?= ey) eqn:Hc.
      * apply Z.compare_eq in Hc as ->. fold (Pos.compare mx my).
        destruct (mx ?= my)%positive eqn:Hm; simpl; try done; intros _.
        -- apply Pos.compare_eq in Hm as ->. lia.
        -- change (mx < my)%positive in Hm.
           apply Z.mul_le_mono_nonneg_r; lia.
      * intros _. change (ex < ey) in Hc.
        assert (Z.pos mx * 2 ^ (ex + 149) < Z.pos my * 2 ^ (ey + 149));
          [|lia].
        apply mag_lt_exp; lia.
      * done.
Qed.

Lemma fle_finite lo x hi :
  is_finite lo = true -> is_finite hi = true ->
  fle lo x = true -> fle x hi = true -> is_finite x = true.
Proof.
  destruct x as [s|s| |s m e]; try done.
  destruct lo, hi, s; done.
Qed.

Lemma uint_of_float_Fval u r :
  fvalid r = true -> is_finite r = true ->
  0 <= Fval r < 2 ^ 32 * 2 ^ 149 ->
  uint_of_float u r = Fval r / 2 ^ 149.
Proof.
  intros Hv Hf Hr. destruct r as [s|s| |s m e]; try done.
  - by rewrite Fval_zero.
  - apply fvalid_finite in Hv as (Hm & He & _).
    pose proof (Fmag_finite_pos s m e ltac:(lia)) as Hpos.
    unfold Fval in *. simpl Fsign in *. destruct s; [lia|].
    simpl Fmag in *. simpl uint_of_float.
    assert (Hsh : Z.shiftl (Z.pos m) e = Z.pos m * 2 ^ (e + 149) / 2 ^ 149).
    { destruct (Z.le_gt_cases 0 e).
      - rewrite Z.shiftl_mul_pow2, Z.pow_add_r by lia.
        rewrite Z.mul_assoc, Z.div_mul; lia.
      - rewrite Z.shiftl_div_pow2 by lia.
        replace (2 ^ 149) with (2 ^ (- e) * 2 ^ (e + 149)).
        + rewrite Z.div_mul_cancel_r; lia.
        + rewrite <- Z.pow_add_r by lia. f_equal. lia. }
    rewrite Hsh.
    assert (Z.pos m * 2 ^ (e + 149) / 2 ^ 149 < 2 ^ 32)
      by (apply Z.div_lt_upper_bound; lia).
    destruct (_ <? _) eqn:Hlt; [done|]. apply Z.ltb_ge in Hlt. lia.
Qed.

(** * Grid cells, buckets and the Avoidance System *)

Section GridCells.
Import AvoidanceSystem.

Lemma forallb_seqZ (P : Z -> bool) lo n v :
  forallb P (seqZ lo n) = true -> lo <= v < lo + n -> P v = true.
Proof.
  intros H Hv. rewrite forallb_forall in H. apply H.
  apply list_elem_of_In, elem_of_seqZ. lia.
Qed.

Lemma wrap_cell_le v : 0 <= v <= 64 -> 0 <= wrap_cell v <= 63.
Proof.
  intros Hv.
  pose proof (forallb_seqZ (fun v => (0 <=? wrap_cell v) && (wrap_cell v <=? 63))
                0 65 v) as H.
  apply andb_true_iff in H as [H1 H2]; [lia| |lia].
  by vm_compute.
Qed.

Lemma in_range_Fval lo hi p :
  fvalid p = true -> in_range lo hi p = true ->
  fvalid (float_of_int lo) = true -> fvalid (float_of_int hi) = true ->
  is_finite (float_of_int lo) = true -> is_finite (float_of_int hi) = true ->
  is_finite p = true /\
  Fval (float_of_int lo) <= Fval p <= Fval (float_of_int hi).
Proof.
  intros Hv Hr Hvl Hvh Hfl Hfh. apply andb_true_iff in Hr as [H1 H2].
  assert (Hf : is_finite p = true)
    by (by apply (fle_finite (float_of_int lo) p (float_of_int hi))).
  split; [done|]. split; by apply fle_Fval.
Qed.

(** The cell coordinate of a coordinate within [lo, hi]: no undefined
    conversion, and at most (hi - lo) / size. *)

Lemma cell_coord_y cfg p :
  fvalid p = true -> in_range (-64) 64 p = true ->
  0 <= cell_coord cfg p (-64) 2 <= 64.
Proof.
  intros Hv Hr.
  destruct (in_range_Fval (-64) 64 p Hv Hr) as (Hf & Hlo & Hhi); try done.
  unfold cell_coord. rewrite fsub_fadd.
  set (c := fneg (float_of_int (-64))).
  destruct (fadd_spec p c Hv) as (Hrv & _ & Hpos & _ & Hb); try done.
  eval_in (Fval (float_of_int (-64))) Hlo.
  eval_in (Fval (float_of_int 64)) Hhi.
  eval_in (Fval c) Hpos.
  destruct (Hb (2 ^ 23)%positive (-16)) as [Hrf Hrb].
  { split; [done|lia]. }
  { eval_goal (Fval c). eval_goal (Z.pos (2 ^ 23) * 2 ^ (-16 + 149)). lia. }
  eval_in (Z.pos (2 ^ 23) * 2 ^ (-16 + 149)) Hrb.
  rewrite (uint_of_float_Fval _ _ Hrv Hrf).
  - split.
    + apply Z.div_pos; [|lia]. apply Z.div_pos; lia.
    + apply Z.div_le_upper_bound; [lia|]. apply Z.div_le_upper_bound; [lia|].
      eval_goal (2 ^ 149 * (2 * 64)). lia.
  - eval_goal (2 ^ 32 * 2 ^ 149). lia.
Qed.

(** Interval form of [fadd_spec]: a sum of two finite floats stays between
    two binary32 bounds that enclose the exact sum. *)
Lemma fadd_interval x y ml el mh eh :
  fvalid x = true -> fvalid y = true ->
  is_finite x = true -> is_finite y = true ->
  Fbound ml el -> Fbound mh eh ->
  - (Z.pos ml * 2 ^ (el + 149)) <= Fval x + Fval y <= Z.pos mh * 2 ^ (eh + 149) ->
  let r := fadd x y in
  fvalid r = true /\ is_finite r = true /\
  - (Z.pos ml * 2 ^ (el + 149)) <= Fval r <= Z.pos mh * 2 ^ (eh + 149) /\
  (0 <= Fval x + Fval y -> 0 <= Fval r).
Proof.
  intros Hvx Hvy Hfx Hfy Hl Hh Hs r. subst r.
  destruct (fadd_spec x y Hvx Hvy Hfx Hfy) as (Hv & _ & Hp & Hn & Hb).
  assert (0 < Z.pos ml * 2 ^ (el + 149)) by (destruct Hl; lia).
  assert (0 < Z.pos mh * 2 ^ (eh + 149)) by (destruct Hh; lia).
  split; [done|].
  destruct (Z.le_gt_cases 0 (Fval x + Fval y)) as [Hge|Hlt].
  - destruct (Hb mh eh Hh) as [Hf Hm]; [lia|]. specialize (Hp Hge).
    split; [done|]. split; [lia|done].
  - destruct (Hb ml el Hl) as [Hf Hm]; [lia|].
    assert (Fval (fadd x y) <= 0) by (apply Hn; lia).
    split; [done|]. split; lia.
Qed.

Lemma kAvoidDistance_eq : kAvoidDistance = S754_finite false 10905190 (-23).
Proof. by vm_compute. Qed.

Lemma cell_coord_top cfg p lo hi size :
  (lo = -128 /\ hi = 128 /\ size = 4) \/ (lo = -64 /\ hi = 64 /\ size = 2) ->
  fvalid p = true -> in_range lo hi p = true ->
  0 <= cell_coord cfg (fadd p kAvoidDistance) lo size <= 64.
Proof.
  intros Hc Hv Hr.
  assert (Hvl : fvalid (float_of_int lo) = true)
    by (destruct Hc as [(-> & _)|(-> & _)]; by vm_compute).
  assert (Hvh : fvalid (float_of_int hi) = true)
    by (destruct Hc as [(_ & -> & _)|(_ & -> & _)]; by vm_compute).
  assert (Hfl : is_finite (float_of_int lo) = true)
    by (destruct Hc as [(-> & _)|(-> & _)]; by vm_compute).
  assert (Hfh : is_finite (float_of_int hi) = true)
    by (destruct Hc as [(_ & -> & _)|(_ & -> & _)]; by vm_compute).
  destruct (in_range_Fval lo hi p Hv Hr) as (Hf & Hlo & Hhi); try done.
  unfold cell_coord. rewrite fsub_fadd. rewrite kAvoidDistance_eq.
  set (k := S754_finite false 10905190 (-23)).
  set (c := fneg (float_of_int lo)).
  assert (Hvc : fvalid c = true)
    by (subst c; destruct Hc as [(-> & _)|(-> & _)]; by vm_compute).
  assert (Hfc : is_finite c = true)
    by (subst c; destruct Hc as [(-> & _)|(-> & _)]; by vm_compute).
  assert (Hvk : fvalid k = true) by by vm_compute.
  assert (Hfk : is_finite k = true) by done.
  destruct Hc as [(-> & -> & ->)|(-> & -> & ->)].
  - eval_in (Fval (float_of_int (-128))) Hlo.
    eval_in (Fval (float_of_int 128)) Hhi.
    assert (Hs1 : - (Z.pos 1 * 2 ^ (7 + 149)) <= Fval p + Fval k
                  <= Z.pos 65 * 2 ^ (1 + 149)).
    { eval_goal (Fval k). eval_goal (Z.pos 1 * 2 ^ (7 + 149)).
      eval_goal (Z.pos 65 * 2 ^ (1 + 149)). lia. }
    destruct (fadd_interval p k 1 7 65 1 Hv Hvk Hf Hfk
                ltac:(split; lia) ltac:(split; lia) Hs1)
      as (Hv1 & Hf1 & Hr1 & _).
    eval_in (Z.pos 1 * 2 ^ (7 + 149)) Hr1.
    eval_in (Z.pos 65 * 2 ^ (1 + 149)) Hr1.
    assert (Hs2 : - (Z.pos 1 * 2 ^ (-149 + 149)) <= Fval (fadd p k) + Fval c
                  <= Z.pos 129 * 2 ^ (1 + 149)).
    { eval_goal (Fval c). eval_goal (Z.pos 1 * 2 ^ (-149 + 149)).
      eval_goal (Z.pos 129 * 2 ^ (1 + 149)). lia. }
    destruct (fadd_interval (fadd p k) c 1 (-149) 129 1 Hv1 Hvc Hf1 Hfc
                ltac:(split; lia) ltac:(split; lia) Hs2)
      as (Hv2 & Hf2 & Hr2 & Hp2).
    eval_in (Fval c) Hp2. eval_in (Z.pos 129 * 2 ^ (1 + 149)) Hr2.
    rewrite (uint_of_float_Fval _ _ Hv2 Hf2).
    + split.
      * apply Z.div_pos; [|lia]. apply Z.div_pos; lia.
      * assert (uint_lt : Fval (fadd (fadd p k) c) / 2 ^ 149 / 4 < 65);
          [|lia].
        apply Z.div_lt_upper_bound; [lia|].
        apply Z.div_lt_upper_bound; [lia|].
        eval_goal (2 ^ 149 * (4 * 65)). lia.
    + eval_goal (2 ^ 32 * 2 ^ 149). lia.
  - eval_in (Fval (float_of_int (-64))) Hlo.
    eval_in (Fval (float_of_int 64)) Hhi.
    assert (Hs1 : - (Z.pos 1 * 2 ^ (6 + 149)) <= Fval p + Fval k
                  <= Z.pos 131 * 2 ^ ((-1) + 149)).
    { eval_goal (Fval k). eval_goal (Z.pos 1 * 2 ^ (6 + 149)).
      eval_goal (Z.pos 131 * 2 ^ ((-1) + 149)). lia. }
    destruct (fadd_interval p k 1 6 131 (-1) Hv Hvk Hf Hfk
                ltac:(split; lia) ltac:(split; lia) Hs1)
      as (Hv1 & Hf1 & Hr1 & _).
    eval_in (Z.pos 1 * 2 ^ (6 + 149)) Hr1.
    eval_in (Z.pos 131 * 2 ^ ((-1) + 149)) Hr1.
    assert (Hs2 : - (Z.pos 1 * 2 ^ (-149 + 149)) <= Fval (fadd p k) + Fval c
                  <= Z.pos 259 * 2 ^ ((-1) + 149)).
    { eval_goal (Fval c). eval_goal (Z.pos 1 * 2 ^ (-149 + 149)).
      eval_goal (Z.pos 259 * 2 ^ ((-1) + 149)). lia. }
    destruct (fadd_interval (fadd p k) c 1 (-149) 259 (-1) Hv1 Hvc Hf1 Hfc
                ltac:(split; lia) ltac:(split; lia) Hs2)
      as (Hv2 & Hf2 & Hr2 & Hp2).
    eval_in (Fval c) Hp2. eval_in (Z.pos 259 * 2 ^ ((-1) + 149)) Hr2.
    rewrite (uint_of_float_Fval _ _ Hv2 Hf2).
    + split.
      * apply Z.div_pos; [|lia]. apply Z.div_pos; lia.
      * assert (uint_lt : Fval (fadd (fadd p k) c) / 2 ^ 149 / 2 < 65);
          [|lia].
        apply Z.div_lt_upper_bound; [lia|].
        apply Z.div_lt_upper_bound; [lia|].
        eval_goal (2 ^ 149 * (2 * 65)). lia.
    + eval_goal (2 ^ 32 * 2 ^ 149). lia.
Qed.

Lemma store_frame_refl P s : store_frame P s s.
Proof. by repeat split. Qed.

Lemma store_frame_trans (P Q : nat -> Prop) s1 s2 s3 :
  (forall j, P j -> Q j) ->
  store_frame P s1 s2 -> store_frame Q s2 s3 -> store_frame Q s1 s3.
Proof.
  intros HPQ (Hp & Hs & Hm & Hi & Hx & Hf) (Hp' & Hs' & Hm' & Hi' & Hx' & Hf').
  repeat split; try congruence.
  all: destruct (Hf j) as (? & ? & ?); [intros HP; by apply H, HPQ|];
       destruct (Hf' j) as (? & ? & ?); [done|]; congruence.
Qed.

Lemma store_frame_weaken (P Q : nat -> Prop) s s' :
  (forall j, P j -> Q j) -> store_frame P s s' -> store_frame Q s s'.
Proof.
  intros HPQ H. eapply store_frame_trans; [exact HPQ|exact H|].
  apply store_frame_refl.
Qed.

Lemma check_frame cfg dt g io hash ia s s' :
  check cfg dt g io hash ia s = Some s' -> store_frame (eq io) s s'.
Proof.
  unfold check. intros H.
  destruct (negb (ia <? Z.of_nat (kAvoidCount cfg))); [done|].
  destruct (m_Positions s !! io) as [myp|] eqn:Hmy; simpl in H; [|done].
  destruct (m_Positions s !! avoidEntityGrid g hash ia) as [avp|] eqn:Hav;
    simpl in H; [|done].
  destruct (too_close avp myp); [|simplify_eq; apply store_frame_refl].
  destruct (m_Moves s !! io) as [mv|] eqn:Hmv; simpl in H; [|done].
  destruct (m_Sprites s !! avoidEntityGrid g hash ia) as [asp|] eqn:Has;
    simpl in H; [|done].
  destruct (m_Sprites s !! io) as [msp|] eqn:Hms; simpl in H; [|done].
  simplify_eq. unfold store_frame. simpl. rewrite !length_insert.
  repeat split; try done.
  - rewrite list_fmap_insert. simpl. apply list_insert_id.
    by rewrite list_lookup_fmap, Hms.
  - by apply list_lookup_insert_ne.
  - by apply list_lookup_insert_ne.
  - by apply list_lookup_insert_ne.
Qed.

Lemma foldM_frame {A} (f : A -> Entities -> option Entities)
    (P : A -> nat -> Prop) (Q : nat -> Prop) l s s' :
  (forall a t t', a ∈ l -> f a t = Some t' -> store_frame (P a) t t') ->
  (forall a j, a ∈ l -> P a j -> Q j) ->
  foldM f l s = Some s' -> store_frame Q s s'.
Proof.
  intros Hf HPQ Hrun.
  apply (foldM_invariant (fun t => store_frame Q s t) f l s s'); [| |done].
  - intros a t t' Ha Ht Hstep.
    eapply store_frame_trans; [|exact Ht|].
    + done.
    + eapply store_frame_weaken; [|by eapply Hf]. intros j. by apply HPQ.
  - apply store_frame_refl.
Qed.

Lemma query_body_frame cfg dt g io s s' :
  query_body cfg dt g io s = Some s' -> store_frame (eq io) s s'.
Proof.
  unfold query_body. intros H.
  destruct (m_Positions s !! io) as [myp|]; simpl in H; [|done].
  destruct (negb _); [done|].
  eapply (foldM_frame _ (fun _ => eq io)); [| |exact H].
  - intros a t t' _. apply check_frame.
  - done.
Qed.

Lemma query_frame cfg dt g n s s' :
  foldM (query_body cfg dt g) (seq 0 n) s = Some s' ->
  store_frame (fun j => (j < n)%nat) s s'.
Proof.
  apply (foldM_frame _ eq).
  - intros a t t' _. apply query_body_frame.
  - intros a j Ha <-. apply elem_of_seq in Ha. lia.
Qed.

Lemma avoidance_frame cfg dt grid s s' grid' :
  UpdateSystem cfg dt grid s = Some (s', grid') ->
  store_frame (fun j => (j < kObjectCount cfg)%nat) s s'.
Proof.
  unfold UpdateSystem. intros H.
  destruct (build cfg (m_Positions s) grid) as [g|]; simpl in H; [|done].
  destruct (foldM _ _ s) as [t|] eqn:Hq; simpl in H; [|done].
  simplify_eq. by eapply query_frame.
Qed.

Lemma upd_eq {A} (a : Z -> A) k v : upd a k v k = v.
Proof. unfold upd. by rewrite Z.eqb_refl. Qed.

Lemma upd_ne {A} (a : Z -> A) k v k' : k' <> k -> upd a k v k' = a k'.
Proof. unfold upd. intros H. by apply Z.eqb_neq in H as ->. Qed.

Lemma wrap32_range n : 0 <= wrap32 n < 2 ^ 32.
Proof. unfold wrap32. apply Z.mod_pos_bound. lia. Qed.

Lemma wrap32_le n : 0 <= n -> wrap32 n <= n.
Proof. unfold wrap32. intros. apply Z.mod_le; lia. Qed.

Lemma insert_Some cfg ia h g g' :
  insert cfg ia h g = Some g' ->
  h < kGridCells /\ activeAvoidCount g h < Z.of_nat (kAvoidCount cfg) /\
  g' = mkGrid (upd (avoidEntityGrid g) h
                 (upd (avoidEntityGrid g h) (activeAvoidCount g h) ia))
              (upd (activeAvoidCount g) h (wrap32 (activeAvoidCount g h + 1))).
Proof.
  unfold insert. destruct (h <? kGridCells) eqn:Hh; [|done]. simpl.
  destruct (_ <? Z.of_nat _) eqn:Hn; [|done]. simpl.
  intros [= <-]. apply Z.ltb_lt in Hh, Hn. done.
Qed.

Lemma insert_eq cfg ia h g :
  h < kGridCells -> activeAvoidCount g h < Z.of_nat (kAvoidCount cfg) ->
  insert cfg ia h g =
    Some (mkGrid (upd (avoidEntityGrid g) h
                    (upd (avoidEntityGrid g h) (activeAvoidCount g h) ia))
                 (upd (activeAvoidCount g) h
                    (wrap32 (activeAvoidCount g h + 1)))).
Proof.
  intros Hh Hn. unfold insert.
  apply Z.ltb_lt in Hh as ->. apply Z.ltb_lt in Hn as ->. done.
Qed.

Lemma insert_bucket_ok cfg ia h g g' :
  (kObjectCount cfg <= ia < kObjectCount cfg + kAvoidCount cfg)%nat ->
  bucket_ok cfg g -> insert cfg ia h g = Some g' -> bucket_ok cfg g'.
Proof.
  intros Hia Hg Hins. apply insert_Some in Hins as (Hh & Hn & ->).
  intros h'. simpl. destruct (Hg h') as [H0 Hk].
  destruct (decide (h' = h)) as [->|Hne].
  - rewrite !upd_eq. pose proof (wrap32_range (activeAvoidCount g h + 1)).
    pose proof (wrap32_le (activeAvoidCount g h + 1) ltac:(lia)).
    split; [lia|]. intros k Hk'.
    destruct (decide (k = activeAvoidCount g h)) as [->|Hnk].
    + by rewrite upd_eq.
    + rewrite upd_ne by done. apply Hk. lia.
  - rewrite !upd_ne by done. done.
Qed.

Lemma build_body_bucket_ok cfg positions ia g g' :
  (kObjectCount cfg <= ia < kObjectCount cfg + kAvoidCount cfg)%nat ->
  bucket_ok cfg g -> build_body cfg positions ia g = Some g' ->
  bucket_ok cfg g'.
Proof.
  intros Hia Hg. unfold build_body.
  destruct (positions !! ia) as [p|]; simpl; [|done].
  apply foldM_invariant; [|done].
  intros h t t' _ Ht. by apply insert_bucket_ok.
Qed.

Lemma build_bucket_ok cfg positions grid g :
  build cfg positions grid = Some g -> bucket_ok cfg g.
Proof.
  unfold build. apply foldM_invariant.
  - intros ia t t' Hia Ht. apply build_body_bucket_ok; [|done].
    apply elem_of_seq in Hia. lia.
  - intros h. simpl. split; [done|lia].
Qed.

(** *** Independence from the stale contents of the static grid *)

Lemma foldM_rel {A S : Type} (R : S -> S -> Prop) (f : A -> S -> option S) l :
  (forall a t1 t2, R t1 t2 -> option_Forall2 R (f a t1) (f a t2)) ->
  forall s1 s2, R s1 s2 -> option_Forall2 R (foldM f l s1) (foldM f l s2).
Proof.
  intros Hf. induction l as [|a l IH]; intros s1 s2 HR; simpl.
  - by constructor.
  - destruct (Hf a s1 s2 HR) as [t1 t2 Ht|]; simpl; [by apply IH|constructor].
Qed.

Lemma foldM_ext_in {A S : Type} (f g : A -> S -> option S) l s :
  (forall a t, a ∈ l -> f a t = g a t) -> foldM f l s = foldM g l s.
Proof.
  revert s. induction l as [|a l IH]; intros s H; simpl; [done|].
  rewrite (H a s) by left. destruct (g a s); simpl; [|done].
  apply IH. intros b t Hb. apply H. by right.
Qed.

Lemma insert_agree cfg ia h g1 g2 :
  grid_agree g1 g2 ->
  option_Forall2 grid_agree (insert cfg ia h g1) (insert cfg ia h g2).
Proof.
  intros Hg. unfold insert. destruct (negb _); [constructor|].
  destruct (Hg h) as (Hc & H0 & Hs). rewrite <- Hc.
  destruct (negb _); constructor.
  intros h'. simpl. destruct (Hg h') as (Hc' & H0' & Hs').
  destruct (decide (h' = h)) as [->|Hne].
  - rewrite !upd_eq.
    pose proof (wrap32_range (activeAvoidCount g1 h + 1)).
    pose proof (wrap32_le (activeAvoidCount g1 h + 1) ltac:(lia)).
    split; [done|]. split; [lia|]. intros k Hk.
    destruct (decide (k = activeAvoidCount g1 h)) as [->|Hnk].
    + by rewrite !upd_eq.
    + rewrite !upd_ne by done. apply Hs. lia.
  - rewrite !upd_ne by done. done.
Qed.

Lemma build_agree cfg positions grid1 grid2 :
  option_Forall2 grid_agree (build cfg positions grid1)
    (build cfg positions grid2).
Proof.
  unfold build. apply foldM_rel.
  - intros ia t1 t2 Ht. unfold build_body.
    destruct (positions !! ia) as [p|]; simpl; [|constructor].
    apply foldM_rel; [|done]. intros h u1 u2. apply insert_agree.
  - intros h. simpl. split; [done|]. split; [done|lia].
Qed.

Lemma query_body_agree cfg dt g1 g2 io s :
  grid_agree g1 g2 ->
  query_body cfg dt g1 io s = query_body cfg dt g2 io s.
Proof.
  intros Hg. unfold query_body.
  destruct (m_Positions s !! io) as [p|]; simpl; [|done].
  destruct (negb _); [done|].
  destruct (Hg (query_hash cfg p)) as (Hc & H0 & Hs). rewrite <- Hc.
  apply foldM_ext_in. intros k t Hk. apply elem_of_seqZ in Hk.
  unfold check. by rewrite Hs by lia.
Qed.

(** The store the Avoidance System returns does not depend on what the
    static grid held before the call. *)
Lemma avoidance_grid_independent cfg dt grid1 grid2 s :
  fst <$> UpdateSystem cfg dt grid1 s = fst <$> UpdateSystem cfg dt grid2 s.
Proof.
  unfold UpdateSystem.
  destruct (build_agree cfg (m_Positions s) grid1 grid2) as [g1 g2 Hg|];
    simpl; [|done].
  rewrite (foldM_ext_in (query_body cfg dt g1) (query_body cfg dt g2)).
  - by destruct (foldM _ _ s).
  - intros io t _. by apply query_body_agree.
Qed.

Lemma cell_hash_eq x y :
  0 <= x <= 63 -> 0 <= y <= 63 -> cell_hash x y = 64 * x + y.
Proof.
  intros Hx Hy. apply Z.eqb_eq.
  pose proof (forallb_seqZ
    (fun x => forallb (fun y => cell_hash x y =? 64 * x + y) (seqZ 0 64))
    0 64 x) as H.
  apply (forallb_seqZ (fun y => cell_hash x y =? 64 * x + y) 0 64 y); [|lia].
  apply H; [|lia]. by vm_compute.
Qed.

Lemma wrap_cell_nonneg v : 0 <= wrap_cell v.
Proof. apply wrap32_range. Qed.

Lemma in_bounds_split p :
  in_bounds p = true ->
  in_range (-128) 128 (pos_x p) = true /\ in_range (-64) 64 (pos_y p) = true.
Proof. unfold in_bounds. intros H. by apply andb_true_iff in H. Qed.

Lemma position_valid_split p :
  position_valid p = true -> fvalid (pos_x p) = true /\ fvalid (pos_y p) = true.
Proof. unfold position_valid. intros H. by apply andb_true_iff in H. Qed.

Lemma topRight_le cfg p :
  position_valid p = true -> in_bounds p = true ->
  0 <= fst (topRight cfg p) <= 63 /\ 0 <= snd (topRight cfg p) <= 63.
Proof.
  intros Hv Hb. apply position_valid_split in Hv as [Hvx Hvy].
  apply in_bounds_split in Hb as [Hbx Hby].
  unfold topRight. simpl fst. simpl snd. split; apply wrap_cell_le.
  - by apply (cell_coord_top cfg _ (-128) 128 4); [left|..].
  - by apply (cell_coord_top cfg _ (-64) 64 2); [right|..].
Qed.

(** The footprint of a hazard within the world bounds: every hash is a
    valid cell index and no cell occurs twice. *)
Lemma footprint_ok cfg p :
  position_valid p = true -> in_bounds p = true ->
  NoDup (footprint cfg p) /\
  forall h, h ∈ footprint cfg p -> 0 <= h < kGridCells.
Proof.
  intros Hv Hb. destruct (topRight_le cfg p Hv Hb) as [Hx Hy].
  unfold footprint. cbv zeta.
  set (tr := topRight cfg p) in *. set (bl := bottomLeft cfg p).
  assert (Hbx : 0 <= fst bl) by apply wrap_cell_nonneg.
  assert (Hby : 0 <= snd bl) by apply wrap_cell_nonneg.
  assert (Hel : forall h,
    h ∈ (range_incl (snd bl) (snd tr) ≫= fun y =>
         range_incl (fst bl) (fst tr) ≫= fun x => [cell_hash x y]) ->
    exists x y, 0 <= x <= 63 /\ 0 <= y <= 63 /\ h = 64 * x + y).
  { intros h Hh. apply list_elem_of_bind in Hh as (y & Hh & Hyr).
    apply list_elem_of_bind in Hh as (x & Hh & Hxr).
    apply list_elem_of_singleton in Hh. unfold range_incl in *.
    apply elem_of_seqZ in Hyr, Hxr. exists x, y.
    split; [lia|]. split; [lia|]. subst h. apply cell_hash_eq; lia. }
  split.
  - apply NoDup_bind.
    + intros y1 y2 h Hy1 Hy2 H1 H2. unfold range_incl in *.
      apply elem_of_seqZ in Hy1, Hy2.
      apply list_elem_of_bind in H1 as (x1 & H1 & Hx1).
      apply list_elem_of_bind in H2 as (x2 & H2 & Hx2).
      apply list_elem_of_singleton in H1, H2.
      apply elem_of_seqZ in Hx1, Hx2.
      rewrite cell_hash_eq in H1, H2 by lia. lia.
    + intros y Hyr. unfold range_incl in *. apply elem_of_seqZ in Hyr.
      apply NoDup_bind.
      * intros x1 x2 h Hx1 Hx2 H1 H2. apply elem_of_seqZ in Hx1, Hx2.
        apply list_elem_of_singleton in H1, H2.
        rewrite cell_hash_eq in H1, H2 by lia. lia.
      * intros x _. apply NoDup_singleton.
      * apply NoDup_seqZ.
    + apply NoDup_seqZ.
  - intros h Hh. destruct (Hel h Hh) as (x & y & Hx' & Hy' & ->).
    change kGridCells with 4096. lia.
Qed.

Lemma query_hash_lt cfg p :
  position_valid p = true -> in_bounds p = true ->
  0 <= query_hash cfg p < kGridCells.
Proof.
  intros Hv Hb. apply position_valid_split in Hv as [_ Hvy].
  apply in_bounds_split in Hb as [_ Hby].
  pose proof (cell_coord_y cfg (pos_y p) Hvy Hby) as Hy.
  unfold query_hash. cbv zeta.
  change (yMin s_WorldBounds) with (-64). change (snd kGridCellSize) with 2.
  set (y := cell_coord cfg (pos_y p) (-64) 2) in *.
  pose proof (forallb_seqZ
    (fun y => (0 <=? cell_hash (wrap_cell y) y) &&
              (cell_hash (wrap_cell y) y <? kGridCells)) 0 65 y) as H.
  apply andb_true_iff in H as [H1 H2]; [lia|by vm_compute|lia].
Qed.

(** One hazard appended to the buckets of a duplicate-free footprint: every
    bucket of the footprint grows by one, the others are left alone. *)
Lemma foldM_insert cfg ia F :
  Z.of_nat (kAvoidCount cfg) < 2 ^ 32 ->
  NoDup F ->
  forall g,
  (forall h, h ∈ F ->
     0 <= h < kGridCells /\
     0 <= activeAvoidCount g h < Z.of_nat (kAvoidCount cfg)) ->
  exists g',
    foldM (insert cfg ia) F g = Some g' /\
    forall h, activeAvoidCount g' h =
              activeAvoidCount g h + (if decide (h ∈ F) then 1 else 0).
Proof.
  intros HH. induction 1 as [|h F Hh HF IH]; intros g Hg; simpl.
  - exists g. split; [done|]. intros h.
    destruct (decide (h ∈ [])) as [Hin|]; [by apply not_elem_of_nil in Hin|lia].
  - destruct (Hg h) as [Hh1 Hh2]; [by left|].
    rewrite insert_eq by lia. simpl.
    set (g1 := mkGrid _ _).
    assert (Hc1 : forall h', activeAvoidCount g1 h' =
              activeAvoidCount g h' + (if decide (h' = h) then 1 else 0)).
    { intros h'. subst g1. simpl. destruct (decide (h' = h)) as [->|Hne].
      - rewrite upd_eq. unfold wrap32. rewrite Z.mod_small; lia.
      - rewrite upd_ne by done. lia. }
    destruct (IH g1) as (g' & Hrun & Hc).
    { intros h' Hh'. rewrite Hc1. rewrite decide_False by (by intros ->).
      rewrite Z.add_0_r. apply Hg. by right. }
    exists g'. split; [done|]. intros h'. rewrite Hc, Hc1.
    destruct (decide (h' = h)) as [->|Hne].
    + rewrite decide_False by done. rewrite decide_True by left. lia.
    + destruct (decide (h' ∈ F)).
      * rewrite decide_True by (by right). lia.
      * rewrite decide_False; [lia|]. by intros [?|?]%elem_of_cons.
Qed.

Lemma build_body_eq cfg positions ia g p :
  positions !! ia = Some p ->
  build_body cfg positions ia g = foldM (insert cfg ia) (footprint cfg p) g.
Proof. unfold build_body. by intros ->. Qed.

Lemma build_loop cfg positions :
  config_ok cfg ->
  forall l n g,
  (forall ia, ia ∈ l -> exists p,
     positions !! ia = Some p /\
     position_valid p = true /\ in_bounds p = true) ->
  (forall h, 0 <= activeAvoidCount g h <= Z.of_nat n) ->
  (n + length l <= kAvoidCount cfg)%nat ->
  exists g',
    foldM (build_body cfg positions) l g = Some g' /\
    forall h, 0 <= activeAvoidCount g' h <= Z.of_nat (n + length l).
Proof.
  intros Hcfg. unfold config_ok in Hcfg.
  induction l as [|ia l IH]; intros n g Hpos Hc Hn; simpl in *.
  - exists g. split; [done|]. intros h. rewrite Nat.add_0_r. apply Hc.
  - destruct (Hpos ia) as (p & Hp & Hv & Hb); [by left|].
    destruct (footprint_ok cfg p Hv Hb) as [Hnd Hrange].
    rewrite (build_body_eq cfg positions ia g p Hp).
    destruct (foldM_insert cfg ia (footprint cfg p)) with (g := g)
      as (g1 & Hrun & Hc1); [lia|done| |].
    { intros h Hh. split; [by apply Hrange|]. specialize (Hc h). lia. }
    rewrite Hrun. simpl.
    destruct (IH (S n) g1) as (g' & Hrun' & Hc').
    + intros ia' Hia'. apply Hpos. by right.
    + intros h. rewrite Hc1. specialize (Hc h). destruct (decide _); lia.
    + lia.
    + exists g'. split; [done|]. intros h. specialize (Hc' h). lia.
Qed.

(** The rebuild from hazards that are within the world bounds never leaves
    the arrays, and no bucket gets more entries than there are hazards. *)
Lemma build_total cfg positions grid :
  config_ok cfg ->
  (forall ia, (kObjectCount cfg <= ia < kObjectCount cfg + kAvoidCount cfg)%nat ->
     exists p, positions !! ia = Some p /\
               position_valid p = true /\ in_bounds p = true) ->
  exists g,
    build cfg positions grid = Some g /\
    forall h, 0 <= activeAvoidCount g h <= Z.of_nat (kAvoidCount cfg).
Proof.
  intros Hcfg Hpos. unfold build.
  destruct (build_loop cfg positions Hcfg
              (seq (kObjectCount cfg) (kAvoidCount cfg)) 0
              (mkGrid grid (fun _ => 0))) as (g & Hrun & Hc).
  - intros ia Hia. apply Hpos. apply elem_of_seq in Hia. lia.
  - intros h. simpl. lia.
  - rewrite length_seq. lia.
  - exists g. split; [done|]. intros h. specialize (Hc h).
    rewrite length_seq in Hc. simpl in Hc. lia.
Qed.

Lemma check_total cfg dt g io hash ia s :
  store_sized cfg s -> bucket_ok cfg g ->
  (io < kObjectCount cfg)%nat ->
  0 <= ia < activeAvoidCount g hash ->
  activeAvoidCount g hash <= Z.of_nat (kAvoidCount cfg) ->
  is_Some (check cfg dt g io hash ia s).
Proof.
  intros (Hlp & Hls & Hlm) Hg Hio Hia Hc. unfold check.
  destruct (ia <? Z.of_nat (kAvoidCount cfg)) eqn:Hlt;
    [|apply Z.ltb_ge in Hlt; lia]. simpl.
  destruct (Hg hash) as [_ Hav]. specialize (Hav ia Hia).
  set (avoid := avoidEntityGrid g hash ia) in *.
  destruct (lookup_lt_is_Some_2 (m_Positions s) io) as [myp ->]; [lia|].
  destruct (lookup_lt_is_Some_2 (m_Positions s) avoid) as [avp ->]; [lia|].
  simpl. destruct (too_close avp myp); [|done].
  destruct (lookup_lt_is_Some_2 (m_Moves s) io) as [mv ->]; [lia|].
  destruct (lookup_lt_is_Some_2 (m_Sprites s) avoid) as [asp ->]; [lia|].
  destruct (lookup_lt_is_Some_2 (m_Sprites s) io) as [msp ->]; [lia|].
  done.
Qed.

Lemma store_frame_sized cfg P s s' :
  store_frame P s s' -> store_sized cfg s -> store_sized cfg s'.
Proof.
  intros (Hp & Hs & Hm & _) (Hlp & Hls & Hlm). unfold store_sized.
  by rewrite Hp, Hs, Hm.
Qed.

Lemma query_body_total cfg dt g io s p :
  store_sized cfg s -> bucket_ok cfg g ->
  (forall h, activeAvoidCount g h <= Z.of_nat (kAvoidCount cfg)) ->
  (io < kObjectCount cfg)%nat ->
  m_Positions s !! io = Some p ->
  query_hash cfg p < kGridCells ->
  is_Some (query_body cfg dt g io s).
Proof.
  intros Hs Hg Hc Hio Hp Hh. unfold query_body. rewrite Hp. simpl.
  apply Z.ltb_lt in Hh as ->. simpl.
  destruct (foldM_total (store_sized cfg)
              (check cfg dt g io (query_hash cfg p))
              (seqZ 0 (activeAvoidCount g (query_hash cfg p))) s)
    as (s' & -> & _); [|done|done].
  intros ia t Hia Ht. apply elem_of_seqZ in Hia.
  destruct (check_total cfg dt g io (query_hash cfg p) ia t) as [t' Ht'];
    try done; try lia.
  exists t'. split; [done|].
  eapply store_frame_sized; [|done]. by eapply check_frame.
Qed.

Lemma query_total cfg dt g s :
  store_sized cfg s -> bucket_ok cfg g ->
  (forall h, activeAvoidCount g h <= Z.of_nat (kAvoidCount cfg)) ->
  (forall io p, (io < kObjectCount cfg)%nat ->
     m_Positions s !! io = Some p -> query_hash cfg p < kGridCells) ->
  is_Some (foldM (query_body cfg dt g) (seq 0 (kObjectCount cfg)) s).
Proof.
  intros Hs Hg Hc Hh.
  assert (Hgen : forall n a t,
    (a + n <= kObjectCount cfg)%nat -> store_sized cfg t ->
    (forall j, (a <= j)%nat -> m_Positions t !! j = m_Positions s !! j) ->
    is_Some (foldM (query_body cfg dt g) (seq a n) t)).
  { induction n as [|n IH]; intros a t Han Ht Hsame; simpl; [done|].
    destruct (Hs) as (Hlp & _).
    destruct (lookup_lt_is_Some_2 (m_Positions s) a) as [p Hp]; [lia|].
    destruct (query_body_total cfg dt g a t p) as [t' Ht']; try done.
    - lia.
    - by rewrite Hsame.
    - apply (Hh a); [lia|done].
    - rewrite Ht'. simpl. apply query_body_frame in Ht' as Hfr.
      apply IH; [lia|by eapply store_frame_sized|].
      intros j Hj. destruct Hfr as (_ & _ & _ & _ & _ & Hfr).
      destruct (Hfr j) as (-> & _); [lia|]. apply Hsame. lia. }
  apply Hgen; [lia|done|done].
Qed.

End GridCells.

(** * Motion System *)

Section Motion.
Import MoveSystem.

(** *** Motion System *)


Lemma step_axis_in_range lo hi dt p v :
  world_axis lo hi ->
  is_nan (fadd p (fmul v dt)) = false ->
  in_range lo hi (fst (step_axis lo hi dt p v)) = true.
Proof.
  intros Hax Hn. unfold step_axis, reflect, in_range. cbv zeta.
  set (p1 := fadd p (fmul v dt)) in *. simpl fst.
  assert (Hc : is_nan (float_of_int lo) = false /\
               is_nan (float_of_int hi) = false /\
               flt (float_of_int hi) (float_of_int lo) = false /\
               fle (float_of_int lo) (float_of_int lo) = true /\
               fle (float_of_int lo) (float_of_int hi) = true /\
               fle (float_of_int hi) (float_of_int hi) = true)
    by (destruct Hax as [[-> ->]|[-> ->]]; by vm_compute).
  destruct Hc as (Hnl & Hnh & Hhl & Hll & Hlh & Hhh).
  destruct (flt p1 (float_of_int lo)) eqn:H1; simpl.
  - rewrite Hhl. simpl. by rewrite Hll, Hlh.
  - destruct (flt (float_of_int hi) p1) eqn:H2; simpl.
    + by rewrite Hlh, Hhh.
    + rewrite (flt_false_fle p1 (float_of_int lo)) by done.
      by rewrite (flt_false_fle (float_of_int hi) p1).
Qed.

Lemma step_axis_velocity lo hi dt p v :
  let v' := snd (step_axis lo hi dt p v) in
  v' = v \/ v' = fneg v \/ v' = fneg (fneg v).
Proof.
  unfold step_axis, reflect. cbv zeta.
  destruct (flt _ _); simpl; destruct (flt _ _); simpl; auto.
Qed.

Lemma is_finite_fneg v : is_finite (fneg v) = is_finite v.
Proof. by destruct v. Qed.

Lemma in_range_finite lo hi p :
  world_axis lo hi -> in_range lo hi p = true -> is_finite p = true.
Proof.
  intros Hax Hr. apply andb_true_iff in Hr as [H1 H2].
  apply (fle_finite (float_of_int lo) p (float_of_int hi)); try done;
    destruct Hax as [[-> ->]|[-> ->]]; by vm_compute.
Qed.

(** One step of an entity whose position, velocity and time step are
    finite: the new position is within the bounds and the entity is still
    finite. *)
Lemma step_entity_finite dt pos move :
  is_finite dt = true ->
  position_finite pos = true -> move_finite move = true ->
  let r := step_entity dt pos move in
  in_bounds (fst r) = true /\
  position_finite (fst r) = true /\ move_finite (snd r) = true.
Proof.
  intros Hdt Hp Hm r. subst r.
  apply andb_true_iff in Hp as [Hpx Hpy].
  apply andb_true_iff in Hm as [Hvx Hvy].
  unfold step_entity. cbv zeta. cbn [fst snd].
  set (X := step_axis (xMin s_WorldBounds) (xMax s_WorldBounds) dt
              (pos_x pos) (velx move)).
  set (Y := step_axis (yMin s_WorldBounds) (yMax s_WorldBounds) dt
              (pos_y pos) (vely move)).
  assert (HX : in_range (xMin s_WorldBounds) (xMax s_WorldBounds) (fst X) = true).
  { apply step_axis_in_range; [by left|].
    apply fadd_not_nan; [done|]. by apply fmul_not_nan. }
  assert (HY : in_range (yMin s_WorldBounds) (yMax s_WorldBounds) (fst Y) = true).
  { apply step_axis_in_range; [by right|].
    apply fadd_not_nan; [done|]. by apply fmul_not_nan. }
  split; [|split].
  - unfold in_bounds. cbn [pos_x pos_y]. by rewrite HX, HY.
  - unfold position_finite. cbn [pos_x pos_y].
    rewrite (in_range_finite _ _ _ (or_introl (conj eq_refl eq_refl)) HX).
    by rewrite (in_range_finite _ _ _ (or_intror (conj eq_refl eq_refl)) HY).
  - unfold move_finite. cbn [velx vely].
    pose proof (step_axis_velocity (xMin s_WorldBounds) (xMax s_WorldBounds)
                  dt (pos_x pos) (velx move)) as HvX.
    pose proof (step_axis_velocity (yMin s_WorldBounds) (yMax s_WorldBounds)
                  dt (pos_y pos) (vely move)) as HvY.
    cbv zeta in HvX, HvY. fold X in HvX. fold Y in HvY.
    assert (is_finite (snd X) = true)
      by (destruct HvX as [Hq|[Hq|Hq]]; rewrite Hq, ?is_finite_fneg; done).
    assert (is_finite (snd Y) = true)
      by (destruct HvY as [Hq|[Hq|Hq]]; rewrite Hq, ?is_finite_fneg; done).
    by apply andb_true_iff.
Qed.


Lemma move_update_spec cfg dt s :
  store_sized cfg s ->
  exists s',
    UpdateSystem cfg dt s = Some s' /\
    store_sized cfg s' /\
    m_Sprites s' = m_Sprites s /\ m_IdGenerator s' = m_IdGenerator s /\
    forall i, (i < kObjectCount cfg + kAvoidCount cfg)%nat ->
      exists p m,
        m_Positions s !! i = Some p /\ m_Moves s !! i = Some m /\
        m_Positions s' !! i = Some (step_entity dt p m).1 /\
        m_Moves s' !! i = Some (step_entity dt p m).2.
Proof.
  intros (Hlp & Hls & Hlm). unfold UpdateSystem.
  destruct (move_range_total dt (kObjectCount cfg + kAvoidCount cfg) 0 s)
    as [s' Hrun]; [lia|lia|].
  exists s'. split; [done|].
  apply move_range_spec in Hrun as (Hspr & Hid & Hp & Hm & Hi).
  split; [|split; [done|split; [done|]]].
  - unfold store_sized. by rewrite Hp, Hm, Hspr.
  - intros i Hi'. destruct (Hi i) as [Hin _]. apply Hin. lia.
Qed.

End Motion.

(** * Properties of the specification *)

Lemma scene_sized vel : store_sized scene_config (scene vel).
Proof. by repeat split. Qed.

(** One Motion System call, seen from one entity: the other entities,
    finite or not, do not matter. *)
Lemma move_call_entity cfg dt s i p m :
  store_sized cfg s -> is_finite dt = true ->
  m_Positions s !! i = Some p -> m_Moves s !! i = Some m ->
  position_finite p = true -> move_finite m = true ->
  exists s' p' m',
    MoveSystem.UpdateSystem cfg dt s = Some s' /\ store_sized cfg s' /\
    m_Positions s' !! i = Some p' /\ m_Moves s' !! i = Some m' /\
    in_bounds p' = true /\
    position_finite p' = true /\ move_finite m' = true.
Proof.
  intros Hs Hdt Hp Hm Hfp Hfm.
  destruct (move_update_spec cfg dt s Hs) as (s' & Hrun & Hs' & _ & _ & Hi).
  assert (Hlt : (i < kObjectCount cfg + kAvoidCount cfg)%nat).
  { apply lookup_lt_Some in Hp. destruct Hs as (Hl1 & _). lia. }
  destruct (Hi i Hlt) as (p0 & m0 & Hp0 & Hm0 & Hp' & Hm').
  rewrite Hp in Hp0. rewrite Hm in Hm0. simplify_eq.
  destruct (step_entity_finite dt p0 m0 Hdt Hfp Hfm) as (Hb & Hfp' & Hfm').
  by exists s', (MoveSystem.step_entity dt p0 m0).1,
            (MoveSystem.step_entity dt p0 m0).2.
Qed.

(** C2 (amended).  Bounds invariant of the Motion System, entity by
    entity.  For an entity whose position and velocity are finite, after
    any non-empty sequence of Motion System calls whose [deltaTime] values
    are all finite, the calls complete and the position of the entity
    satisfies xMin <= x <= xMax and yMin <= y <= yMax, whatever the other
    entities of the store hold. *)
Theorem motion_bounds_invariant cfg dts s i p m :
  store_sized cfg s ->
  m_Positions s !! i = Some p -> m_Moves s !! i = Some m ->
  position_finite p = true -> move_finite m = true ->
  Forall (fun dt => is_finite dt = true) dts -> dts <> [] ->
  exists s' p',
    move_calls cfg dts s = Some s' /\
    m_Positions s' !! i = Some p' /\ in_bounds p' = true.
Proof.
  intros Hs Hp Hm Hfp Hfm Hd. revert s p m Hs Hp Hm Hfp Hfm.
  induction Hd as [|dt dts Hdt Hd IH]; intros s p m Hs Hp Hm Hfp Hfm Hne;
    [done|].
  destruct (move_call_entity cfg dt s i p m Hs Hdt Hp Hm Hfp Hfm)
    as (s1 & p1 & m1 & Hrun & Hs1 & Hp1 & Hm1 & Hb1 & Hfp1 & Hfm1).
  unfold move_calls. simpl. rewrite Hrun. simpl.
  destruct dts as [|dt' dts'].
  - by exists s1, p1.
  - by apply (IH s1 p1 m1).
Qed.

(** The entity 0 of a store whose other entity has a NaN velocity. *)
Lemma motion_bounds_invariant_witness :
  exists s' p',
    move_calls scene_config [fpow2 (-6); fpow2 (-6)]
      (mkEntities
         [mkPosition (float_of_int 1) fzero; mkPosition fzero fzero]
         [mkSprite 255 255 255 7; mkSprite 200 100 50 255]
         [mkMove (fpow2 (-1)) (fpow2 (-1)); mkMove S754_nan fzero]
         2) = Some s' /\
    m_Positions s' !! 0%nat = Some p' /\ in_bounds p' = true.
Proof.
  apply (motion_bounds_invariant scene_config _ _ 0%nat
           (mkPosition (float_of_int 1) fzero)
           (mkMove (fpow2 (-1)) (fpow2 (-1)))).
  - by repeat split.
  - reflexivity.
  - reflexivity.
  - reflexivity.
  - reflexivity.
  - by repeat constructor.
  - discriminate.
Defined.

Lemma motion_bounds_nan_counterexample :
  exists s' p,
    move_calls scene_config [S754_nan]
      (scene (mkMove (fpow2 (-1)) (fpow2 (-1)))) = Some s' /\
    m_Positions s' !! 0%nat = Some p /\ in_bounds p = false.
Proof.
  eexists _, _. split; [by vm_compute|]. split; reflexivity.
Qed.

(** *** Reflection *)

Lemma flt_above_not_below lo hi p :
  world_axis lo hi ->
  flt (float_of_int hi) p = true -> flt p (float_of_int lo) = false.
Proof.
  intros [[-> ->]|[-> ->]]; destruct p as [s|s| |s m e]; try done;
    destruct s; done.
Qed.

Lemma flt_pos_neg v : flt fzero v = true -> flt (fneg v) fzero = true.
Proof. destruct v as [s|s| |s m e]; try done; by destruct s. Qed.

(** C6 (amended).  Reflection at [xMax].  An entity whose position is
    exactly x = xMax, with velx > 0, stepped by one Motion System call with
    deltaTime > 0, ends the call with velx < 0 and x = xMax provided the
    binary32 sum x + velx * deltaTime is greater than xMax. *)
Theorem reflection_at_xMax cfg dt s s' i pos move :
  MoveSystem.UpdateSystem cfg dt s = Some s' ->
  (i < kObjectCount cfg + kAvoidCount cfg)%nat ->
  m_Positions s !! i = Some pos -> m_Moves s !! i = Some move ->
  pos_x pos = float_of_int (xMax s_WorldBounds) ->
  flt fzero (velx move) = true -> flt fzero dt = true ->
  flt (float_of_int (xMax s_WorldBounds))
      (fadd (pos_x pos) (fmul (velx move) dt)) = true ->
  exists pos' move',
    m_Positions s' !! i = Some pos' /\ m_Moves s' !! i = Some move' /\
    flt (velx move') fzero = true /\
    pos_x pos' = float_of_int (xMax s_WorldBounds).
Proof.
  intros Hrun Hi Hp Hm Hx Hv Hdt Hsum.
  apply move_range_spec in Hrun as (_ & _ & _ & _ & Hspec).
  destruct (Hspec i) as [Hin _].
  destruct Hin as (p & m & Hp' & Hm' & Hp'' & Hm''); [lia|].
  rewrite Hp in Hp'. rewrite Hm in Hm'. simplify_eq.
  eexists _, _. split; [done|]. split; [done|].
  unfold MoveSystem.step_entity. cbv zeta. cbn [fst snd velx pos_x].
  unfold MoveSystem.step_axis, MoveSystem.reflect. cbv zeta. cbn [fst snd].
  rewrite (flt_above_not_below _ _ _ (or_introl (conj eq_refl eq_refl)) Hsum).
  cbn [fst snd]. rewrite Hsum. cbn [fst snd].
  split; [by apply flt_pos_neg|done].
Qed.


Lemma reflection_at_xMax_witness :
  exists s',
    MoveSystem.UpdateSystem scene_config (fpow2 (-6))
      (scene_at_xMax (fpow2 (-1))) = Some s' /\
    exists pos' move',
      m_Positions s' !! 0%nat = Some pos' /\ m_Moves s' !! 0%nat = Some move' /\
      flt (velx move') fzero = true /\
      pos_x pos' = float_of_int (xMax s_WorldBounds).
Proof.
  eexists. split; [by vm_compute|].
  eapply (reflection_at_xMax scene_config (fpow2 (-6))
            (scene_at_xMax (fpow2 (-1))) _ 0%nat).
  - by vm_compute.
  - simpl. lia.
  - reflexivity.
  - reflexivity.
  - by vm_compute.
  - by vm_compute.
  - by vm_compute.
  - by vm_compute.
Defined.

(** At 64 frames per second an entity resting on [xMax] whose horizontal
    speed is 2^-12 stays where it is: the step 2^-18 is absorbed by the
    rounding of 128 + 2^-18, no face is crossed and the velocity keeps its
    sign. *)
Lemma reflection_at_xMax_counterexample :
  flt fzero (fpow2 (-12)) = true /\ flt fzero (fpow2 (-6)) = true /\
  exists s' move',
    MoveSystem.UpdateSystem scene_config (fpow2 (-6))
      (scene_at_xMax (fpow2 (-12))) = Some s' /\
    m_Moves s' !! 0%nat = Some move' /\
    flt (velx move') fzero = false.
Proof.
  split; [done|]. split; [done|].
  eexists _, _. split; [by vm_compute|]. split; reflexivity.
Qed.

(** *** Start-up *)

Lemma resize_length {A} n (d : A) l : length (resize n d l) = n.
Proof. unfold resize. rewrite length_app, length_take, length_replicate. lia. Qed.

Lemma reserve_sized cfg s :
  store_sized cfg (reserve (kObjectCount cfg + kAvoidCount cfg) s).
Proof. unfold store_sized, reserve. simpl. by rewrite !resize_length. Qed.

Lemma set_entity_Some go pos spr move s :
  (go < length (m_Positions s))%nat -> (go < length (m_Sprites s))%nat ->
  (go < length (m_Moves s))%nat ->
  set_entity go pos spr move s =
    Some (mkEntities (<[go := pos]> (m_Positions s))
            (<[go := spr]> (m_Sprites s))
            (<[go := move]> (m_Moves s)) (m_IdGenerator s)).
Proof.
  intros H1 H2 H3. unfold set_entity.
  apply Nat.ltb_lt in H1 as ->. apply Nat.ltb_lt in H2 as ->.
  by apply Nat.ltb_lt in H3 as ->.
Qed.

(** A creation loop: each iteration takes the next identifier and writes
    its three components. *)
Lemma init_loop lc cfg (f : Config -> nat -> Entities * nat -> option (Entities * nat)) :
  f = init_regular lc \/ f = init_avoid lc ->
  forall l st,
  store_sized cfg (fst st) ->
  (m_IdGenerator (fst st) + length l <= kObjectCount cfg + kAvoidCount cfg)%nat ->
  exists st',
    foldM (f cfg) l st = Some st' /\ store_sized cfg (fst st') /\
    m_IdGenerator (fst st') = (m_IdGenerator (fst st) + length l)%nat.
Proof.
  intros Hf. induction l as [|i l IH]; intros st Hs Hn; simpl in *.
  - exists st. split; [done|]. split; [done|lia].
  - destruct Hs as (Hlp & Hls & Hlm).
    assert (Hstep : exists st1, f cfg i st = Some st1 /\
              store_sized cfg (fst st1) /\
              m_IdGenerator (fst st1) = S (m_IdGenerator (fst st))).
    { destruct Hf as [->| ->]; unfold init_regular, init_avoid, AddEntity;
        cbv zeta; cbn [fst snd];
        rewrite set_entity_Some by (simpl; lia); simpl;
        eexists; (split; [done|]); simpl;
        (split; [|done]); unfold store_sized; simpl;
        by rewrite !length_insert. }
    destruct Hstep as (st1 & -> & Hs1 & Hid1). simpl.
    destruct (IH st1 Hs1) as (st' & Hrun & Hs' & Hid'); [lia|].
    exists st'. split; [done|]. split; [done|]. lia.
Qed.

Lemma game_initialize_spec lc cfg :
  exists gm0,
    game_initialize lc cfg game_start = Some gm0 /\
    store_sized cfg (s_Objects gm0) /\
    m_IdGenerator (s_Objects gm0) = (kObjectCount cfg + kAvoidCount cfg)%nat.
Proof.
  unfold game_initialize.
  set (s := reserve _ _).
  destruct (init_loop lc cfg (init_regular lc) (or_introl eq_refl)
              (seq 0 (kObjectCount cfg)) (s, 0%nat))
    as (st1 & -> & Hs1 & Hid1).
  { apply reserve_sized. }
  { rewrite length_seq. simpl. lia. }
  simpl.
  destruct (init_loop lc cfg (init_avoid lc) (or_intror eq_refl)
              (seq 0 (kAvoidCount cfg)) st1)
    as (st2 & -> & Hs2 & Hid2); [done| |].
  { rewrite length_seq, Hid1, length_seq. simpl. lia. }
  simpl. exists (mkGame (fst st2) (s_Grid game_start)).
  split; [done|]. split; [done|]. simpl.
  rewrite Hid2, Hid1, !length_seq. simpl. lia.
Qed.

(** *** One frame *)

Lemma game_update_Some cfg dt gm frame gm' :
  game_update cfg dt gm = Some (frame, gm') ->
  exists s1 s2 grid,
    MoveSystem.UpdateSystem cfg dt (s_Objects gm) = Some s1 /\
    AvoidanceSystem.UpdateSystem cfg dt (s_Grid gm) s1 = Some (s2, grid) /\
    frame = mkFrame (copy_positions (m_Positions s2))
              (copy_sprites (m_Sprites s2))
              (int_of_size (length (m_Positions s2))) /\
    gm' = mkGame s2 grid.
Proof.
  unfold game_update. intros H.
  destruct (MoveSystem.UpdateSystem cfg dt (s_Objects gm)) as [s1|] eqn:Hm;
    simpl in H; [|done].
  destruct (AvoidanceSystem.UpdateSystem cfg dt (s_Grid gm) s1)
    as [[s2 grid]|] eqn:Ha; simpl in H; [|done].
  simplify_eq. by exists s1, s2, grid.
Qed.

Lemma game_update_intro cfg dt gm s1 s2 grid :
  MoveSystem.UpdateSystem cfg dt (s_Objects gm) = Some s1 ->
  AvoidanceSystem.UpdateSystem cfg dt (s_Grid gm) s1 = Some (s2, grid) ->
  game_update cfg dt gm =
    Some (mkFrame (copy_positions (m_Positions s2))
            (copy_sprites (m_Sprites s2))
            (int_of_size (length (m_Positions s2))),
          mkGame s2 grid).
Proof. unfold game_update. intros -> . simpl. by intros ->. Qed.

Lemma move_frame cfg dt s s' :
  MoveSystem.UpdateSystem cfg dt s = Some s' ->
  length (m_Positions s') = length (m_Positions s) /\
  length (m_Moves s') = length (m_Moves s) /\
  m_Sprites s' = m_Sprites s /\ m_IdGenerator s' = m_IdGenerator s.
Proof.
  intros H. apply move_range_spec in H as (? & ? & ? & ? & _). done.
Qed.

Lemma game_update_frame cfg dt gm frame gm' :
  game_update cfg dt gm = Some (frame, gm') ->
  length (m_Positions (s_Objects gm')) = length (m_Positions (s_Objects gm)) /\
  length (m_Sprites (s_Objects gm')) = length (m_Sprites (s_Objects gm)) /\
  length (m_Moves (s_Objects gm')) = length (m_Moves (s_Objects gm)) /\
  spriteIndex <$> m_Sprites (s_Objects gm') =
    spriteIndex <$> m_Sprites (s_Objects gm) /\
  objectCount frame = int_of_size (length (m_Positions (s_Objects gm))).
Proof.
  intros H. apply game_update_Some in H as (s1 & s2 & grid & Hm & Ha & -> & ->).
  apply move_frame in Hm as (Hp1 & Hm1 & Hs1 & _).
  apply avoidance_frame in Ha as (Hp2 & Hs2 & Hm2 & _ & Hx2 & _).
  simpl. rewrite Hp2, Hs2, Hm2, Hx2, Hp1, Hm1, Hs1. done.
Qed.

Lemma int_of_size_small n : Z.of_nat n < 2 ^ 31 -> int_of_size n = Z.of_nat n.
Proof.
  intros H. unfold int_of_size, wrap32. rewrite Z.mod_small by lia.
  destruct (_ <? _) eqn:Hlt; [done|]. apply Z.ltb_ge in Hlt. lia.
Qed.

Lemma game_run_Some cfg dt dts gm frames gm' :
  game_run cfg (dt :: dts) gm = Some (frames, gm') ->
  exists frame gm1 frames',
    game_update cfg dt gm = Some (frame, gm1) /\
    game_run cfg dts gm1 = Some (frames', gm') /\
    frames = frame :: frames'.
Proof.
  simpl. intros H.
  destruct (game_update cfg dt gm) as [[frame gm1]|] eqn:Hu;
    simpl in H; [|done].
  destruct (game_run cfg dts gm1) as [[frames' gm2]|] eqn:Hr;
    simpl in H; [|done].
  simplify_eq. by exists frame, gm1, frames'.
Qed.

(** C9.  No sequence of [game_update] calls changes the sprite index of an
    entity: the list of sprite indices of the store after the calls is the
    list before them. *)
Theorem sprite_index_never_modified cfg dts gm frames gm' :
  game_run cfg dts gm = Some (frames, gm') ->
  spriteIndex <$> m_Sprites (s_Objects gm') =
    spriteIndex <$> m_Sprites (s_Objects gm).
Proof.
  revert gm frames. induction dts as [|dt dts IH]; intros gm frames H.
  - simpl in H. by simplify_eq.
  - apply game_run_Some in H as (frame & gm1 & frames' & Hu & Hr & ->).
    apply IH in Hr. apply game_update_frame in Hu as (_ & _ & _ & Hx & _).
    congruence.
Qed.

Lemma sprite_index_never_modified_witness :
  exists frames gm',
    game_run scene_config [fpow2 (-6); fpow2 (-6)]
      (scene_game (mkMove (fpow2 (-1)) (fpow2 (-1)))) = Some (frames, gm') /\
    spriteIndex <$> m_Sprites (s_Objects gm') = [7; 255] /\
    colorR <$> m_Sprites (s_Objects gm') = [200; 200].
Proof.
  eexists _, _. split; [by vm_compute|]. split; [|reflexivity].
  eapply (sprite_index_never_modified scene_config [fpow2 (-6); fpow2 (-6)]
            (scene_game (mkMove (fpow2 (-1)) (fpow2 (-1))))).
  by vm_compute.
Defined.


(** *** Proximity reaction *)

Lemma query_body_eq cfg dt g io s p h n :
  m_Positions s !! io = Some p ->
  AvoidanceSystem.query_hash cfg p = h -> h < AvoidanceSystem.kGridCells ->
  AvoidanceSystem.activeAvoidCount g h = n ->
  AvoidanceSystem.query_body cfg dt g io s =
    foldM (AvoidanceSystem.check cfg dt g io h) (seqZ 0 n) s.
Proof.
  intros Hp <- Hh <-. unfold AvoidanceSystem.query_body. rewrite Hp. simpl.
  by apply Z.ltb_lt in Hh as ->.
Qed.

Lemma check_react_eq cfg dt g io hash ia s avoid myp avp mv asp msp :
  ia < Z.of_nat (kAvoidCount cfg) ->
  AvoidanceSystem.avoidEntityGrid g hash ia = avoid ->
  m_Positions s !! io = Some myp -> m_Positions s !! avoid = Some avp ->
  AvoidanceSystem.too_close avp myp = true ->
  m_Moves s !! io = Some mv ->
  m_Sprites s !! avoid = Some asp -> m_Sprites s !! io = Some msp ->
  AvoidanceSystem.check cfg dt g io hash ia s =
    Some (mkEntities
            (<[io := mkPosition
                       (fadd (pos_x myp)
                          (fmul (fmul (fneg (velx mv)) dt)
                             AvoidanceSystem.kOvershoot))
                       (fadd (pos_y myp)
                          (fmul (fmul (fneg (vely mv)) dt)
                             AvoidanceSystem.kOvershoot))]>
               (m_Positions s))
            (<[io := mkSprite (colorR asp) (colorG asp) (colorB asp)
                       (spriteIndex msp)]> (m_Sprites s))
            (<[io := mkMove (fneg (velx mv)) (fneg (vely mv))]> (m_Moves s))
            (m_IdGenerator s)).
Proof.
  intros Hia <- Hmy Hav Hc Hmv Has Hms. unfold AvoidanceSystem.check.
  apply Z.ltb_lt in Hia as ->. simpl. rewrite Hmy. simpl. rewrite Hav. simpl.
  rewrite Hc, Hmv. simpl. rewrite Has. simpl. by rewrite Hms.
Qed.

(** *** No false reaction *)

Lemma check_no_reaction cfg dt g io hash ia s t :
  AvoidanceSystem.check cfg dt g io hash ia s = Some t ->
  (forall pa p,
     m_Positions s !! AvoidanceSystem.avoidEntityGrid g hash ia = Some pa ->
     m_Positions s !! io = Some p ->
     AvoidanceSystem.too_close pa p = false) ->
  t = s.
Proof.
  unfold AvoidanceSystem.check. intros H Hfar.
  destruct (negb _); [done|].
  destruct (m_Positions s !! io) as [myp|] eqn:Hmy; simpl in H; [|done].
  destruct (m_Positions s !! AvoidanceSystem.avoidEntityGrid g hash ia)
    as [avp|] eqn:Hav; simpl in H; [|done].
  rewrite (Hfar avp myp) in H by done. by simplify_eq.
Qed.

Lemma query_body_no_reaction cfg dt g io s t :
  bucket_ok cfg g ->
  (forall ia pa p,
     (kObjectCount cfg <= ia < kObjectCount cfg + kAvoidCount cfg)%nat ->
     m_Positions s !! ia = Some pa -> m_Positions s !! io = Some p ->
     AvoidanceSystem.too_close pa p = false) ->
  AvoidanceSystem.query_body cfg dt g io s = Some t -> t = s.
Proof.
  intros Hg Hfar. unfold AvoidanceSystem.query_body.
  destruct (m_Positions s !! io) as [myp|] eqn:Hmy; simpl; [|done].
  destruct (negb _); [done|].
  apply (foldM_invariant (fun u => u = s)); [|done].
  intros ia u u' Hia -> Hc. apply elem_of_seqZ in Hia.
  eapply check_no_reaction; [exact Hc|].
  intros pa p Hpa Hp. eapply Hfar; [|exact Hpa|congruence].
  destruct (Hg (AvoidanceSystem.query_hash cfg myp)) as [_ Hk].
  apply Hk. lia.
Qed.

Lemma query_no_reaction cfg dt g io s t :
  bucket_ok cfg g -> (io < kObjectCount cfg)%nat ->
  (forall ia pa p,
     (kObjectCount cfg <= ia < kObjectCount cfg + kAvoidCount cfg)%nat ->
     m_Positions s !! ia = Some pa -> m_Positions s !! io = Some p ->
     AvoidanceSystem.too_close pa p = false) ->
  foldM (AvoidanceSystem.query_body cfg dt g) (seq 0 (kObjectCount cfg)) s
    = Some t ->
  m_Positions t !! io = m_Positions s !! io /\
  m_Sprites t !! io = m_Sprites s !! io /\
  m_Moves t !! io = m_Moves s !! io.
Proof.
  intros Hg Hio Hfar Hrun.
  assert (HP : (m_Positions t !! io = m_Positions s !! io /\
                m_Sprites t !! io = m_Sprites s !! io /\
                m_Moves t !! io = m_Moves s !! io) /\
               forall j, (kObjectCount cfg <= j)%nat ->
                 m_Positions t !! j = m_Positions s !! j); [|by destruct HP].
  revert Hrun.
  apply (foldM_invariant (fun u =>
    (m_Positions u !! io = m_Positions s !! io /\
     m_Sprites u !! io = m_Sprites s !! io /\
     m_Moves u !! io = m_Moves s !! io) /\
    forall j, (kObjectCount cfg <= j)%nat ->
      m_Positions u !! j = m_Positions s !! j)); [|done].
  intros a u u' Ha [(Hp & Hs & Hm) Hhaz] Hstep. apply elem_of_seq in Ha.
  destruct (decide (a = io)) as [->|Hne].
  - apply query_body_no_reaction in Hstep as ->; [done|done|].
    intros ia pa p Hia Hpa Hp'. rewrite Hhaz in Hpa by lia.
    rewrite Hp in Hp'. by eapply Hfar.
  - apply query_body_frame in Hstep
      as (_ & _ & _ & _ & _ & Hfr).
    split.
    + destruct (Hfr io) as (-> & -> & ->); done.
    + intros j Hj. destruct (Hfr j) as (-> & _); [lia|]. by apply Hhaz.
Qed.

Lemma game_update_grid_independent cfg dt s grid1 grid2 :
  (fun '(frame, gm) => (frame, s_Objects gm)) <$>
     game_update cfg dt (mkGame s grid1) =
  (fun '(frame, gm) => (frame, s_Objects gm)) <$>
     game_update cfg dt (mkGame s grid2).
Proof.
  unfold game_update. simpl.
  destruct (MoveSystem.UpdateSystem cfg dt s) as [s1|]; simpl; [|done].
  pose proof (avoidance_grid_independent cfg dt grid1 grid2 s1) as H.
  destruct (AvoidanceSystem.UpdateSystem cfg dt grid1 s1) as [[s2 g1]|],
           (AvoidanceSystem.UpdateSystem cfg dt grid2 s1) as [[s2' g2]|];
    simpl in *; by simplify_eq.
Qed.

(** C8.  Determinism.  Two instances whose component stores are equal,
    stepped with the same [deltaTime] sequence, return the same frames
    (position buffer, sprite buffer and entity count of every call), end in
    the same store, and fault together; what the static grid of either
    instance held before is irrelevant. *)
Theorem update_deterministic cfg dts gm1 gm2 :
  s_Objects gm1 = s_Objects gm2 ->
  observable (game_run cfg dts gm1) = observable (game_run cfg dts gm2).
Proof.
  revert gm1 gm2. induction dts as [|dt dts IH]; intros gm1 gm2 Heq.
  - simpl. by rewrite Heq.
  - destruct gm1 as [s grid1], gm2 as [s' grid2]. simpl in Heq. subst s'.
    pose proof (game_update_grid_independent cfg dt s grid1 grid2) as H.
    simpl.
    destruct (game_update cfg dt (mkGame s grid1)) as [[f1 gm1']|],
             (game_update cfg dt (mkGame s grid2)) as [[f2 gm2']|];
      simpl in *; try done.
    injection H as -> Hs.
    specialize (IH gm1' gm2' Hs). unfold observable in IH.
    destruct (game_run cfg dts gm1') as [[fs1 gm1'']|],
             (game_run cfg dts gm2') as [[fs2 gm2'']|];
      simpl in *; try done.
    injection IH as -> Hs'. by rewrite Hs'.
Qed.

Lemma update_deterministic_witness :
  observable
    (game_run scene_config [fpow2 (-6); fpow2 (-6)]
       (mkGame (scene (mkMove (fpow2 (-1)) (fpow2 (-1)))) (fun _ _ => 0%nat))) =
  observable
    (game_run scene_config [fpow2 (-6); fpow2 (-6)]
       (mkGame (scene (mkMove (fpow2 (-1)) (fpow2 (-1)))) (fun _ _ => 1%nat))).
Proof. by apply update_deterministic. Defined.

(** C4.  Bucket capacity.  When every hazard position is within the world
    bounds the rebuild of the grid completes, every occupancy counter it
    leaves is at most [kAvoidCount], and no hash occurs twice in the
    footprint of a hazard. *)
Theorem bucket_capacity cfg positions grid :
  config_ok cfg -> hazards_in_bounds cfg positions ->
  exists g,
    AvoidanceSystem.build cfg positions grid = Some g /\
    (forall h, 0 <= AvoidanceSystem.activeAvoidCount g h
                 <= Z.of_nat (kAvoidCount cfg)) /\
    (forall ia p,
       (kObjectCount cfg <= ia < kObjectCount cfg + kAvoidCount cfg)%nat ->
       positions !! ia = Some p -> NoDup (AvoidanceSystem.footprint cfg p)).
Proof.
  intros Hcfg Hpos.
  destruct (build_total cfg positions grid Hcfg Hpos) as (g & Hb & Hc).
  exists g. split; [done|]. split; [done|].
  intros ia p Hia Hp. destruct (Hpos ia Hia) as (p' & Hp' & Hv & Hin).
  rewrite Hp in Hp'. simplify_eq. by apply footprint_ok.
Qed.

Lemma scene_hazards_in_bounds vel :
  hazards_in_bounds scene_config (m_Positions (scene vel)).
Proof.
  intros ia Hia. simpl in Hia. assert (ia = 1%nat) as -> by lia.
  eexists. split; [reflexivity|]. split; by vm_compute.
Qed.

Lemma bucket_capacity_witness :
  exists g,
    AvoidanceSystem.build scene_config
      (m_Positions (scene (mkMove fzero fzero))) (fun _ _ => 0%nat) = Some g /\
    (forall h, 0 <= AvoidanceSystem.activeAvoidCount g h
                 <= Z.of_nat (kAvoidCount scene_config)) /\
    (forall ia p,
       (kObjectCount scene_config <= ia
          < kObjectCount scene_config + kAvoidCount scene_config)%nat ->
       m_Positions (scene (mkMove fzero fzero)) !! ia = Some p ->
       NoDup (AvoidanceSystem.footprint scene_config p)).
Proof.
  apply bucket_capacity.
  - unfold config_ok. simpl. lia.
  - apply scene_hazards_in_bounds.
Defined.

(** C10.  Grid indices.  When every position of the store is within the
    world bounds the Avoidance System pass completes: no access leaves the
    grid arrays or the store.  Every hash of a hazard footprint and every
    hash queried for a regular entity is less than [kGridCells] = 4096, and
    every occupancy counter, hence every slot read or written, is at most
    [kAvoidCount]. *)
Theorem grid_indices_in_bounds cfg dt grid s :
  config_ok cfg -> store_sized cfg s ->
  (forall i p, m_Positions s !! i = Some p ->
     position_valid p = true /\ in_bounds p = true) ->
  (exists s' grid', AvoidanceSystem.UpdateSystem cfg dt grid s = Some (s', grid')) /\
  (forall ia p h,
     (kObjectCount cfg <= ia < kObjectCount cfg + kAvoidCount cfg)%nat ->
     m_Positions s !! ia = Some p -> h ∈ AvoidanceSystem.footprint cfg p ->
     0 <= h < AvoidanceSystem.kGridCells) /\
  (forall io p,
     (io < kObjectCount cfg)%nat -> m_Positions s !! io = Some p ->
     0 <= AvoidanceSystem.query_hash cfg p < AvoidanceSystem.kGridCells) /\
  (forall g h,
     AvoidanceSystem.build cfg (m_Positions s) grid = Some g ->
     0 <= AvoidanceSystem.activeAvoidCount g h <= Z.of_nat (kAvoidCount cfg)).
Proof.
  intros Hcfg Hs Hpos.
  assert (Hhaz : hazards_in_bounds cfg (m_Positions s)).
  { intros ia Hia. destruct Hs as (Hl & _).
    destruct (lookup_lt_is_Some_2 (m_Positions s) ia) as [p Hp]; [lia|].
    exists p. split; [done|]. by apply (Hpos ia). }
  destruct (build_total cfg (m_Positions s) grid Hcfg Hhaz) as (g & Hb & Hc).
  split; [|split; [|split]].
  - unfold AvoidanceSystem.UpdateSystem. rewrite Hb. simpl.
    destruct (query_total cfg dt g s) as [s' Hq]; try done.
    + by eapply build_bucket_ok.
    + intros h. apply Hc.
    + intros io p Hio Hp. destruct (Hpos io p Hp) as [Hv Hin].
      by apply query_hash_lt.
    + rewrite Hq. simpl. by eexists _, _.
  - intros ia p h Hia Hp Hh. destruct (Hpos ia p Hp) as [Hv Hin].
    by apply (footprint_ok cfg p Hv Hin).
  - intros io p Hio Hp. destruct (Hpos io p Hp) as [Hv Hin].
    by apply query_hash_lt.
  - intros g' h Hb'. rewrite Hb in Hb'. simplify_eq. apply Hc.
Qed.

Lemma scene_positions_ok vel i p :
  m_Positions (scene vel) !! i = Some p ->
  position_valid p = true /\ in_bounds p = true.
Proof.
  destruct i as [|[|i]]; simpl; intros H; simplify_eq; split; by vm_compute.
Qed.

Lemma grid_indices_in_bounds_witness :
  (exists s' grid',
     AvoidanceSystem.UpdateSystem scene_config (fpow2 (-6)) (fun _ _ => 0%nat)
       (scene (mkMove (fpow2 (-1)) (fpow2 (-1)))) = Some (s', grid')) /\
  (forall ia p h,
     (kObjectCount scene_config <= ia
        < kObjectCount scene_config + kAvoidCount scene_config)%nat ->
     m_Positions (scene (mkMove (fpow2 (-1)) (fpow2 (-1)))) !! ia = Some p ->
     h ∈ AvoidanceSystem.footprint scene_config p ->
     0 <= h < AvoidanceSystem.kGridCells) /\
  (forall io p,
     (io < kObjectCount scene_config)%nat ->
     m_Positions (scene (mkMove (fpow2 (-1)) (fpow2 (-1)))) !! io = Some p ->
     0 <= AvoidanceSystem.query_hash scene_config p
       < AvoidanceSystem.kGridCells) /\
  (forall g h,
     AvoidanceSystem.build scene_config
       (m_Positions (scene (mkMove (fpow2 (-1)) (fpow2 (-1)))))
       (fun _ _ => 0%nat) = Some g ->
     0 <= AvoidanceSystem.activeAvoidCount g h
       <= Z.of_nat (kAvoidCount scene_config)).
Proof.
  apply grid_indices_in_bounds.
  - unfold config_ok. simpl. lia.
  - apply scene_sized.
  - apply scene_positions_ok.
Defined.

(** * Further properties of the code *)

(** * Rounding from any location, multiplication and division *)

Lemma shr_record_of_loc_m m loc : shr_m (shr_record_of_loc m loc) = m.
Proof. by destruct loc as [|[]]. Qed.

Lemma loc_of_shr_record_of_loc m loc :
  loc_of_shr_record (shr_record_of_loc m loc) = loc.
Proof. by destruct loc as [|[]]. Qed.

(** [shr] from any location: the mantissa is shifted right by [n] when [n]
    is positive, and an exact location stays exact when nothing is lost. *)
Lemma shr_spec_loc m e n loc :
  0 <= m ->
  let k := Z.max 0 n in
  let res := shr (shr_record_of_loc m loc) e n in
  shr_m (fst res) = m / 2 ^ k /\ snd res = e + k /\
  (loc = loc_Exact -> m mod 2 ^ k = 0 ->
   loc_of_shr_record (fst res) = loc_Exact).
Proof.
  intros Hm k res. subst k res. unfold shr. destruct n as [|p|p]; cbn [fst snd].
  - rewrite shr_record_of_loc_m, loc_of_shr_record_of_loc.
    change (Z.max 0 0) with 0. rewrite Z.div_1_r. repeat split; [lia|done].
  - rewrite iter_pos_nat.
    replace (Z.max 0 (Z.pos p)) with (Z.of_nat (Pos.to_nat p)) by lia.
    rewrite shr_iter_m by (rewrite shr_record_of_loc_m; lia).
    rewrite shr_record_of_loc_m.
    repeat split; [lia|].
    intros -> He. simpl shr_record_of_loc.
    rewrite shr_iter_exact by done. reflexivity.
  - rewrite shr_record_of_loc_m, loc_of_shr_record_of_loc.
    change (Z.max 0 (Z.neg p)) with 0. rewrite Z.div_1_r.
    repeat split; [lia|done].
Qed.

Lemma binary_round_aux_spec_loc s m e loc :
  let k := Z.max 0 (fexp prec emax (Z.pos (digits2_pos m) + e) - e) in
  let m1 := Z.pos m / 2 ^ k in
  let e1 := e + k in
  exists m2,
    m2 = rounded (Z.pos m) e loc /\
    (m2 = m1 \/
     (m2 = m1 + 1 /\ (loc = loc_Exact -> Z.pos m mod 2 ^ k <> 0))) /\
    let k2 := Z.max 0 (fexp prec emax (Zdigits2 m2 + e1) - e1) in
    binary_round_aux prec emax s (Z.pos m) e loc =
      round_result s (m2 / 2 ^ k2) (e1 + k2).
Proof.
  intros k m1 e1. unfold rounded, binary_round_aux, shr_fexp.
  change (Zdigits2 (Z.pos m)) with (Z.pos (digits2_pos m)).
  destruct (shr_spec_loc (Z.pos m) e
              (fexp prec emax (Z.pos (digits2_pos m) + e) - e) loc ltac:(lia))
    as (Hm & He & Hx).
  destruct (shr (shr_record_of_loc (Z.pos m) loc) e _) as [r1 e1'].
  simpl in Hm, He, Hx. fold k in Hm, He, Hx. subst e1'. fold e1. fold m1 in Hm.
  pose proof (round_nearest_even_cases (shr_m r1) r1) as Hr.
  set (m2 := round_nearest_even (shr_m r1) (loc_of_shr_record r1)) in *.
  rewrite Hm in Hr.
  assert (H1 : 0 <= m1) by (apply Z.div_pos; lia).
  exists m2. split; [reflexivity|]. split.
  - destruct Hr as [Hr|[Hr Hne]]; [by left|].
    right. split; [done|]. intros Hl H0. by apply Hne, Hx.
  - cbv zeta.
    set (k2 := Z.max 0 (fexp prec emax (Zdigits2 m2 + e1) - e1)).
    assert (Hm2 : 0 <= m2) by (destruct Hr as [Hr|[Hr _]]; lia).
    destruct (shr_spec m2 e1 (fexp prec emax (Zdigits2 m2 + e1) - e1) Hm2)
      as (Hm' & He' & _).
    fold k2 in Hm', He'.
    destruct (shr (shr_record_of_loc m2 loc_Exact) e1 _) as [r2 e2].
    simpl in Hm', He'. subst e2. rewrite Hm'. reflexivity.
Qed.

(** Rounding of an aligned mantissa with the location of what was left
    behind it: the result is [m2], between the floor of [m / 2^k] and its
    successor, renormalised to at most 24 digits. *)
Lemma binary_round_aux_aligned_loc s m e loc :
  let E := fexp prec emax (Z.pos (digits2_pos m) + e) in
  e <= E ->
  exists m2 m3 e3,
    m2 = rounded (Z.pos m) e loc /\
    binary_round_aux prec emax s (Z.pos m) e loc = round_result s m3 e3 /\
    m3 * 2 ^ (e3 - E) = m2 /\ E <= e3 <= E + 1 /\ -149 <= E /\
    0 <= m3 < 2 ^ 24 /\ (e3 = -149 \/ 2 ^ 23 <= m3 \/ m3 = 0) /\
    (forall b, b * 2 ^ (E - e) <= Z.pos m -> b <= m2) /\
    (forall b, Z.pos m < b * 2 ^ (E - e) -> m2 <= b) /\
    (loc = loc_Exact -> forall b, Z.pos m <= b * 2 ^ (E - e) -> m2 <= b).
Proof.
  intros E HP.
  destruct (binary_round_aux_spec_loc s m e loc) as (m2 & Hrd & Hm2 & Hres).
  cbv zeta in Hres. fold E in Hm2, Hres.
  assert (HE : E = Z.max (Z.pos (digits2_pos m) + e - 24) (-149)) by apply fexp32.
  replace (Z.max 0 (E - e)) with (E - e) in * by lia.
  replace (e + (E - e)) with E in Hres by lia.
  set (k := E - e) in *.
  assert (Hk : 0 < 2 ^ k) by (apply Z.pow_pos_nonneg; lia).
  set (m1 := Z.pos m / 2 ^ k) in *.
  assert (Hfl : m1 * 2 ^ k <= Z.pos m < (m1 + 1) * 2 ^ k).
  { pose proof (Z.mul_div_le (Z.pos m) (2 ^ k) Hk).
    pose proof (Z.mul_succ_div_gt (Z.pos m) (2 ^ k) Hk). fold m1 in H, H0. lia. }
  assert (Hmod : Z.pos m mod 2 ^ k = Z.pos m - m1 * 2 ^ k).
  { pose proof (Z.div_mod (Z.pos m) (2 ^ k) ltac:(lia)). fold m1 in H. lia. }
  assert (Hfloor : forall b, b * 2 ^ k <= Z.pos m -> b <= m2).
  { intros b Hb. assert (b <= m1) by nia. destruct Hm2 as [->|[-> _]]; lia. }
  assert (Hstrict : forall b, Z.pos m < b * 2 ^ k -> m2 <= b).
  { intros b Hb. assert (m1 < b) by nia. destruct Hm2 as [->|[-> _]]; lia. }
  assert (Hceil : loc = loc_Exact -> forall b, Z.pos m <= b * 2 ^ k -> m2 <= b).
  { intros Hl b Hb. assert (m1 <= b) by nia.
    destruct Hm2 as [->|[-> Hne]]; [lia|].
    destruct (decide (m1 = b)) as [->|]; [|lia]. exfalso. apply Hne; [done|lia]. }
  pose proof (digits2_bounds m) as [Hdlo Hdhi].
  set (d := Z.pos (digits2_pos m)) in *.
  assert (Hm1 : m1 < 2 ^ 24).
  { assert (2 ^ d <= 2 ^ (24 + k)) by (apply Z.pow_le_mono_r; lia).
    rewrite Z.pow_add_r in H by lia. nia. }
  assert (Hm1' : -149 < E -> 2 ^ 23 <= m1).
  { intros HE'. assert (Hkd : d - 1 = 23 + k) by lia.
    rewrite Hkd, Z.pow_add_r in Hdlo by lia. nia. }
  assert (Hm2le : 0 <= m2 <= 2 ^ 24).
  { assert (0 <= m1) by (apply Z.div_pos; lia).
    destruct Hm2 as [->|[-> _]]; lia. }
  assert (Hm2ge : -149 < E -> 2 ^ 23 <= m2).
  { intros HE'. specialize (Hm1' HE'). destruct Hm2 as [->|[-> _]]; lia. }
  rewrite fexp32 in Hres.
  destruct (decide (m2 = 0)) as [Hz|Hnz].
  - exists m2, 0, E. rewrite Hz in *. simpl Zdigits2 in Hres.
    replace (Z.max 0 (Z.max (0 + E - 24) (-149) - E)) with 0 in Hres by lia.
    rewrite Z.add_0_r in Hres. change (0 / 2 ^ 0) with 0 in Hres.
    repeat split; try done; try lia.
  - destruct (decide (m2 < 2 ^ 24)) as [Hlt|Hge].
    + assert (Hd2 : Zdigits2 m2 <= 24) by (apply Zdigits2_pos_le; lia).
      replace (Z.max 0 (Z.max (Zdigits2 m2 + E - 24) (-149) - E)) with 0
        in Hres by lia.
      rewrite Z.add_0_r, Z.pow_0_r, Z.div_1_r in Hres.
      exists m2, m2, E. rewrite Z.sub_diag, Z.pow_0_r.
      repeat split; try done; try lia.
      all: destruct (decide (E = -149)); [by left|right; left; apply Hm2ge; lia].
    + assert (Heq : m2 = 2 ^ 24) by lia.
      assert (Hd2 : Zdigits2 m2 = 25).
      { assert (25 <= Zdigits2 m2) by (apply Zdigits2_pos_ge; lia).
        assert (Zdigits2 m2 <= 25) by (apply Zdigits2_pos_le; lia). lia. }
      rewrite Hd2 in Hres.
      replace (Z.max 0 (Z.max (25 + E - 24) (-149) - E)) with 1 in Hres by lia.
      rewrite Heq in Hres. change (2 ^ 24 / 2 ^ 1) with (2 ^ 23) in Hres.
      exists m2, (2 ^ 23), (E + 1).
      replace (E + 1 - E) with 1 by lia.
      repeat split; try done; try lia.
Qed.

(** Rounding of an aligned mantissa whose value is given at the scale
    [2^K]: below every binary32 bound that is above the exact value. *)
Lemma binary_round_aux_mag_loc s m e K loc :
  e <= fexp prec emax (Z.pos (digits2_pos m) + e) ->
  - K <= e -> 149 <= K ->
  let r := binary_round_aux prec emax s (Z.pos m) e loc in
  fvalid r = true /\ is_nan r = false /\
  forall mh eh, Fbound mh eh ->
    Z.pos m * 2 ^ (e + K) < Z.pos mh * 2 ^ (eh + K) \/
    (loc = loc_Exact /\ Z.pos m * 2 ^ (e + K) <= Z.pos mh * 2 ^ (eh + K)) ->
    is_finite r = true /\ Fmag r * 2 ^ (K - 149) <= Z.pos mh * 2 ^ (eh + K).
Proof.
  intros HP HK1 HK2 r. subst r.
  pose proof (binary_round_aux_aligned_loc s m e loc) as Hal. cbv zeta in Hal.
  set (E := fexp prec emax (Z.pos (digits2_pos m) + e)) in *.
  destruct (Hal HP)
    as (m2 & m3 & e3 & _ & Hres & Hm3 & He3 & HE & Hr3 & Hcan & _ & Hstrict
        & Hceil).
  rewrite Hres. clear Hres Hal.
  assert (Hshape : fvalid (round_result s m3 e3) = true /\
                   is_nan (round_result s m3 e3) = false).
  { unfold round_result. destruct m3 as [|p|p]; [done| |lia].
    change (emax - prec) with 104.
    destruct (e3 <=? 104) eqn:Hle; [|done]. apply Z.leb_le in Hle.
    split; [|done]. apply bounded_iff. split; [lia|]. split; [lia|].
    destruct Hcan as [?|[?|?]]; [by left|by right|lia]. }
  destruct Hshape as (Hv & Hn).
  split; [done|]. split; [done|].
  intros mh eh [Hmh Heh] Hle.
  pose proof (digits2_bounds m) as [Hdlo _].
  set (d := Z.pos (digits2_pos m)) in *.
  assert (Hpe : 0 < 2 ^ (e + K)) by (apply Z.pow_pos_nonneg; lia).
  assert (Hpeh : 0 < 2 ^ (eh + K)) by (apply Z.pow_pos_nonneg; lia).
  assert (Hle' : Z.pos m * 2 ^ (e + K) <= Z.pos mh * 2 ^ (eh + K))
    by (destruct Hle as [?|[_ ?]]; lia).
  assert (HEeh : E <= eh).
  { assert (HE' : E = Z.max (d + e - 24) (-149)) by apply fexp32.
    destruct (Z.le_gt_cases (d + e - 24) eh) as [|Hgt]; [lia|exfalso].
    assert (Hp : 2 ^ (24 + (eh + K)) <= 2 ^ (d - 1 + (e + K)))
      by (apply Z.pow_le_mono_r; lia).
    rewrite (Z.pow_add_r 2 24 (eh + K)) in Hp by lia.
    rewrite (Z.pow_add_r 2 (d - 1) (e + K)) in Hp by lia. nia. }
  assert (Hsc : Z.pos mh * 2 ^ (eh + K) =
                Z.pos mh * 2 ^ (eh - E) * 2 ^ (E - e) * 2 ^ (e + K)).
  { rewrite <- !Z.mul_assoc, <- !Z.pow_add_r by lia. do 2 f_equal. lia. }
  assert (Hb : m2 <= Z.pos mh * 2 ^ (eh - E)).
  { destruct Hle as [Hlt|[Hl Hlt]].
    - apply Hstrict. rewrite Hsc in Hlt.
      apply (Z.mul_lt_mono_pos_r (2 ^ (e + K))); [done|]. lia.
    - apply (Hceil Hl). rewrite Hsc in Hlt.
      apply (Z.mul_le_mono_pos_r _ _ (2 ^ (e + K))); [done|]. lia. }
  unfold round_result. destruct m3 as [|p|p]; [simpl; lia| |lia].
  change (emax - prec) with 104.
  destruct (e3 <=? 104) eqn:Hle3; [|apply Z.leb_gt in Hle3; lia].
  split; [done|]. simpl.
  rewrite <- Z.mul_assoc, <- Z.pow_add_r by lia.
  replace (e3 + 149 + (K - 149)) with ((e3 - E) + (E + K)) by lia.
  replace (eh + K) with ((eh - E) + (E + K)) by lia.
  rewrite (Z.pow_add_r 2 (e3 - E)), (Z.pow_add_r 2 (eh - E)) by lia.
  assert (0 < 2 ^ (E + K)) by (apply Z.pow_pos_nonneg; lia).
  nia.
Qed.

Lemma fmul_spec x y :
  fvalid x = true -> fvalid y = true ->
  is_finite x = true -> is_finite y = true ->
  let r := fmul x y in
  fvalid r = true /\ is_nan r = false /\
  forall mh eh, Fbound mh eh ->
    Fmag x * Fmag y <= Z.pos mh * 2 ^ (eh + 149) * 2 ^ 149 ->
    is_finite r = true /\ Fmag r <= Z.pos mh * 2 ^ (eh + 149).
Proof.
  intros Hvx Hvy Hfx Hfy r. subst r.
  destruct x as [sx|sx| |sx mx ex], y as [sy|sy| |sy my ey]; try done.
  - simpl. repeat split; try done; lia.
  - simpl. repeat split; try done; lia.
  - simpl. repeat split; try done; lia.
  - apply fvalid_finite in Hvx as (Hmx & Hex & Hnx).
    apply fvalid_finite in Hvy as (Hmy & Hey & Hny).
    unfold fmul, SFmul.
    change (Z.pos (mx * my)) with (Z.pos (mx * my)%positive).
    destruct (binary_round_aux_mag_loc (xorb sx sy) (mx * my) (ex + ey) 298
                loc_Exact)
      as (Hv & Hn & Hb); [|lia|lia|].
    { rewrite fexp32.
      destruct (decide (ex = -149 /\ ey = -149)) as [[-> ->]|Hne]; [lia|].
      assert (2 ^ 23 <= Z.pos (mx * my)).
      { rewrite Pos2Z.inj_mul.
        assert (Z.pos my <= Z.pos mx * Z.pos my) by nia.
        assert (Z.pos mx <= Z.pos mx * Z.pos my) by nia.
        destruct Hnx as [Hnx|Hnx], Hny as [Hny|Hny];
          [by destruct Hne|lia..]. }
      assert (24 <= Z.pos (digits2_pos (mx * my)))
        by (by apply digits2_ge). lia. }
    split; [done|]. split; [done|].
    intros mh eh Hbd Hle. simpl Fmag in Hle.
    pose proof Hbd as [Hmh Heh].
    destruct (Hb mh eh Hbd) as [Hf Hm].
    { right. split; [done|]. rewrite Pos2Z.inj_mul.
      replace (ex + ey + 298) with ((ex + 149) + (ey + 149)) by lia.
      replace (eh + 298) with ((eh + 149) + 149) by lia.
      rewrite (Z.pow_add_r 2 (ex + 149)), (Z.pow_add_r 2 (eh + 149)) by lia.
      lia. }
    split; [done|]. change (298 - 149) with 149 in Hm.
    replace (eh + 298) with ((eh + 149) + 149) in Hm by lia.
    rewrite (Z.pow_add_r 2 (eh + 149)) in Hm by lia.
    assert (0 < 2 ^ 149) by lia. nia.
Qed.

Lemma Fsign_round_result s m e : 0 <= m -> Fsign (round_result s m e) = s.
Proof.
  intros Hm. unfold round_result. destruct m as [|p|p]; [done| |lia].
  by destruct (_ <=? _).
Qed.

Lemma binary_round_aux_sign s m e loc :
  Fsign (binary_round_aux prec emax s (Z.pos m) e loc) = s.
Proof.
  destruct (binary_round_aux_spec_loc s m e loc) as (m2 & _ & Hm2 & ->).
  cbv zeta in *. apply Fsign_round_result.
  assert (0 <= Z.pos m / 2 ^ Z.max 0 (fexp prec emax (Z.pos (digits2_pos m) + e) - e))
    by (apply Z.div_pos; lia).
  apply Z.div_pos; [|lia]. destruct Hm2 as [->|[-> _]]; lia.
Qed.

Lemma fmul_sign x y :
  is_finite x = true -> is_finite y = true ->
  Fsign (fmul x y) = xorb (Fsign x) (Fsign y).
Proof.
  destruct x as [sx|sx| |sx mx ex], y as [sy|sy| |sy my ey]; try done.
  intros _ _. apply binary_round_aux_sign.
Qed.

Lemma new_location_exact n : new_location n 0 = loc_Exact.
Proof. unfold new_location. by destruct (Z.even n). Qed.

(** The quotient, exponent and location computed by the division of two
    mantissas, when the quotient is not below the normal range. *)
Lemma SFdiv_core_spec mx ex my ey :
  let d1 := Z.pos (digits2_pos mx) in
  let d2 := Z.pos (digits2_pos my) in
  let e' := d1 + ex - (d2 + ey) - 24 in
  Z.pos mx < 2 ^ 24 -> -125 <= d1 + ex - (d2 + ey) ->
  exists q r loc,
    SFdiv_core_binary prec emax (Z.pos mx) ex (Z.pos my) ey =
      (Z.pos q, e', loc) /\
    Z.pos mx * 2 ^ (ex - ey - e') = Z.pos q * Z.pos my + r /\
    0 <= r < Z.pos my /\
    (r = 0 -> loc = loc_Exact) /\
    e' <= fexp prec emax (Z.pos (digits2_pos q) + e').
Proof.
  intros d1 d2 e' Hmx HD. unfold SFdiv_core_binary.
  change (Zdigits2 (Z.pos mx)) with d1. change (Zdigits2 (Z.pos my)) with d2.
  assert (Hd1 : 0 < d1 <= 24).
  { split; [subst d1; lia|]. by apply digits2_le. }
  assert (Hd2 : 0 < d2) by (subst d2; lia).
  rewrite fexp32.
  replace (Z.min (Z.max (d1 + ex - (d2 + ey) - 24) (-149)) (ex - ey))
    with e' by (subst e'; lia).
  assert (Hs : ex - ey - e' = 24 + d2 - d1) by (subst e'; lia).
  rewrite Hs. destruct (24 + d2 - d1) as [|p|p] eqn:Hp; try lia.
  rewrite Z.shiftl_mul_pow2 by lia.
  pose proof (Z_div_mod (Z.pos mx * 2 ^ Z.pos p) (Z.pos my) ltac:(lia)) as Hdiv.
  destruct (Z.div_eucl (Z.pos mx * 2 ^ Z.pos p) (Z.pos my)) as [q r].
  destruct Hdiv as [Hq Hr].
  pose proof (digits2_bounds mx) as [Hxlo _]. fold d1 in Hxlo.
  pose proof (digits2_bounds my) as [_ Hyhi]. fold d2 in Hyhi.
  assert (Hq23 : 2 ^ 23 <= q).
  { assert (Hm' : 2 ^ 23 * 2 ^ d2 <= Z.pos mx * 2 ^ Z.pos p).
    { rewrite <- Z.pow_add_r by lia.
      replace (23 + d2) with (d1 - 1 + Z.pos p) by lia.
      rewrite Z.pow_add_r by lia.
      apply Z.mul_le_mono_nonneg_r; [|done]. apply Z.pow_nonneg. lia. }
    destruct (Z.le_gt_cases (2 ^ 23) q) as [|Hlt]; [done|exfalso].
    assert (Z.pos my * q + r < Z.pos my * 2 ^ 23) by nia.
    nia. }
  destruct q as [|q|q]; try lia.
  exists q, r, (new_location (Z.pos my) r).
  split; [done|]. split; [lia|]. split; [lia|]. split.
  - intros ->. apply new_location_exact.
  - rewrite fexp32.
    assert (24 <= Z.pos (digits2_pos q)) by (by apply digits2_ge).
    lia.
Qed.

Lemma fdiv_spec x y :
  fvalid x = true -> fvalid y = true ->
  is_finite x = true -> is_finite y = true ->
  0 < Fmag y -> Fmag y <= 2 ^ 100 * Fmag x \/ Fmag x = 0 ->
  let r := fdiv x y in
  fvalid r = true /\ is_nan r = false /\
  Fsign r = xorb (Fsign x) (Fsign y) /\
  forall mh eh, Fbound mh eh ->
    Fmag x * 2 ^ 149 <= Z.pos mh * 2 ^ (eh + 149) * Fmag y ->
    is_finite r = true /\ Fmag r <= Z.pos mh * 2 ^ (eh + 149).
Proof.
  intros Hvx Hvy Hfx Hfy Hy Hxy r. subst r.
  destruct x as [sx|sx| |sx mx ex], y as [sy|sy| |sy my ey]; try done;
    try (simpl in Hy; lia).
  - simpl. repeat split; try done; lia.
  - apply fvalid_finite in Hvx as (Hmx & Hex & Hnx).
    apply fvalid_finite in Hvy as (Hmy & Hey & Hny).
    pose proof (Fmag_finite_pos sx mx ex ltac:(lia)) as Hxpos.
    destruct Hxy as [Hxy|Hxy]; [|lia]. simpl Fmag in *.
    pose proof (digits2_bounds mx) as [_ Hxhi].
    pose proof (digits2_bounds my) as [Hylo _].
    set (d1 := Z.pos (digits2_pos mx)) in *.
    set (d2 := Z.pos (digits2_pos my)) in *.
    assert (Hd1 : 0 < d1) by (subst d1; lia).
    assert (Hd2 : 0 < d2) by (subst d2; lia).
    assert (HD : -125 <= d1 + ex - (d2 + ey)).
    { destruct (Z.le_gt_cases (-125) (d1 + ex - (d2 + ey))) as [|Hlt];
        [done|exfalso].
      assert (Hp : 2 ^ (100 + (d1 + (ex + 149))) <= 2 ^ (d2 - 1 + (ey + 149)))
        by (apply Z.pow_le_mono_r; lia).
      rewrite (Z.pow_add_r 2 100), (Z.pow_add_r 2 d1),
        (Z.pow_add_r 2 (d2 - 1)) in Hp by lia.
      assert (0 < 2 ^ (ex + 149)) by (apply Z.pow_pos_nonneg; lia).
      assert (0 < 2 ^ (ey + 149)) by (apply Z.pow_pos_nonneg; lia).
      nia. }
    destruct (SFdiv_core_spec mx ex my ey Hmx HD)
      as (q & r & loc & Hcore & Hqr & Hr & Hloc & Hal).
    fold d1 d2 in Hcore, Hqr, Hal.
    set (e' := d1 + ex - (d2 + ey) - 24) in *.
    unfold fdiv, SFdiv. rewrite Hcore.
    destruct (binary_round_aux_mag_loc (xorb sx sy) q e' 600 loc Hal)
      as (Hv & Hn & Hb); [lia|lia|].
    split; [done|]. split; [done|].
    split; [apply binary_round_aux_sign|].
    intros mh eh Hbd Hle. pose proof Hbd as [Hmh Heh].
    assert (Hd24 : d1 <= 24) by (by apply digits2_le).
    assert (Hs : 0 <= ex - ey - e') by (subst e'; lia).
    assert (Hkey : (Z.pos q * Z.pos my + r) * 2 ^ (e' + 600) <=
                   Z.pos mh * 2 ^ (eh + 600) * Z.pos my).
    { rewrite <- Hqr, <- Z.mul_assoc, <- Z.pow_add_r by lia.
      replace (ex - ey - e' + (e' + 600)) with ((ex + 149) + (451 - ey)) by lia.
      replace (eh + 600) with ((eh + 149) + (ey + 149) + (302 - ey)) by lia.
      rewrite (Z.pow_add_r 2 (ex + 149)), (Z.pow_add_r 2 (eh + 149 + (ey + 149))),
        (Z.pow_add_r 2 (eh + 149)) by lia.
      replace (451 - ey) with (149 + (302 - ey)) by lia.
      rewrite (Z.pow_add_r 2 149) by lia.
      assert (0 <= 2 ^ (302 - ey)) by (apply Z.pow_nonneg; lia).
      nia. }
    assert (Hp : 0 < 2 ^ (e' + 600)) by (apply Z.pow_pos_nonneg; lia).
    destruct (Hb mh eh Hbd) as [Hf Hm].
    { destruct (decide (r = 0)) as [Hr0|Hr0].
      - right. split; [by apply Hloc|]. subst r.
        apply (Z.mul_le_mono_pos_r _ _ (Z.pos my)); lia.
      - left. assert (0 < r * 2 ^ (e' + 600)) by nia.
        apply (Z.mul_lt_mono_pos_r (Z.pos my)); lia. }
    split; [done|]. change (600 - 149) with 451 in Hm.
    replace (eh + 600) with ((eh + 149) + 451) in Hm by lia.
    rewrite (Z.pow_add_r 2 (eh + 149)) in Hm by lia.
    assert (0 < 2 ^ 451) by (apply Z.pow_pos_nonneg; lia). nia.
Qed.

(** *** Magnitude bounds *)

Lemma Fval_abs f : Z.abs (Fval f) = Fmag f.
Proof. pose proof (Fmag_nonneg f). unfold Fval. destruct (Fsign f); lia. Qed.

Lemma fbnd_fneg k f : fbnd k f -> fbnd k (fneg f).
Proof. intros (Hv & Hf & Hm). by destruct f. Qed.

Lemma fbnd_mono a b f : a <= b -> fbnd a f -> fbnd b f.
Proof.
  intros Hab (Hv & Hf & Hm). split; [done|]. split; [done|].
  destruct (Z.le_gt_cases 0 (a + 149)).
  - etrans; [exact Hm|]. apply Z.pow_le_mono_r; lia.
  - rewrite Z.pow_neg_r in Hm by lia. pose proof (Fmag_nonneg f).
    assert (0 <= 2 ^ (b + 149)) by (apply Z.pow_nonneg; lia). lia.
Qed.

Lemma fmul_bnd a b x y :
  -149 <= a -> -149 <= b -> -149 <= a + b <= 103 ->
  fbnd a x -> fbnd b y -> fbnd (a + b) (fmul x y).
Proof.
  intros Ha Hb Hab (Hvx & Hfx & Hmx) (Hvy & Hfy & Hmy).
  destruct (fmul_spec x y Hvx Hvy Hfx Hfy) as (Hv & _ & Hbd).
  destruct (Hbd 1%positive (a + b)) as [Hf Hm].
  - split; [reflexivity|lia].
  - pose proof (Fmag_nonneg x). pose proof (Fmag_nonneg y).
    replace (Z.pos 1 * 2 ^ (a + b + 149) * 2 ^ 149)
      with (2 ^ (a + 149) * 2 ^ (b + 149)).
    + apply Z.mul_le_mono_nonneg; lia.
    + rewrite <- Z.mul_assoc, <- !Z.pow_add_r by lia.
      rewrite Z.mul_1_l. f_equal. lia.
  - split; [done|]. split; [done|]. lia.
Qed.

Lemma fadd_bnd a x y :
  -149 <= a <= 102 -> fbnd a x -> fbnd a y -> fbnd (a + 1) (fadd x y).
Proof.
  intros Ha (Hvx & Hfx & Hmx) (Hvy & Hfy & Hmy).
  destruct (fadd_spec x y Hvx Hvy Hfx Hfy) as (Hv & _ & _ & _ & Hbd).
  destruct (Hbd 1%positive (a + 1)) as [Hf Hm].
  - split; [reflexivity|lia].
  - rewrite <- (Fval_abs x), <- (Fval_abs y) in *.
    replace (a + 1 + 149) with (1 + (a + 149)) by lia.
    rewrite Z.pow_add_r by lia. lia.
  - rewrite Fval_abs in Hm. split; [done|]. split; [done|]. lia.
Qed.

Lemma fadd_valid x y :
  fvalid x = true -> fvalid y = true -> fvalid (fadd x y) = true.
Proof.
  intros Hvx Hvy.
  destruct (is_finite x) eqn:Hfx, (is_finite y) eqn:Hfy.
  - by destruct (fadd_spec x y Hvx Hvy Hfx Hfy) as (Hv & _).
  - destruct x as [sx|sx| |sx mx ex], y as [sy|sy| |sy my ey]; try done.
  - destruct x as [sx|sx| |sx mx ex], y as [sy|sy| |sy my ey]; try done.
  - destruct x as [sx|sx| |sx mx ex], y as [sy|sy| |sy my ey]; try done;
      by destruct sx, sy.
Qed.

Lemma fadd_not_nan_r x y :
  is_nan x = false -> is_finite y = true -> is_nan (fadd x y) = false.
Proof.
  intros Hx Hy. destruct (is_finite x) eqn:Hfx.
  - apply fadd_not_nan; [done|]. by destruct y.
  - destruct x as [sx|sx| |sx mx ex], y as [sy|sy| |sy my ey]; done.
Qed.

Lemma coord_ok_fadd k p x : coord_ok p -> fbnd k x -> coord_ok (fadd p x).
Proof.
  intros [Hv Hn] (Hvx & Hfx & _). split.
  - by apply fadd_valid.
  - by apply fadd_not_nan_r.
Qed.

Lemma fbnd_coord_ok k x : fbnd k x -> coord_ok x.
Proof. intros (Hv & Hf & _). split; [done|]. by destruct x. Qed.

(** *** Conversions from [int] and quotients of them *)

(** Rounding does not go below a power of two that the exact value
    reaches. *)
Lemma binary_round_lower s p e c :
  -149 <= e -> -149 <= c ->
  2 ^ (c + 149) <= Z.pos p * 2 ^ (e + 149) ->
  is_finite (binary_round prec emax s p e) = true ->
  2 ^ (c + 149) <= Fmag (binary_round prec emax s p e).
Proof.
  intros He Hc Hle. unfold binary_round.
  pose proof (shl_align_spec p e (fexp prec emax (Z.pos (digits2_pos p) + e)))
    as (Hz1 & Hz2 & Hz3). cbv zeta in *.
  destruct (shl_align p e _) as [mz ez]. simpl in Hz1, Hz2, Hz3.
  set (E := fexp prec emax (Z.pos (digits2_pos p) + e)) in *.
  pose proof (binary_round_aux_aligned s mz ez) as Hal. cbv zeta in Hal.
  rewrite Hz3 in Hal. fold E in Hal.
  destruct Hal as (m2 & m3 & e3 & Hres & Hm3 & He3 & HE & Hr3 & Hcan & Hfloor & _);
    [lia|].
  rewrite Hres. clear Hres. intros Hfin.
  pose proof (digits2_bounds p) as [Hdlo Hdhi].
  set (d := Z.pos (digits2_pos p)) in *.
  assert (HE' : E = Z.max (d + e - 24) (-149)) by apply fexp32.
  assert (Hcd : c <= d + e - 1).
  { destruct (Z.le_gt_cases c (d + e - 1)) as [|Hgt]; [done|exfalso].
    assert (Hp : 2 ^ (d + (e + 149)) <= 2 ^ (c + 149))
      by (apply Z.pow_le_mono_r; lia).
    rewrite Z.pow_add_r in Hp by lia.
    assert (0 < 2 ^ (e + 149)) by (apply Z.pow_pos_nonneg; lia). nia. }
  assert (Hm2 : 2 ^ (c + 149) <= m2 * 2 ^ (E + 149)).
  { destruct (Z.le_gt_cases E e) as [HEe|HEe].
    - replace ez with E in * by lia.
      assert (Z.pos mz <= m2).
      { apply Hfloor. rewrite Z.sub_diag. lia. }
      assert (0 < 2 ^ (E + 149)) by (apply Z.pow_pos_nonneg; lia).
      assert (Z.pos mz * 2 ^ (E + 149) = Z.pos p * 2 ^ (e + 149)).
      { rewrite Hz2, <- Z.mul_assoc, <- Z.pow_add_r by lia.
        do 2 f_equal. lia. }
      nia.
    - replace ez with e in * by lia.
      rewrite Z.sub_diag, Z.mul_1_r in Hz2.
      assert (2 ^ 23 <= m2).
      { apply Hfloor. rewrite Hz2, <- Z.pow_add_r by lia.
        replace (23 + (E - e)) with (d - 1) by lia. done. }
      assert (Hp : 2 ^ (c + 149) <= 2 ^ (23 + (E + 149)))
        by (apply Z.pow_le_mono_r; lia).
      rewrite (Z.pow_add_r 2 23) in Hp by lia.
      assert (0 < 2 ^ (E + 149)) by (apply Z.pow_pos_nonneg; lia).
      nia. }
  assert (Hpos : 0 < 2 ^ (c + 149)) by (apply Z.pow_pos_nonneg; lia).
  subst m2. unfold round_result in *. destruct m3 as [|m3|m3]; [lia| |lia].
  destruct (e3 <=? emax - prec); [|done]. simpl.
  replace (e3 + 149) with ((e3 - E) + (E + 149)) by lia.
  rewrite (Z.pow_add_r 2 (e3 - E)) by lia. lia.
Qed.

(** [(float)n] for a positive [int]: at least 1 and at most [2^31]. *)
Lemma float_of_int_pos n :
  0 < n < 2 ^ 31 ->
  fbnd 31 (float_of_int n) /\ 2 ^ 149 <= Fmag (float_of_int n).
Proof.
  intros Hn. unfold float_of_int.
  destruct (binary_normalize_spec n 0 ltac:(lia)) as (Hv & _ & _ & _ & Hb).
  destruct (Hb 1%positive 31) as [Hf Hm].
  { split; [reflexivity|lia]. }
  { change (2 ^ (0 + 149)) with (2 ^ 149).
    change (2 ^ (31 + 149)) with (2 ^ 31 * 2 ^ 149). lia. }
  rewrite Fval_abs in Hm. split.
  - split; [done|]. split; [done|]. lia.
  - destruct n as [|p|p]; try lia. simpl binary_normalize in *.
    apply (binary_round_lower false p 0 0); try done; lia.
Qed.

Lemma float_of_int_zero : float_of_int 0 = S754_zero false.
Proof. reflexivity. Qed.

(** * Rounding to nearest, ties to even *)

Lemma shr_1_precise m r s :
  0 <= m ->
  shr_1 (Build_shr_record m r s) =
    Build_shr_record (m / 2) (Z.odd m) (r || s).
Proof.
  intros Hm. destruct m as [|[p|p|]|p]; try lia; simpl.
  - reflexivity.
  - f_equal. rewrite Pos2Z.inj_xI. apply Z.div_unique with 1; lia.
  - f_equal. rewrite Pos2Z.inj_xO. apply Z.div_unique with 0; lia.
  - reflexivity.
Qed.

Lemma mod_pow2_succ m k :
  0 <= k ->
  m mod 2 ^ (k + 1) = m mod 2 ^ k + 2 ^ k * ((m / 2 ^ k) mod 2).
Proof.
  intros Hk. rewrite Z.pow_add_r by lia. change (2 ^ 1) with 2.
  apply Z.rem_mul_r; [|lia]. apply Z.pow_nonzero; lia.
Qed.

(** The record after [k + 1] shifts of an exact one: the quotient, the bit
    just below it, and whether any lower bit is set. *)
Lemma shr_iter_precise k m :
  0 <= m ->
  Nat.iter (S k) shr_1 (Build_shr_record m false false) =
    Build_shr_record (m / 2 ^ Z.of_nat (S k))
      (Z.odd (m / 2 ^ Z.of_nat k))
      (negb (m mod 2 ^ Z.of_nat k =? 0)).
Proof.
  intros Hm. induction k as [|k IH].
  - change (Nat.iter 1 shr_1 ?x) with (shr_1 x).
    rewrite shr_1_precise by done.
    change (2 ^ Z.of_nat 1) with 2. change (2 ^ Z.of_nat 0) with 1.
    by rewrite Z.div_1_r, Z.mod_1_r.
  - change (Nat.iter (S (S k)) shr_1 ?x) with (shr_1 (Nat.iter (S k) shr_1 x)).
    rewrite IH. rewrite shr_1_precise by (apply Z.div_pos; lia).
    rewrite (Nat2Z.inj_succ (S k)), (Nat2Z.inj_succ k).
    set (K := Z.of_nat k). assert (HK : 0 <= K) by lia.
    assert (Hp : 0 < 2 ^ K) by (apply Z.pow_pos_nonneg; lia).
    assert (Hp1 : 0 < 2 ^ Z.succ K) by (apply Z.pow_pos_nonneg; lia).
    f_equal.
    + rewrite (Z.pow_succ_r 2 (Z.succ K)) by lia.
      rewrite Z.div_div by lia. f_equal. lia.
    + replace (Z.succ K) with (K + 1) by lia.
      rewrite (mod_pow2_succ m K HK).
      pose proof (Z.mod_pos_bound m (2 ^ K) Hp) as Hr.
      rewrite (Zmod_odd (m / 2 ^ K)).
      destruct (Z.odd (m / 2 ^ K)); simpl.
      * symmetry. apply negb_true_iff, Z.eqb_neq. lia.
      * by rewrite Z.mul_0_r, Z.add_0_r.
Qed.

Lemma rne_bounds m k :
  0 <= m -> m / 2 ^ k <= rne m k <= m / 2 ^ k + 1 \/ k <= 0.
Proof.
  intros Hm. destruct (Z.le_gt_cases k 0) as [|Hk]; [by right|left].
  unfold rne. cbv zeta. destruct (k <=? 0) eqn:Hk0; [apply Z.leb_le in Hk0; lia|].
  destruct (_ <? _); [lia|]. destruct (_ =? _); [|lia].
  destruct (Z.even _); lia.
Qed.

(** Rounding to nearest is monotone. *)
Lemma rne_mono m m' k : 0 <= m <= m' -> rne m k <= rne m' k.
Proof.
  intros Hm. unfold rne. cbv zeta. destruct (k <=? 0) eqn:Hk; [lia|].
  apply Z.leb_gt in Hk.
  assert (Hp : 0 < 2 ^ k) by (apply Z.pow_pos_nonneg; lia).
  pose proof (Z.div_mod m (2 ^ k) ltac:(lia)) as H1.
  pose proof (Z.div_mod m' (2 ^ k) ltac:(lia)) as H2.
  pose proof (Z.mod_pos_bound m (2 ^ k) Hp) as Hr1.
  pose proof (Z.mod_pos_bound m' (2 ^ k) Hp) as Hr2.
  pose proof (Z.div_le_mono m m' (2 ^ k) Hp ltac:(lia)) as Hf.
  set (f := m / 2 ^ k) in *. set (f' := m' / 2 ^ k) in *.
  set (r := m mod 2 ^ k) in *. set (r' := m' mod 2 ^ k) in *.
  set (half := 2 ^ (k - 1)).
  destruct (decide (f = f')) as [Heq|Hne].
  - rewrite <- Heq in *. assert (r <= r') by lia.
    destruct (r <? half) eqn:C1, (r' <? half) eqn:C2,
             (r =? half) eqn:C3, (r' =? half) eqn:C4;
      try destruct (Z.even f); lia.
  - assert (f + 1 <= f') by lia.
    destruct (r <? half), (r' <? half), (r =? half), (r' =? half);
      try destruct (Z.even f); try destruct (Z.even f'); lia.
Qed.

(** The mantissa kept of an exact one is its quotient rounded to nearest,
    ties to even. *)
Lemma rounded_exact m e :
  0 <= m ->
  rounded m e loc_Exact = rne m (fexp prec emax (Zdigits2 m + e) - e).
Proof.
  intros Hm. unfold rounded, shr_fexp, shr.
  set (n := fexp prec emax (Zdigits2 m + e) - e).
  destruct n as [|p|p] eqn:Hn.
  - reflexivity.
  - cbn [fst]. rewrite iter_pos_nat.
    destruct (Pos.to_nat p) as [|k] eqn:Hk; [lia|].
    simpl shr_record_of_loc. rewrite shr_iter_precise by done.
    replace (Z.pos p) with (Z.of_nat (S k)) by lia.
    assert (HK : 0 <= Z.of_nat k) by lia.
    set (K := Z.of_nat k) in *.
    replace (Z.of_nat (S k)) with (K + 1) by lia.
    unfold rne. cbv zeta.
    destruct (K + 1 <=? 0) eqn:Hle; [apply Z.leb_le in Hle; lia|].
    replace (K + 1 - 1) with K by lia.
    rewrite (mod_pow2_succ m K HK).
    assert (Hp : 0 < 2 ^ K) by (apply Z.pow_pos_nonneg; lia).
    pose proof (Z.mod_pos_bound m (2 ^ K) Hp) as Hr.
    rewrite (Zmod_odd (m / 2 ^ K)).
    set (f := m / 2 ^ (K + 1)). set (r0 := m mod 2 ^ K) in *.
    cbn [shr_m]. unfold loc_of_shr_record.
    destruct (Z.odd (m / 2 ^ K)); simpl.
    + destruct (r0 =? 0) eqn:H0; simpl.
      * apply Z.eqb_eq in H0. rewrite H0, Z.add_0_l, Z.mul_1_r.
        rewrite Z.ltb_irrefl, Z.eqb_refl. reflexivity.
      * apply Z.eqb_neq in H0.
        destruct (_ <? _) eqn:C1; [apply Z.ltb_lt in C1; lia|].
        destruct (_ =? _) eqn:C2; [apply Z.eqb_eq in C2; lia|]. reflexivity.
    + rewrite Z.mul_0_r, Z.add_0_r.
      destruct (r0 <? 2 ^ K) eqn:C1; [|apply Z.ltb_ge in C1; lia].
      by destruct (r0 =? 0).
  - reflexivity.
Qed.

(** *** The magnitude of a rounded value *)

(** The magnitude of [binary_round]: the mantissa aligned on the exponent
    [E] of the result and rounded to nearest. *)
Lemma binary_round_Fmag s p e :
  let E := fexp prec emax (Z.pos (digits2_pos p) + e) in
  E <= 103 ->
  Fmag (binary_round prec emax s p e) =
    rne (Z.pos p * 2 ^ (e - Z.min e E)) (E - Z.min e E) * 2 ^ (E + 149).
Proof.
  intros E HE. unfold binary_round.
  pose proof (shl_align_spec p e E) as (Hz1 & Hz2 & Hz3). cbv zeta in *.
  fold E. destruct (shl_align p e E) as [mz ez]. simpl in Hz1, Hz2, Hz3.
  subst ez. rewrite <- Hz2.
  pose proof (binary_round_aux_aligned_loc s mz (Z.min e E) loc_Exact) as Hal.
  cbv zeta in Hal. rewrite Hz3 in Hal. fold E in Hal.
  destruct Hal as (m2 & m3 & e3 & Hrd & Hres & Hm3 & He3 & HE' & Hr3 & _);
    [lia|].
  rewrite Hres. rewrite rounded_exact in Hrd by lia.
  change (Zdigits2 (Z.pos mz)) with (Z.pos (digits2_pos mz)) in Hrd.
  rewrite Hz3 in Hrd. fold E in Hrd. rewrite <- Hrd, <- Hm3.
  unfold round_result. destruct m3 as [|q|q]; [done| |lia].
  change (emax - prec) with 104.
  destruct (e3 <=? 104) eqn:Hle; [|apply Z.leb_gt in Hle; lia].
  simpl Fmag. rewrite <- Z.mul_assoc, <- Z.pow_add_r by lia.
  do 2 f_equal. lia.
Qed.

(** [(float)n] of a positive [int] below [2^24] is exact; above, it is
    [n] rounded to 24 digits. *)
Lemma float_of_int_Fmag n :
  0 < n < 2 ^ 31 ->
  let d := Z.log2 n + 1 in
  Fmag (float_of_int n) =
    if d <=? 24 then n * 2 ^ 149
    else rne n (d - 24) * 2 ^ (d - 24 + 149).
Proof.
  intros Hn d. destruct n as [|p|p]; try lia.
  unfold float_of_int. simpl binary_normalize.
  assert (Hd : d = Z.pos (digits2_pos p)) by (subst d; by rewrite digits2_log2).
  pose proof (digits2_bounds p) as [Hlo Hhi]. rewrite <- Hd in Hlo, Hhi.
  assert (Hd1 : 1 <= d) by (subst d; pose proof (Z.log2_nonneg (Z.pos p)); lia).
  assert (Hd31 : d <= 31).
  { destruct (Z.le_gt_cases d 31) as [|Hgt]; [done|exfalso].
    assert (2 ^ 31 <= 2 ^ (d - 1)) by (apply Z.pow_le_mono_r; lia). lia. }
  pose proof (binary_round_Fmag false p 0) as HF. cbv zeta in HF.
  rewrite fexp32, <- Hd in HF. rewrite Z.add_0_r in HF.
  replace (Z.max (d - 24) (-149)) with (d - 24) in HF by lia.
  rewrite HF by lia. clear HF.
  destruct (d <=? 24) eqn:Hc.
  - apply Z.leb_le in Hc. replace (Z.min 0 (d - 24)) with (d - 24) by lia.
    rewrite Z.sub_diag. change (rne ?m 0) with m.
    rewrite <- Z.mul_assoc, <- Z.pow_add_r by lia. do 2 f_equal. lia.
  - apply Z.leb_gt in Hc. replace (Z.min 0 (d - 24)) with 0 by lia.
    rewrite !Z.sub_0_r. change (2 ^ 0) with 1. by rewrite Z.mul_1_r.
Qed.

(** [(float)] is monotone on the positive [int]s. *)
Lemma float_of_int_mono n N :
  0 < n -> n <= N -> N < 2 ^ 31 ->
  Fmag (float_of_int n) <= Fmag (float_of_int N).
Proof.
  intros Hn HnN HN.
  rewrite (float_of_int_Fmag n), (float_of_int_Fmag N) by lia. cbv zeta.
  pose proof (Z.log2_le_mono n N HnN) as Hdd.
  pose proof (Z.log2_spec n Hn) as [Hnlo Hnhi].
  pose proof (Z.log2_spec N ltac:(lia)) as [HNlo HNhi].
  pose proof (Z.log2_nonneg n) as Hn0. pose proof (Z.log2_nonneg N) as HN0.
  set (a := Z.log2 n) in *. set (b := Z.log2 N) in *.
  assert (HP : 0 < 2 ^ 149) by lia.
  destruct (a + 1 <=? 24) eqn:Ca, (b + 1 <=? 24) eqn:Cb.
  - apply Z.mul_le_mono_nonneg_r; lia.
  - apply Z.leb_le in Ca. apply Z.leb_gt in Cb.
    set (E := b + 1 - 24). assert (HE : 0 < E) by (subst E; lia).
    assert (HpE : 0 < 2 ^ E) by (apply Z.pow_pos_nonneg; lia).
    destruct (rne_bounds N E ltac:(lia)) as [[Hrl _]|]; [|lia].
    assert (Hq : 2 ^ 23 <= N / 2 ^ E).
    { apply Z.div_le_lower_bound; [done|].
      rewrite Z.mul_comm, <- Z.pow_add_r by lia.
      replace (23 + E) with b by (subst E; lia). done. }
    assert (Hn24 : n < 2 ^ 24).
    { eapply Z.lt_le_trans; [exact Hnhi|]. apply Z.pow_le_mono_r; lia. }
    rewrite (Z.pow_add_r 2 E 149) by lia.
    assert (H2E : 2 ^ 1 <= 2 ^ E) by (apply Z.pow_le_mono_r; lia).
    assert (2 ^ 23 * 2 ^ 1 <= rne N E * 2 ^ E)
      by (apply Z.mul_le_mono_nonneg; lia).
    rewrite Z.mul_assoc. apply Z.mul_le_mono_nonneg_r; lia.
  - apply Z.leb_gt in Ca. apply Z.leb_le in Cb. lia.
  - apply Z.leb_gt in Ca. apply Z.leb_gt in Cb.
    set (En := a + 1 - 24). set (E := b + 1 - 24).
    assert (HEn : 0 < En) by (subst En; lia).
    assert (HE : En <= E) by (subst En E; lia).
    assert (HpEn : 0 < 2 ^ En) by (apply Z.pow_pos_nonneg; lia).
    assert (HpE : 0 < 2 ^ E) by (apply Z.pow_pos_nonneg; lia).
    rewrite (Z.pow_add_r 2 En 149), (Z.pow_add_r 2 E 149) by lia.
    rewrite !Z.mul_assoc. apply Z.mul_le_mono_nonneg_r; [lia|].
    destruct (decide (En = E)) as [Heq|Hne].
    + rewrite Heq. apply Z.mul_le_mono_nonneg_r; [lia|].
      apply rne_mono. lia.
    + destruct (rne_bounds n En ltac:(lia)) as [[_ Hru]|]; [|lia].
      destruct (rne_bounds N E ltac:(lia)) as [[Hrl _]|]; [|lia].
      assert (Hq : 2 ^ 23 <= N / 2 ^ E).
      { apply Z.div_le_lower_bound; [done|].
        rewrite Z.mul_comm, <- Z.pow_add_r by lia.
        replace (23 + E) with b by (subst E; lia). done. }
      assert (Hqn : n / 2 ^ En < 2 ^ 24).
      { apply Z.div_lt_upper_bound; [done|].
        rewrite <- Z.pow_add_r by lia.
        replace (En + 24) with (Z.succ a) by (subst En; lia). done. }
      assert (H1 : rne n En * 2 ^ En <= 2 ^ 24 * 2 ^ En)
        by (apply Z.mul_le_mono_nonneg_r; lia).
      assert (H2 : 2 ^ 23 * 2 ^ E <= rne N E * 2 ^ E)
        by (apply Z.mul_le_mono_nonneg_r; lia).
      assert (H3 : 2 ^ 24 * 2 ^ En <= 2 ^ 23 * 2 ^ E).
      { rewrite <- !Z.pow_add_r by lia. apply Z.pow_le_mono_r; lia. }
      lia.
Qed.

(** *** Comparisons from values *)

Lemma Fval_fle x y :
  fvalid x = true -> fvalid y = true ->
  is_finite x = true -> is_finite y = true ->
  Fval x <= Fval y -> fle x y = true.
Proof.
  intros Hvx Hvy Hfx Hfy.
  destruct x as [sx|sx| |sx mx ex], y as [sy|sy| |sy my ey]; try done.
  - apply fvalid_finite in Hvy as (Hmy & Hey & _).
    rewrite Fval_zero. pose proof (Fmag_finite_pos sy my ey ltac:(lia)).
    unfold fle, SFleb, Fval. simpl SFcompare. simpl Fsign.
    destruct sy; [lia|done].
  - apply fvalid_finite in Hvx as (Hmx & Hex & _).
    rewrite Fval_zero. pose proof (Fmag_finite_pos sx mx ex ltac:(lia)).
    unfold fle, SFleb, Fval. simpl SFcompare. simpl Fsign.
    destruct sx; [done|lia].
  - apply fvalid_finite in Hvx as (Hmx & Hex & Hnx).
    apply fvalid_finite in Hvy as (Hmy & Hey & Hny).
    pose proof (Fmag_finite_pos sx mx ex ltac:(lia)).
    pose proof (Fmag_finite_pos sy my ey ltac:(lia)).
    assert (0 < 2 ^ (ex + 149)) by (apply Z.pow_pos_nonneg; lia).
    assert (0 < 2 ^ (ey + 149)) by (apply Z.pow_pos_nonneg; lia).
    unfold fle, SFleb, Fval. simpl SFcompare. simpl Fsign. simpl Fmag in *.
    destruct sx, sy; try done; try lia.
    + destruct (ex ?= ey) eqn:Hc.
      * apply Z.compare_eq in Hc as ->. fold (Pos.compare mx my).
        destruct (mx ?= my)%positive eqn:Hm; simpl; try done; intros Hle.
        change (mx < my)%positive in Hm.
        assert (Z.pos mx * 2 ^ (ey + 149) < Z.pos my * 2 ^ (ey + 149))
          by (apply Z.mul_lt_mono_pos_r; lia).
        lia.
      * intros Hle. change (ex < ey) in Hc.
        assert (Z.pos mx * 2 ^ (ex + 149) < Z.pos my * 2 ^ (ey + 149));
          [|lia].
        apply mag_lt_exp; lia.
      * done.
    + destruct (ex ?= ey) eqn:Hc.
      * apply Z.compare_eq in Hc as ->. fold (Pos.compare mx my).
        destruct (mx ?= my)%positive eqn:Hm; simpl; try done; intros Hle.
        apply Pos.compare_gt_iff in Hm.
        assert (Z.pos my * 2 ^ (ey + 149) < Z.pos mx * 2 ^ (ey + 149))
          by (apply Z.mul_lt_mono_pos_r; lia).
        lia.
      * done.
      * intros Hle. apply Z.compare_gt_iff in Hc.
        assert (Z.pos my * 2 ^ (ey + 149) < Z.pos mx * 2 ^ (ex + 149));
          [|lia].
        apply mag_lt_exp; lia.
Qed.

(** A valid finite float of sign [+] and magnitude at most [2^k] lies
    between 0 and [2^k]. *)
Lemma fbnd_fle k c f :
  fbnd k f -> Fsign f = false ->
  fvalid c = true -> is_finite c = true -> Fval c = 2 ^ (k + 149) ->
  fle fzero f = true /\ fle f c = true.
Proof.
  intros (Hv & Hf & Hm) Hs Hvc Hfc Hc.
  assert (HF : Fval f = Fmag f) by (unfold Fval; by rewrite Hs).
  pose proof (Fmag_nonneg f). split; apply Fval_fle; try done.
  - change (Fval fzero) with 0. lia.
  - lia.
Qed.

Section RandomRange.
Variable lc : Libc.
Hypothesis Hmax : 0 < RAND_MAX lc < 2 ^ 31.

Lemma float_of_int_sign n : 0 <= n -> Fsign (float_of_int n) = false.
Proof.
  intros Hn. unfold float_of_int. destruct n as [|p|p]; [done| |lia].
  simpl binary_normalize.
  by destruct (binary_round_mag false p 0 ltac:(lia)) as (_ & _ & Hs & _).
Qed.

(** [RandomFloat01] is well formed, of sign [+] and at most 1. *)
Lemma RandomFloat01_unit k :
  0 <= rand_at lc k <= RAND_MAX lc ->
  fbnd 0 (fst (RandomFloat01 lc k)) /\ Fsign (fst (RandomFloat01 lc k)) = false.
Proof.
  intros Hk. unfold RandomFloat01. cbn [fst].
  set (n := rand_at lc k) in *. set (N := RAND_MAX lc) in *.
  destruct (float_of_int_pos N Hmax) as [(Hvy & Hfy & Hmy) Hly].
  pose proof (float_of_int_sign N ltac:(lia)) as Hsy.
  destruct (decide (n = 0)) as [->|Hn0].
  { rewrite float_of_int_zero.
    destruct (float_of_int N) as [sy|sy| |sy my ey]; try done;
      simpl in Hly; lia. }
  destruct (float_of_int_pos n ltac:(lia)) as [(Hvx & Hfx & Hmx) Hlx].
  pose proof (float_of_int_sign n ltac:(lia)) as Hsx.
  pose proof (float_of_int_mono n N ltac:(lia) ltac:(lia) ltac:(lia)) as Hmono.
  assert (Hp : 2 ^ (31 + 149) = 2 ^ 31 * 2 ^ 149) by (by rewrite Z.pow_add_r).
  destruct (fdiv_spec (float_of_int n) (float_of_int N) Hvx Hvy Hfx Hfy)
    as (Hv & _ & Hs & Hb); [lia|left; lia|].
  destruct (Hb 1%positive 0) as [Hf Hm].
  - split; [reflexivity|lia].
  - rewrite Z.mul_1_l. change (2 ^ (0 + 149)) with (2 ^ 149).
    rewrite (Z.mul_comm (2 ^ 149)). apply Z.mul_le_mono_nonneg_r; lia.
  - rewrite Hsx, Hsy in Hs. split; [|done].
    split; [done|]. split; [done|]. lia.
Qed.

End RandomRange.

(** X13.  [RandomFloat01] returns a value between 0 and 1.  When
    [RAND_MAX] is a positive [int] and [rand()] returns a value between 0
    and [RAND_MAX], the quotient [(float)rand() / (float)RAND_MAX] is a
    well-formed binary32 value with 0 <= value <= 1, although both
    conversions to [float] may round. *)
Theorem RandomFloat01_range lc k :
  0 < RAND_MAX lc < 2 ^ 31 -> 0 <= rand_at lc k <= RAND_MAX lc ->
  let r := fst (RandomFloat01 lc k) in
  fvalid r = true /\ fle fzero r = true /\ fle r (float_of_int 1) = true.
Proof.
  intros Hmax Hk r.
  destruct (RandomFloat01_unit lc Hmax k Hk) as [Hb Hs]. fold r in Hb, Hs.
  split; [by destruct Hb|]. by apply (fbnd_fle 0).
Qed.

Lemma RandomFloat01_range_witness :
  fvalid (fst (RandomFloat01 (mkLibc 2147483647 (fun _ => 2147483646)
                                (fun _ => fzero) (fun _ => fzero)) 0)) = true /\
  fle fzero (fst (RandomFloat01 (mkLibc 2147483647 (fun _ => 2147483646)
                                   (fun _ => fzero) (fun _ => fzero)) 0)) = true /\
  fle (fst (RandomFloat01 (mkLibc 2147483647 (fun _ => 2147483646)
                             (fun _ => fzero) (fun _ => fzero)) 0))
      (float_of_int 1) = true.
Proof.
  apply (RandomFloat01_range
           (mkLibc 2147483647 (fun _ => 2147483646)
              (fun _ => fzero) (fun _ => fzero)) 0%nat); simpl; lia.
Defined.

(** * Frames that complete *)

(** *** The Motion System on a calm store *)

Lemma step_axis_calm lo hi dt p v :
  world_axis lo hi -> fbnd 32 dt -> coord_ok p -> fbnd 32 v ->
  let r := MoveSystem.step_axis lo hi dt p v in
  in_range lo hi (fst r) = true /\ fvalid (fst r) = true /\ fbnd 32 (snd r).
Proof.
  intros Hax Hdt Hp Hv r.
  assert (Hx : fbnd 64 (fmul v dt)) by (by apply (fmul_bnd 32 32)).
  assert (Hp1 : coord_ok (fadd p (fmul v dt))) by (by eapply coord_ok_fadd).
  split; [|split].
  - apply step_axis_in_range; [done|]. by destruct Hp1.
  - subst r. unfold MoveSystem.step_axis, MoveSystem.reflect. cbv zeta.
    cbn [fst snd].
    assert (Hc : fvalid (float_of_int lo) = true /\
                 fvalid (float_of_int hi) = true)
      by (destruct Hax as [[-> ->]|[-> ->]]; by vm_compute).
    destruct Hc as [Hl Hh]. destruct Hp1 as [Hv1 _].
    destruct (flt _ (float_of_int lo)); cbn [fst snd];
      destruct (flt (float_of_int hi) _); cbn [fst snd]; done.
  - pose proof (step_axis_velocity lo hi dt p v) as Hvel. cbv zeta in Hvel.
    fold r in Hvel.
    destruct Hvel as [Hq|[Hq|Hq]]; rewrite Hq; auto using fbnd_fneg.
Qed.

Lemma step_entity_calm dt pos move :
  fbnd 32 dt ->
  coord_ok (pos_x pos) -> coord_ok (pos_y pos) ->
  fbnd 32 (velx move) -> fbnd 32 (vely move) ->
  let r := MoveSystem.step_entity dt pos move in
  (position_valid (fst r) = true /\ in_bounds (fst r) = true) /\
  (fbnd 32 (velx (snd r)) /\ fbnd 32 (vely (snd r))).
Proof.
  intros Hdt Hpx Hpy Hvx Hvy r. subst r.
  unfold MoveSystem.step_entity. cbv zeta. cbn [fst snd].
  destruct (step_axis_calm (xMin s_WorldBounds) (xMax s_WorldBounds) dt
              (pos_x pos) (velx move)) as (Hx1 & Hx2 & Hx3);
    [by left|done..|].
  destruct (step_axis_calm (yMin s_WorldBounds) (yMax s_WorldBounds) dt
              (pos_y pos) (vely move)) as (Hy1 & Hy2 & Hy3);
    [by right|done..|].
  cbv zeta in *.
  unfold position_valid, in_bounds. cbn [pos_x pos_y velx vely].
  rewrite Hx1, Hx2, Hy1, Hy2. done.
Qed.

Lemma in_bounds_coord_ok p :
  position_valid p = true -> in_bounds p = true ->
  coord_ok (pos_x p) /\ coord_ok (pos_y p).
Proof.
  intros Hv Hb. apply andb_true_iff in Hv as [Hvx Hvy].
  apply andb_true_iff in Hb as [Hbx Hby].
  pose proof (in_range_finite _ _ _ (or_introl (conj eq_refl eq_refl)) Hbx).
  pose proof (in_range_finite _ _ _ (or_intror (conj eq_refl eq_refl)) Hby).
  split; (split; [done|]).
  - by destruct (pos_x p).
  - by destruct (pos_y p).
Qed.

Lemma move_calm cfg dt s :
  store_sized cfg s -> calm s -> fbnd 32 dt ->
  exists s',
    MoveSystem.UpdateSystem cfg dt s = Some s' /\
    store_sized cfg s' /\ calm s' /\
    forall i p, m_Positions s' !! i = Some p ->
      position_valid p = true /\ in_bounds p = true.
Proof.
  intros Hs Hcalm Hdt.
  destruct (move_update_spec cfg dt s Hs) as (s' & Hrun & Hs' & _ & _ & Hi).
  exists s'. split; [done|]. split; [done|].
  assert (Hall : forall i p m,
    m_Positions s' !! i = Some p -> m_Moves s' !! i = Some m ->
    (position_valid p = true /\ in_bounds p = true) /\
    (fbnd 32 (velx m) /\ fbnd 32 (vely m))).
  { intros i p m Hp Hm.
    assert (Hlt : (i < kObjectCount cfg + kAvoidCount cfg)%nat).
    { apply lookup_lt_Some in Hp. destruct Hs' as (Hl1 & _). lia. }
    destruct (Hi i Hlt) as (p0 & m0 & Hp0 & Hm0 & Hp' & Hm').
    destruct (Hcalm i p0 m0 Hp0 Hm0) as [[Hcx Hcy] [Hvx Hvy]].
    rewrite Hp in Hp'. rewrite Hm in Hm'. simplify_eq.
    by apply step_entity_calm. }
  split.
  - intros i p m Hp Hm. destruct (Hall i p m Hp Hm) as [[Hv Hb] Hvel].
    split; [by apply in_bounds_coord_ok|done].
  - intros i p Hp.
    destruct (lookup_lt_is_Some_2 (m_Moves s') i) as [m Hm].
    { apply lookup_lt_Some in Hp. destruct Hs' as (Hl1 & _ & Hl3). lia. }
    by destruct (Hall i p m Hp Hm).
Qed.

Section AvoidCalm.
Import AvoidanceSystem.

Lemma kOvershoot_bnd : fbnd 1 kOvershoot.
Proof. by vm_compute. Qed.

Lemma nudge_bnd v dt :
  fbnd 32 v -> fbnd 32 dt -> fbnd 65 (fmul (fmul (fneg v) dt) kOvershoot).
Proof.
  intros Hv Hdt. apply (fmul_bnd 64 1); [lia..| |apply kOvershoot_bnd].
  apply (fmul_bnd 32 32); [lia..| |done]. by apply fbnd_fneg.
Qed.

Lemma calm_insert s io p sp m :
  calm s ->
  coord_ok (pos_x p) -> coord_ok (pos_y p) ->
  fbnd 32 (velx m) -> fbnd 32 (vely m) ->
  calm (mkEntities (<[io := p]> (m_Positions s)) sp
         (<[io := m]> (m_Moves s)) (m_IdGenerator s)).
Proof.
  intros Hc Hx Hy Hvx Hvy i p' m' Hp Hm. simpl in *.
  destruct (decide (i = io)) as [->|Hne].
  - apply list_lookup_insert_Some in Hp as [(_ & <- & _)|[? _]]; [|done].
    apply list_lookup_insert_Some in Hm as [(_ & <- & _)|[? _]]; [|done].
    done.
  - rewrite list_lookup_insert_ne in Hp by done.
    rewrite list_lookup_insert_ne in Hm by done.
    by apply (Hc i).
Qed.

Lemma check_calm cfg dt g io hash ia s s' :
  fbnd 32 dt -> calm s -> check cfg dt g io hash ia s = Some s' -> calm s'.
Proof.
  intros Hdt Hc. unfold check.
  destruct (negb _); [done|].
  destruct (m_Positions s !! io) as [myp|] eqn:Hmy; simpl; [|done].
  destruct (m_Positions s !! avoidEntityGrid g hash ia) as [avp|]; simpl;
    [|done].
  destruct (too_close avp myp); [|by intros [= <-]].
  destruct (m_Moves s !! io) as [mv|] eqn:Hmv; simpl; [|done].
  destruct (m_Sprites s !! avoidEntityGrid g hash ia) as [asp|]; simpl;
    [|done].
  destruct (m_Sprites s !! io) as [msp|]; simpl; [|done].
  intros [= <-].
  destruct (Hc io myp mv Hmy Hmv) as [[Hx Hy] [Hvx Hvy]].
  apply calm_insert; cbn [pos_x pos_y velx vely]; try done.
  - eapply coord_ok_fadd; [done|]. by apply nudge_bnd.
  - eapply coord_ok_fadd; [done|]. by apply nudge_bnd.
  - by apply fbnd_fneg.
  - by apply fbnd_fneg.
Qed.

Lemma query_body_calm cfg dt g io s s' :
  fbnd 32 dt -> calm s -> query_body cfg dt g io s = Some s' -> calm s'.
Proof.
  intros Hdt Hc. unfold query_body.
  destruct (m_Positions s !! io) as [myp|]; simpl; [|done].
  destruct (negb _); [done|].
  apply foldM_invariant; [|done].
  intros ia t t' _ Ht. by apply check_calm.
Qed.

Lemma avoidance_calm cfg dt grid s s' grid' :
  fbnd 32 dt -> calm s ->
  UpdateSystem cfg dt grid s = Some (s', grid') -> calm s'.
Proof.
  intros Hdt Hc. unfold UpdateSystem.
  destruct (build cfg (m_Positions s) grid) as [g|]; simpl; [|done].
  destruct (foldM _ _ s) as [s2|] eqn:Hq; simpl; [|done].
  intros [= <- <-]. revert Hq. apply foldM_invariant; [|done].
  intros io t t' _ Ht. by apply query_body_calm.
Qed.

(** The Avoidance System pass completes on a store whose positions are
    within the world bounds. *)
Lemma avoidance_total cfg dt grid s :
  config_ok cfg -> store_sized cfg s ->
  (forall i p, m_Positions s !! i = Some p ->
     position_valid p = true /\ in_bounds p = true) ->
  exists s' grid', UpdateSystem cfg dt grid s = Some (s', grid').
Proof.
  intros Hcfg Hs Hpos.
  assert (Hhaz : hazards_in_bounds cfg (m_Positions s)).
  { intros ia Hia. destruct Hs as (Hl & _).
    destruct (lookup_lt_is_Some_2 (m_Positions s) ia) as [p Hp]; [lia|].
    exists p. split; [done|]. by apply (Hpos ia). }
  destruct (build_total cfg (m_Positions s) grid Hcfg Hhaz) as (g & Hb & Hcnt).
  unfold UpdateSystem. rewrite Hb. simpl.
  destruct (query_total cfg dt g s) as [s' Hq]; try done.
  - by eapply build_bucket_ok.
  - intros h. apply Hcnt.
  - intros io p Hio Hp. destruct (Hpos io p Hp) as [Hv Hin].
    by apply query_hash_lt.
  - rewrite Hq. simpl. by eexists _, _.
Qed.

End AvoidCalm.

(** *** A frame on a calm store *)

Lemma game_update_calm cfg dt gm :
  config_ok cfg -> fbnd 32 dt ->
  store_sized cfg (s_Objects gm) -> calm (s_Objects gm) ->
  exists frame gm',
    game_update cfg dt gm = Some (frame, gm') /\
    store_sized cfg (s_Objects gm') /\ calm (s_Objects gm').
Proof.
  intros Hcfg Hdt Hs Hc.
  destruct (move_calm cfg dt (s_Objects gm) Hs Hc Hdt)
    as (s1 & Hm & Hs1 & Hc1 & Hin).
  destruct (avoidance_total cfg dt (s_Grid gm) s1 Hcfg Hs1 Hin)
    as (s2 & grid & Ha).
  eexists _, _. split; [by apply (game_update_intro cfg dt gm s1 s2 grid)|].
  cbn [s_Objects]. split.
  - apply avoidance_frame in Ha as Hfr.
    destruct Hfr as (Hp2 & Hs2 & Hm2 & _).
    destruct Hs1 as (? & ? & ?). unfold store_sized.
    by rewrite Hp2, Hs2, Hm2.
  - by eapply avoidance_calm.
Qed.

Lemma game_run_calm cfg dts : forall gm,
  config_ok cfg -> Forall (fbnd 32) dts ->
  store_sized cfg (s_Objects gm) -> calm (s_Objects gm) ->
  exists frames gm',
    game_run cfg dts gm = Some (frames, gm') /\
    store_sized cfg (s_Objects gm') /\ calm (s_Objects gm').
Proof.
  induction dts as [|dt dts IH]; intros gm Hcfg Hdts Hs Hc; simpl.
  - by exists [], gm.
  - inversion Hdts as [|? ? Hdt Hdts']; subst.
    destruct (game_update_calm cfg dt gm Hcfg Hdt Hs Hc)
      as (frame & gm1 & -> & Hs1 & Hc1). simpl.
    destruct (IH gm1 Hcfg Hdts' Hs1 Hc1) as (frames & gm' & -> & Hs' & Hc').
    simpl. by exists (frame :: frames), gm'.
Qed.

(** Every frame of a completed run reports the size of the store. *)
Lemma game_run_counts cfg dts : forall gm frames gm',
  game_run cfg dts gm = Some (frames, gm') ->
  length frames = length dts /\
  Forall (fun f => objectCount f =
                   int_of_size (length (m_Positions (s_Objects gm)))) frames.
Proof.
  induction dts as [|dt dts IH]; intros gm frames gm' H.
  - simpl in H. simplify_eq. by split.
  - apply game_run_Some in H as (frame & gm1 & frames' & Hu & Hr & ->).
    apply game_update_frame in Hu as (Hl & _ & _ & _ & Hcount).
    apply IH in Hr as [Hlen Hall]. rewrite Hl in Hall.
    split; [simpl; lia|]. by constructor.
Qed.

Section StartupCalm.
Variable lc : Libc.
Hypothesis Hlc : libc_ok lc.

Lemma RandomFloat01_bnd k : fbnd 0 (fst (RandomFloat01 lc k)).
Proof.
  destruct Hlc as (Hmax & Hrand & _).
  by destruct (RandomFloat01_unit lc Hmax k (Hrand k)).
Qed.

Lemma RandomFloat_bnd a from to k :
  -100 <= a <= 100 -> fbnd a (fsub to from) -> fbnd a from ->
  fbnd (a + 1) (fst (RandomFloat lc from to k)).
Proof.
  intros Ha Hd Hf. unfold RandomFloat. cbv zeta. cbn [fst snd].
  apply fadd_bnd; [lia| |done].
  change a with (0 + a). apply fmul_bnd; [lia..|apply RandomFloat01_bnd|done].
Qed.

(** A speed drawn between two bounds of at most 1/2 apart and at most
    1/2, and the velocity made of it: at most 1 in magnitude. *)
Lemma Initialize_bnd minSpeed maxSpeed k :
  fbnd (-1) (fsub maxSpeed minSpeed) -> fbnd (-1) minSpeed ->
  let mv := fst (Initialize lc minSpeed maxSpeed k) in
  fbnd 0 (velx mv) /\ fbnd 0 (vely mv).
Proof.
  intros Hd Hm mv. subst mv. unfold Initialize. cbv zeta.
  cbn [fst snd velx vely].
  set (r := RandomFloat01 lc k).
  set (angle := fmul (fmul (fst r) (kPi)) (float_of_int 2)).
  assert (Hangle : fbnd (0 + 2 + 1) angle).
  { apply fmul_bnd; [lia..| |by vm_compute].
    apply fmul_bnd; [lia..|apply RandomFloat01_bnd|by vm_compute]. }
  destruct Hangle as (Hva & Hfa & _).
  destruct Hlc as (_ & _ & Htrig).
  destruct (Htrig angle Hva Hfa) as [Hcos Hsin].
  pose proof (RandomFloat_bnd (-1) minSpeed maxSpeed (snd r) ltac:(lia) Hd Hm)
    as Hsp.
  change (-1 + 1) with 0 in Hsp.
  split; by apply (fmul_bnd 0 0); [lia..| |].
Qed.

Lemma world_coord_bnd lo hi k :
  world_axis lo hi ->
  fbnd 9 (fst (RandomFloat lc (float_of_int lo) (float_of_int hi) k)).
Proof.
  intros Hax. apply (RandomFloat_bnd 8); [lia| |];
    destruct Hax as [[-> ->]|[-> ->]]; by vm_compute.
Qed.

Lemma calm_set_entity go pos spr move s s' :
  calm s ->
  coord_ok (pos_x pos) -> coord_ok (pos_y pos) ->
  fbnd 32 (velx move) -> fbnd 32 (vely move) ->
  set_entity go pos spr move s = Some s' -> calm s'.
Proof.
  intros Hc Hx Hy Hvx Hvy. unfold set_entity.
  repeat (destruct (negb _); [done|]). intros [= <-].
  intros i p' m' Hp Hm. simpl in *.
  destruct (decide (i = go)) as [->|Hne].
  - apply list_lookup_insert_Some in Hp as [(_ & <- & _)|[? _]]; [|done].
    apply list_lookup_insert_Some in Hm as [(_ & <- & _)|[? _]]; [|done].
    done.
  - rewrite list_lookup_insert_ne in Hp by done.
    rewrite list_lookup_insert_ne in Hm by done.
    by apply (Hc i).
Qed.

Lemma init_regular_calm cfg i st st' :
  calm (fst st) -> init_regular lc cfg i st = Some st' -> calm (fst st').
Proof.
  intros Hc. unfold init_regular, AddEntity. cbv zeta.
  destruct (set_entity _ _ _ _ _) as [s'|] eqn:Hset; simpl; [|done].
  intros [= <-]. cbn [fst]. revert Hset. apply calm_set_entity.
  - intros j p m Hp Hm. by apply (Hc j).
  - eapply fbnd_coord_ok, world_coord_bnd. by left.
  - eapply fbnd_coord_ok, world_coord_bnd. by right.
  - apply (fbnd_mono 0 32); [lia|]. apply Initialize_bnd; by vm_compute.
  - apply (fbnd_mono 0 32); [lia|]. apply Initialize_bnd; by vm_compute.
Qed.

Lemma init_avoid_calm cfg i st st' :
  calm (fst st) -> init_avoid lc cfg i st = Some st' -> calm (fst st').
Proof.
  intros Hc. unfold init_avoid, AddEntity. cbv zeta.
  destruct (set_entity _ _ _ _ _) as [s'|] eqn:Hset; simpl; [|done].
  intros [= <-]. cbn [fst]. revert Hset. apply calm_set_entity.
  - intros j p m Hp Hm. by apply (Hc j).
  - cbn [pos_x]. apply (fbnd_coord_ok (9 + 0)).
    apply fmul_bnd; [lia..| |by vm_compute]. apply world_coord_bnd. by left.
  - cbn [pos_y]. apply (fbnd_coord_ok (9 + 0)).
    apply fmul_bnd; [lia..| |by vm_compute]. apply world_coord_bnd. by right.
  - apply (fbnd_mono 0 32); [lia|]. apply Initialize_bnd; by vm_compute.
  - apply (fbnd_mono 0 32); [lia|]. apply Initialize_bnd; by vm_compute.
Qed.

Lemma calm_reserve n : calm (reserve n (s_Objects game_start)).
Proof.
  intros i p m Hp Hm. unfold reserve, resize in *. simpl in *.
  rewrite take_nil in Hp. rewrite take_nil in Hm. simpl in *.
  apply lookup_replicate in Hp as [-> _].
  apply lookup_replicate in Hm as [-> _]. by vm_compute.
Qed.

Lemma game_initialize_calm cfg gm0 :
  game_initialize lc cfg game_start = Some gm0 -> calm (s_Objects gm0).
Proof.
  unfold game_initialize. cbv zeta.
  destruct (foldM (init_regular lc cfg) _ _) as [st1|] eqn:H1; simpl; [|done].
  destruct (foldM (init_avoid lc cfg) _ _) as [st2|] eqn:H2; simpl; [|done].
  intros [= <-]. cbn [s_Objects].
  revert H2. apply (foldM_invariant (fun st => calm (fst st))).
  { intros i t t' _. apply init_avoid_calm. }
  revert H1. apply (foldM_invariant (fun st => calm (fst st))).
  { intros i t t' _. apply init_regular_calm. }
  apply calm_reserve.
Qed.

End StartupCalm.

Lemma libc_zero_ok : libc_ok libc_zero.
Proof.
  split; [by vm_compute|]. split.
  - intros k. by vm_compute.
  - intros a _ _. split; by vm_compute.
Qed.

Lemma game_config_ok undef :
  config_ok (game_config undef) /\
  Z.of_nat (kObjectCount (game_config undef) + kAvoidCount (game_config undef))
    = 1000020.
Proof. unfold config_ok, game_config. cbn [kObjectCount kAvoidCount]. lia. Qed.

(** X1.  Start-up fills the store.  Whatever the C library returns and
    whatever the population constants are, [game_initialize] run on the
    initial state of the process completes: no component is written
    outside the arrays that [reserve] has sized.  Afterwards each of the
    three arrays holds [kObjectCount + kAvoidCount] elements, the
    identifier generator has that value, and the static grid is
    untouched. *)
Theorem initialize_fills_store lc cfg :
  exists gm0,
    game_initialize lc cfg game_start = Some gm0 /\
    store_sized cfg (s_Objects gm0) /\
    m_IdGenerator (s_Objects gm0) = (kObjectCount cfg + kAvoidCount cfg)%nat.
Proof. exact (game_initialize_spec lc cfg). Qed.

(** X3.  Population.  After [game_initialize] with the constants of the
    source, every call of [game_update] that returns, returns 1,000,020
    = [kObjectCount + kAvoidCount], whatever the [deltaTime] values and
    the number of calls made before it. *)
Theorem update_returns_population lc undef :
  exists gm0,
    game_initialize lc (game_config undef) game_start = Some gm0 /\
    forall dts frames gm',
      game_run (game_config undef) dts gm0 = Some (frames, gm') ->
      length frames = length dts /\
      Forall (fun f => objectCount f = 1000020) frames.
Proof.
  set (cfg := game_config undef).
  destruct (game_config_ok undef) as [Hcfg Hcount]. fold cfg in Hcfg, Hcount.
  destruct (game_initialize_spec lc cfg) as (gm0 & Hinit & Hs & _).
  exists gm0. split; [exact Hinit|].
  intros dts frames gm' Hrun.
  apply game_run_counts in Hrun as [Hlen Hall]. split; [exact Hlen|].
  destruct Hs as (Hl & _). rewrite Hl in Hall.
  rewrite int_of_size_small in Hall by exact Hcfg.
  rewrite Hcount in Hall. exact Hall.
Qed.

(** X4.  Frames complete.  When [RAND_MAX] is a positive [int], [rand()]
    returns values between 0 and [RAND_MAX], and [cosf] and [sinf] return
    well-formed values of magnitude at most 1, start-up followed by any
    sequence of [game_update] calls whose [deltaTime] values are finite and
    of magnitude at most [2^32] completes: no access leaves the store or
    the grid arrays.  In the resulting store no coordinate is a NaN and
    every velocity component is finite. *)
Theorem updates_complete lc cfg dts :
  config_ok cfg -> libc_ok lc -> Forall (fbnd 32) dts ->
  exists gm0 frames gm',
    game_initialize lc cfg game_start = Some gm0 /\
    game_run cfg dts gm0 = Some (frames, gm') /\
    store_sized cfg (s_Objects gm') /\ calm (s_Objects gm').
Proof.
  intros Hcfg Hlc Hdts.
  destruct (game_initialize_spec lc cfg) as (gm0 & Hinit & Hs & _).
  pose proof (game_initialize_calm lc Hlc cfg gm0 Hinit) as Hc.
  destruct (game_run_calm cfg dts gm0 Hcfg Hdts Hs Hc)
    as (frames & gm' & Hrun & Hs' & Hc').
  exists gm0, frames, gm'. split; [exact Hinit|]. split; [exact Hrun|].
  split; [exact Hs'|exact Hc'].
Qed.

Lemma updates_complete_witness :
  exists gm0 frames gm',
    game_initialize libc_zero (game_config (fun _ => 0)) game_start = Some gm0 /\
    game_run (game_config (fun _ => 0)) [fpow2 (-6); fpow2 (-6)] gm0
      = Some (frames, gm') /\
    store_sized (game_config (fun _ => 0)) (s_Objects gm') /\
    calm (s_Objects gm').
Proof.
  apply updates_complete.
  - apply (proj1 (game_config_ok (fun _ => 0))).
  - apply libc_zero_ok.
  - repeat constructor; by vm_compute.
Defined.

(** * Start-up: the sprites *)

Lemma set_entity_inv go pos spr move s s' :
  set_entity go pos spr move s = Some s' ->
  (go < length (m_Sprites s))%nat /\
  m_Sprites s' = <[go := spr]> (m_Sprites s) /\
  m_IdGenerator s' = m_IdGenerator s.
Proof.
  unfold set_entity.
  destruct (go <? length (m_Positions s))%nat; [|done].
  destruct (go <? length (m_Sprites s))%nat eqn:Hs; [|done].
  destruct (go <? length (m_Moves s))%nat; [|done].
  simpl. intros [= <-]. apply Nat.ltb_lt in Hs. done.
Qed.

(** One creation step writes one sprite, at the identifier it takes. *)
Lemma init_regular_sprite lc cfg i st st' :
  init_regular lc cfg i st = Some st' ->
  exists spr,
    m_Sprites (fst st') = <[m_IdGenerator (fst st) := spr]> (m_Sprites (fst st)) /\
    (m_IdGenerator (fst st) < length (m_Sprites (fst st)))%nat /\
    m_IdGenerator (fst st') = S (m_IdGenerator (fst st)) /\
    sprite_white spr.
Proof.
  unfold init_regular, AddEntity. cbv zeta.
  destruct (set_entity _ _ _ _ _) as [s'|] eqn:Hset; simpl; [|done].
  intros [= <-]. apply set_entity_inv in Hset as (Hlt & Hs & Hid).
  simpl in *. eexists. split; [exact Hs|]. split; [exact Hlt|].
  split; [exact Hid|]. by repeat split.
Qed.

Lemma init_avoid_sprite lc cfg i st st' :
  init_avoid lc cfg i st = Some st' ->
  exists spr,
    m_Sprites (fst st') = <[m_IdGenerator (fst st) := spr]> (m_Sprites (fst st)) /\
    (m_IdGenerator (fst st) < length (m_Sprites (fst st)))%nat /\
    m_IdGenerator (fst st') = S (m_IdGenerator (fst st)) /\
    spriteIndex spr = 255.
Proof.
  unfold init_avoid, AddEntity. cbv zeta.
  destruct (set_entity _ _ _ _ _) as [s'|] eqn:Hset; simpl; [|done].
  intros [= <-]. apply set_entity_inv in Hset as (Hlt & Hs & Hid).
  simpl in *. eexists. split; [exact Hs|]. split; [exact Hlt|].
  split; [exact Hid|]. done.
Qed.

Lemma init_regular_created lc cfg n l : forall st st',
  (m_IdGenerator (fst st) + length l <= n)%nat ->
  sprites_created n (fst st) ->
  foldM (init_regular lc cfg) l st = Some st' ->
  sprites_created n (fst st') /\
  m_IdGenerator (fst st') = (m_IdGenerator (fst st) + length l)%nat.
Proof.
  induction l as [|i l IH]; intros st st' Hn Hc Hrun; simpl in *.
  - simplify_eq. split; [done|lia].
  - destruct (init_regular lc cfg i st) as [st1|] eqn:Hstep; simpl in Hrun;
      [|done].
    apply init_regular_sprite in Hstep as (spr & Hs & Hlt & Hid & Hw).
    destruct (IH st1 st') as [Hc' Hid']; [lia| |done|].
    + intros j sp Hj Hsp. rewrite Hs in Hsp. rewrite Hid in Hj.
      destruct (decide (j = m_IdGenerator (fst st))) as [->|Hne].
      * rewrite list_lookup_insert_eq in Hsp by done. simplify_eq.
        destruct (Nat.ltb_spec (m_IdGenerator (fst st)) n); [done|lia].
      * rewrite list_lookup_insert_ne in Hsp by done.
        apply Hc; [lia|done].
    + split; [done|lia].
Qed.

Lemma init_avoid_created lc cfg n l : forall st st',
  (n <= m_IdGenerator (fst st))%nat ->
  sprites_created n (fst st) ->
  foldM (init_avoid lc cfg) l st = Some st' ->
  sprites_created n (fst st') /\
  m_IdGenerator (fst st') = (m_IdGenerator (fst st) + length l)%nat.
Proof.
  induction l as [|i l IH]; intros st st' Hn Hc Hrun; simpl in *.
  - simplify_eq. split; [done|lia].
  - destruct (init_avoid lc cfg i st) as [st1|] eqn:Hstep; simpl in Hrun;
      [|done].
    apply init_avoid_sprite in Hstep as (spr & Hs & Hlt & Hid & Hw).
    destruct (IH st1 st') as [Hc' Hid']; [lia| |done|].
    + intros j sp Hj Hsp. rewrite Hs in Hsp. rewrite Hid in Hj.
      destruct (decide (j = m_IdGenerator (fst st))) as [->|Hne].
      * rewrite list_lookup_insert_eq in Hsp by done. simplify_eq.
        destruct (Nat.ltb_spec (m_IdGenerator (fst st)) n); [lia|done].
      * rewrite list_lookup_insert_ne in Hsp by done.
        apply Hc; [lia|done].
    + split; [done|lia].
Qed.

(** X2.  Sprites at start-up.  After [game_initialize] the entities
    with an identifier below [kObjectCount] are the regular objects, with
    the white colour (255, 255, 255), and the entities from [kObjectCount]
    on are the objects to avoid, with sprite index 255; every identifier
    below [kObjectCount + kAvoidCount] has a sprite. *)
Theorem initialize_sprites lc cfg :
  exists gm0,
    game_initialize lc cfg game_start = Some gm0 /\
    forall j, (j < kObjectCount cfg + kAvoidCount cfg)%nat ->
      exists spr, m_Sprites (s_Objects gm0) !! j = Some spr /\
        if (j <? kObjectCount cfg)%nat then sprite_white spr
        else spriteIndex spr = 255.
Proof.
  destruct (game_initialize_spec lc cfg) as (gm0 & Hinit & Hs & Hid).
  exists gm0. split; [done|].
  revert Hinit. unfold game_initialize. cbv zeta.
  destruct (foldM (init_regular lc cfg) _ _) as [st1|] eqn:H1; simpl; [|done].
  destruct (foldM (init_avoid lc cfg) _ _) as [st2|] eqn:H2; simpl; [|done].
  intros [= <-]. cbn [s_Objects] in *.
  apply (init_regular_created lc cfg (kObjectCount cfg)) in H1 as [Hc1 Hid1].
  - rewrite length_seq in Hid1. simpl in Hid1.
    apply (init_avoid_created lc cfg (kObjectCount cfg)) in H2 as [Hc2 Hid2];
      [|lia|done].
    intros j Hj. destruct Hs as (_ & Hls & _).
    destruct (lookup_lt_is_Some_2 (m_Sprites (fst st2)) j) as [spr Hspr];
      [lia|].
    exists spr. split; [done|]. apply Hc2; [lia|done].
  - rewrite length_seq. simpl. lia.
  - intros j spr Hj. simpl in Hj. lia.
Qed.

(** * What a frame leaves unchanged *)

(** *** Velocities are only ever mirrored *)

Lemma fneg_involutive v : fneg (fneg v) = v.
Proof. destruct v as [s|s| |s m e]; try done; by destruct s. Qed.

Lemma flipped_refl v : flipped v v.
Proof. by left. Qed.

Lemma flipped_trans v1 v2 v3 : flipped v1 v2 -> flipped v2 v3 -> flipped v1 v3.
Proof.
  intros [->| ->] [->| ->]; [by left|by right|by right|left].
  apply fneg_involutive.
Qed.

Lemma move_flipped_refl m : move_flipped m m.
Proof. split; apply flipped_refl. Qed.

Lemma move_flipped_trans m1 m2 m3 :
  move_flipped m1 m2 -> move_flipped m2 m3 -> move_flipped m1 m3.
Proof. intros [? ?] [? ?]. split; by eapply flipped_trans. Qed.

Lemma moves_flipped_refl l : Forall2 move_flipped l l.
Proof. apply Forall_Forall2_diag, Forall_forall. intros. apply move_flipped_refl. Qed.

Lemma moves_flipped_trans l1 l2 l3 :
  Forall2 move_flipped l1 l2 -> Forall2 move_flipped l2 l3 ->
  Forall2 move_flipped l1 l3.
Proof.
  intros H12. revert l3. induction H12 as [|m1 m2 l1 l2 Hm H12 IH];
    intros l3 H23; inversion H23; subst; constructor.
  - by eapply move_flipped_trans.
  - by apply IH.
Qed.

Lemma moves_flipped_insert l i m m' :
  l !! i = Some m -> move_flipped m m' ->
  Forall2 move_flipped l (<[i := m']> l).
Proof.
  revert i. induction l as [|a l IH]; intros [|i] Hl Hm; simpl in *; try done.
  - simplify_eq. constructor; [done|apply moves_flipped_refl].
  - constructor; [apply move_flipped_refl|by apply IH].
Qed.

Lemma step_entity_flipped dt pos move :
  move_flipped move (snd (MoveSystem.step_entity dt pos move)).
Proof.
  unfold MoveSystem.step_entity. cbv zeta. cbn [snd velx vely].
  split.
  - pose proof (step_axis_velocity (xMin s_WorldBounds)
                  (xMax s_WorldBounds) dt (pos_x pos) (velx move)) as H.
    cbv zeta in H. destruct H as [->|[->| ->]];
      [by left|by right|left; apply fneg_involutive].
  - pose proof (step_axis_velocity (yMin s_WorldBounds)
                  (yMax s_WorldBounds) dt (pos_y pos) (vely move)) as H.
    cbv zeta in H. destruct H as [->|[->| ->]];
      [by left|by right|left; apply fneg_involutive].
Qed.

Lemma move_body_flipped dt io s s' :
  MoveSystem.body dt io s = Some s' ->
  Forall2 move_flipped (m_Moves s) (m_Moves s').
Proof.
  intros H. apply body_Some in H as (pos & move & Hp & Hm & ->). simpl.
  eapply moves_flipped_insert; [exact Hm|]. apply step_entity_flipped.
Qed.

Lemma foldM_moves_flipped {A} (f : A -> Entities -> option Entities) l s s' :
  (forall a t t', f a t = Some t' ->
     Forall2 move_flipped (m_Moves t) (m_Moves t')) ->
  foldM f l s = Some s' -> Forall2 move_flipped (m_Moves s) (m_Moves s').
Proof.
  intros Hf.
  apply (foldM_invariant
           (fun t => Forall2 move_flipped (m_Moves s) (m_Moves t))).
  - intros a t t' _ Ht Hstep. eapply moves_flipped_trans; [exact Ht|].
    by eapply Hf.
  - apply moves_flipped_refl.
Qed.

Lemma check_flipped cfg dt g io hash ia s s' :
  AvoidanceSystem.check cfg dt g io hash ia s = Some s' ->
  Forall2 move_flipped (m_Moves s) (m_Moves s').
Proof.
  unfold AvoidanceSystem.check.
  destruct (negb _); [done|].
  destruct (m_Positions s !! io) as [myp|]; simpl; [|done].
  destruct (m_Positions s !! AvoidanceSystem.avoidEntityGrid g hash ia)
    as [avp|]; simpl; [|done].
  destruct (AvoidanceSystem.too_close avp myp);
    [|intros [= <-]; apply moves_flipped_refl].
  destruct (m_Moves s !! io) as [mv|] eqn:Hmv; simpl; [|done].
  destruct (m_Sprites s !! AvoidanceSystem.avoidEntityGrid g hash ia)
    as [asp|]; simpl; [|done].
  destruct (m_Sprites s !! io) as [msp|]; simpl; [|done].
  intros [= <-]. simpl. eapply moves_flipped_insert; [exact Hmv|].
  split; by right.
Qed.

Lemma query_body_flipped cfg dt g io s s' :
  AvoidanceSystem.query_body cfg dt g io s = Some s' ->
  Forall2 move_flipped (m_Moves s) (m_Moves s').
Proof.
  unfold AvoidanceSystem.query_body.
  destruct (m_Positions s !! io) as [myp|]; simpl; [|done].
  destruct (negb _); [done|].
  apply foldM_moves_flipped. intros a t t'. apply check_flipped.
Qed.

Lemma game_update_flipped cfg dt gm frame gm' :
  game_update cfg dt gm = Some (frame, gm') ->
  Forall2 move_flipped (m_Moves (s_Objects gm)) (m_Moves (s_Objects gm')).
Proof.
  intros H. apply game_update_Some in H as (s1 & s2 & grid & Hm & Ha & _ & ->).
  cbn [s_Objects]. apply (moves_flipped_trans _ (m_Moves s1)).
  - revert Hm. unfold MoveSystem.UpdateSystem. apply foldM_moves_flipped.
    intros a t t'. apply move_body_flipped.
  - revert Ha. unfold AvoidanceSystem.UpdateSystem.
    destruct (AvoidanceSystem.build _ _ _) as [g|]; simpl; [|done].
    destruct (foldM _ _ s1) as [t|] eqn:Hq; simpl; [|done].
    intros [= <- <-]. revert Hq. apply foldM_moves_flipped.
    intros a u u'. apply query_body_flipped.
Qed.

(** X5.  Speed is conserved.  No sequence of [game_update] calls
    changes the magnitude of a velocity component: after the calls each
    entity's [velx] is its [velx] before them or the opposite of it, and
    likewise [vely], whatever the [deltaTime] values. *)
Theorem velocities_only_mirrored cfg dts gm frames gm' :
  game_run cfg dts gm = Some (frames, gm') ->
  Forall2 move_flipped (m_Moves (s_Objects gm)) (m_Moves (s_Objects gm')).
Proof.
  revert gm frames. induction dts as [|dt dts IH]; intros gm frames H.
  - simpl in H. simplify_eq. apply moves_flipped_refl.
  - apply game_run_Some in H as (frame & gm1 & frames' & Hu & Hr & ->).
    eapply moves_flipped_trans; [by eapply game_update_flipped|].
    by eapply IH.
Qed.

Lemma velocities_only_mirrored_witness :
  exists frames gm',
    game_run scene_config [fpow2 (-6); fpow2 (-6)]
      (scene_game (mkMove (fpow2 (-1)) (fpow2 (-1)))) = Some (frames, gm') /\
    Forall2 move_flipped
      (m_Moves (s_Objects (scene_game (mkMove (fpow2 (-1)) (fpow2 (-1))))))
      (m_Moves (s_Objects gm')).
Proof.
  eexists _, _. split; [by vm_compute|].
  eapply (velocities_only_mirrored scene_config [fpow2 (-6); fpow2 (-6)]
            (scene_game (mkMove (fpow2 (-1)) (fpow2 (-1))))).
  by vm_compute.
Defined.

(** *** Colours come from the hazards *)

Lemma sprites_recoloured_refl cfg l : sprites_recoloured cfg l l.
Proof.
  split; [done|]. intros io spr H. exists spr. split; [done|].
  split; [done|]. by left.
Qed.

Lemma sprites_recoloured_trans cfg l1 l2 l3 :
  sprites_recoloured cfg l1 l2 -> sprites_recoloured cfg l2 l3 ->
  sprites_recoloured cfg l1 l3.
Proof.
  intros [Hh12 Hc12] [Hh23 Hc23]. split.
  - intros ia Hia. by rewrite Hh23, Hh12.
  - intros io spr H3.
    destruct (Hc23 io spr H3) as (spr2 & H2 & Hx2 & Hcol2).
    destruct (Hc12 io spr2 H2) as (spr0 & H0 & Hx0 & Hcol0).
    exists spr0. split; [done|]. split; [congruence|].
    destruct Hcol2 as [Heq|(ia & spa & Hia & Hspa & Heq)].
    + destruct Hcol0 as [Heq0|(ia & spa & Hia & Hspa & Heq0)].
      * left. congruence.
      * right. exists ia, spa. split; [done|]. split; [done|]. congruence.
    + right. exists ia, spa. split; [done|]. split; [|done].
      rewrite <- Hh12 by lia. done.
Qed.

Lemma check_recoloured cfg dt g io hash ia s s' :
  bucket_ok cfg g -> (io < kObjectCount cfg)%nat ->
  0 <= ia < AvoidanceSystem.activeAvoidCount g hash ->
  AvoidanceSystem.check cfg dt g io hash ia s = Some s' ->
  sprites_recoloured cfg (m_Sprites s) (m_Sprites s').
Proof.
  intros Hg Hio Hia. unfold AvoidanceSystem.check.
  destruct (Hg hash) as [_ Hav]. specialize (Hav ia Hia).
  set (avoid := AvoidanceSystem.avoidEntityGrid g hash ia) in *.
  destruct (negb _); [done|].
  destruct (m_Positions s !! io) as [myp|]; simpl; [|done].
  destruct (m_Positions s !! avoid) as [avp|]; simpl; [|done].
  destruct (AvoidanceSystem.too_close avp myp);
    [|intros [= <-]; apply sprites_recoloured_refl].
  destruct (m_Moves s !! io) as [mv|]; simpl; [|done].
  destruct (m_Sprites s !! avoid) as [asp|] eqn:Hasp; simpl; [|done].
  destruct (m_Sprites s !! io) as [msp|] eqn:Hmsp; simpl; [|done].
  intros [= <-]. simpl. split.
  - intros j Hj. apply list_lookup_insert_ne. lia.
  - intros j spr Hj. destruct (decide (j = io)) as [->|Hne].
    + apply list_lookup_insert_Some in Hj as [(_ & <- & _)|[? _]]; [|done].
      exists msp. split; [done|]. split; [done|]. right.
      exists avoid, asp. split; [done|]. split; [done|]. done.
    + rewrite list_lookup_insert_ne in Hj by done.
      exists spr. split; [done|]. split; [done|]. by left.
Qed.

Lemma query_body_recoloured cfg dt g io s s' :
  bucket_ok cfg g -> (io < kObjectCount cfg)%nat ->
  AvoidanceSystem.query_body cfg dt g io s = Some s' ->
  sprites_recoloured cfg (m_Sprites s) (m_Sprites s').
Proof.
  intros Hg Hio. unfold AvoidanceSystem.query_body.
  destruct (m_Positions s !! io) as [myp|]; simpl; [|done].
  destruct (negb _); [done|].
  apply (foldM_invariant
           (fun t => sprites_recoloured cfg (m_Sprites s) (m_Sprites t))).
  - intros ia t t' Hia Ht Hstep. apply elem_of_seqZ in Hia.
    eapply sprites_recoloured_trans; [exact Ht|].
    eapply check_recoloured; [done|done| |exact Hstep]. lia.
  - apply sprites_recoloured_refl.
Qed.

Lemma avoidance_recoloured cfg dt grid s s' grid' :
  AvoidanceSystem.UpdateSystem cfg dt grid s = Some (s', grid') ->
  sprites_recoloured cfg (m_Sprites s) (m_Sprites s').
Proof.
  unfold AvoidanceSystem.UpdateSystem.
  destruct (AvoidanceSystem.build _ _ _) as [g|] eqn:Hb; simpl; [|done].
  apply build_bucket_ok in Hb.
  destruct (foldM _ _ s) as [s2|] eqn:Hq; simpl; [|done].
  intros [= <- <-]. revert Hq.
  apply (foldM_invariant
           (fun t => sprites_recoloured cfg (m_Sprites s) (m_Sprites t))).
  - intros io t t' Hio Ht Hstep. apply elem_of_seq in Hio.
    eapply sprites_recoloured_trans; [exact Ht|].
    eapply query_body_recoloured; [done| |exact Hstep]. lia.
  - apply sprites_recoloured_refl.
Qed.

Lemma game_update_recoloured cfg dt gm frame gm' :
  game_update cfg dt gm = Some (frame, gm') ->
  sprites_recoloured cfg (m_Sprites (s_Objects gm))
    (m_Sprites (s_Objects gm')).
Proof.
  intros H. apply game_update_Some in H as (s1 & s2 & grid & Hm & Ha & _ & ->).
  cbn [s_Objects]. apply move_frame in Hm as (_ & _ & <- & _).
  by eapply avoidance_recoloured.
Qed.

(** X6.  Colours come from the hazards.  Whatever the sequence of
    [game_update] calls that completes, the sprites of the hazards (the
    entities from [kObjectCount] on) are never changed, and every other
    sprite keeps its sprite index and has either the colour it had before
    the calls or the colour of a hazard. *)
Theorem colours_from_hazards cfg dts gm frames gm' :
  game_run cfg dts gm = Some (frames, gm') ->
  sprites_recoloured cfg (m_Sprites (s_Objects gm))
    (m_Sprites (s_Objects gm')).
Proof.
  revert gm frames. induction dts as [|dt dts IH]; intros gm frames H.
  - simpl in H. simplify_eq. apply sprites_recoloured_refl.
  - apply game_run_Some in H as (frame & gm1 & frames' & Hu & Hr & ->).
    eapply sprites_recoloured_trans; [by eapply game_update_recoloured|].
    by eapply IH.
Qed.

Lemma colours_from_hazards_witness :
  exists frames gm',
    game_run scene_config [fpow2 (-6); fpow2 (-6)]
      (scene_game (mkMove (fpow2 (-1)) (fpow2 (-1)))) = Some (frames, gm') /\
    sprites_recoloured scene_config
      (m_Sprites (s_Objects (scene_game (mkMove (fpow2 (-1)) (fpow2 (-1))))))
      (m_Sprites (s_Objects gm')).
Proof.
  eexists _, _. split; [by vm_compute|].
  eapply (colours_from_hazards scene_config [fpow2 (-6); fpow2 (-6)]
            (scene_game (mkMove (fpow2 (-1)) (fpow2 (-1))))).
  by vm_compute.
Defined.

(** *** Hazards and the world bounds *)

Lemma game_update_hazards cfg dt gm frame gm' :
  hazards_finite cfg (s_Objects gm) -> is_finite dt = true ->
  game_update cfg dt gm = Some (frame, gm') ->
  hazards_finite cfg (s_Objects gm') /\
  forall ia p,
    (kObjectCount cfg <= ia < kObjectCount cfg + kAvoidCount cfg)%nat ->
    m_Positions (s_Objects gm') !! ia = Some p -> in_bounds p = true.
Proof.
  intros Hfin Hdt H.
  apply game_update_Some in H as (s1 & s2 & grid & Hm & Ha & _ & ->).
  cbn [s_Objects]. apply move_range_spec in Hm as (_ & _ & _ & _ & Hstep).
  apply avoidance_frame in Ha as (_ & _ & _ & _ & _ & Hfr).
  assert (Hall : forall ia p m,
    (kObjectCount cfg <= ia < kObjectCount cfg + kAvoidCount cfg)%nat ->
    m_Positions s2 !! ia = Some p -> m_Moves s2 !! ia = Some m ->
    in_bounds p = true /\ position_finite p = true /\ move_finite m = true).
  { intros ia p m Hia Hp Hmv.
    destruct (Hfr ia ltac:(lia)) as (Hp2 & _ & Hm2).
    rewrite Hp2 in Hp. rewrite Hm2 in Hmv.
    destruct (Hstep ia) as [Hin _].
    destruct Hin as (p0 & m0 & Hp0 & Hm0 & Hp1 & Hm1); [lia|].
    rewrite Hp1 in Hp. rewrite Hm1 in Hmv. simplify_eq.
    destruct (Hfin ia p0 m0 Hia Hp0 Hm0) as [Hpf Hmf].
    by apply step_entity_finite. }
  split.
  - intros ia p m Hia Hp Hmv. by destruct (Hall ia p m Hia Hp Hmv) as (_ & ? & ?).
  - intros ia p Hia Hp.
    destruct (Hfr ia ltac:(lia)) as (Hp2 & _ & _).
    destruct (Hstep ia) as [Hin _].
    destruct Hin as (p0 & m0 & Hp0 & Hm0 & Hp1 & Hm1); [lia|].
    destruct (m_Moves s2 !! ia) as [m|] eqn:Hmv.
    + by destruct (Hall ia p m Hia Hp Hmv) as (? & _).
    + destruct (Hfr ia ltac:(lia)) as (_ & _ & Hm2). congruence.
Qed.

(** X7.  Hazards stay within the world bounds.  When the hazards have
    finite positions and velocities, after any non-empty sequence of
    [game_update] calls that completes and whose [deltaTime] values are
    finite, every hazard's position satisfies xMin <= x <= xMax and
    yMin <= y <= yMax: the Avoidance System never moves a hazard. *)
Theorem hazards_stay_in_bounds cfg dts gm frames gm' :
  hazards_finite cfg (s_Objects gm) ->
  Forall (fun dt => is_finite dt = true) dts -> dts <> [] ->
  game_run cfg dts gm = Some (frames, gm') ->
  forall ia p,
    (kObjectCount cfg <= ia < kObjectCount cfg + kAvoidCount cfg)%nat ->
    m_Positions (s_Objects gm') !! ia = Some p -> in_bounds p = true.
Proof.
  intros Hfin Hdts Hne. revert gm frames Hfin.
  induction dts as [|dt dts IH]; [done|]. intros gm frames Hfin Hrun.
  inversion Hdts as [|? ? Hdt Hdts']; subst.
  apply game_run_Some in Hrun as (frame & gm1 & frames' & Hu & Hr & ->).
  destruct (game_update_hazards cfg dt gm frame gm1 Hfin Hdt Hu) as [Hfin1 Hin1].
  destruct dts as [|dt' dts].
  - simpl in Hr. simplify_eq. exact Hin1.
  - eapply (IH Hdts'); [done|exact Hfin1|exact Hr].
Qed.

Lemma hazards_stay_in_bounds_witness :
  exists frames gm',
    game_run scene_config [fpow2 (-6); fpow2 (-6)]
      (scene_game (mkMove (fpow2 (-1)) (fpow2 (-1)))) = Some (frames, gm') /\
    forall ia p,
      (kObjectCount scene_config <= ia
         < kObjectCount scene_config + kAvoidCount scene_config)%nat ->
      m_Positions (s_Objects gm') !! ia = Some p -> in_bounds p = true.
Proof.
  eexists _, _. split; [by vm_compute|].
  eapply (hazards_stay_in_bounds scene_config [fpow2 (-6); fpow2 (-6)]
            (scene_game (mkMove (fpow2 (-1)) (fpow2 (-1))))).
  - intros ia p m Hia Hp Hm. simpl in Hia.
    assert (ia = 1%nat) as -> by lia.
    vm_compute in Hp, Hm. simplify_eq. by vm_compute.
  - repeat constructor.
  - done.
  - by vm_compute.
Defined.

(** X8.  [game_update] does not keep the regular entities within the
    world bounds.  The Avoidance System moves a reacting entity after the
    Motion System has tested the bounds: the entity of [scene_corner],
    which starts within the bounds, is put back on [xMax] by the Motion
    System and then moved beyond it by the reaction, and the call returns
    it there. *)
Theorem update_can_leave_bounds :
  exists frame gm' p,
    (forall i q, m_Positions (s_Objects scene_corner) !! i = Some q ->
       in_bounds q = true) /\
    game_update scene_config (fpow2 (-6)) scene_corner = Some (frame, gm') /\
    m_Positions (s_Objects gm') !! 0%nat = Some p /\
    posData frame !! 0%nat = Some (mkPosData (pos_x p) (pos_y p)) /\
    flt (float_of_int (xMax s_WorldBounds)) (pos_x p) = true /\
    in_bounds p = false.
Proof.
  eexists _, _, _. split.
  { intros [|[|i]] q Hq; simpl in Hq; simplify_eq; by vm_compute. }
  split; [by vm_compute|]. split; [reflexivity|].
  split; [reflexivity|]. split; by vm_compute.
Qed.

(** * The contents of the grid *)

Section Buckets.
Import AvoidanceSystem.

Lemma bucket_insert cfg ia h0 g g' :
  Z.of_nat (kAvoidCount cfg) < 2 ^ 32 ->
  0 <= activeAvoidCount g h0 ->
  insert cfg ia h0 g = Some g' ->
  (forall h, bucket g' h = bucket g h ++ hits ia h [h0]) /\
  (forall h, 0 <= activeAvoidCount g h -> 0 <= activeAvoidCount g' h).
Proof.
  intros HH H0 Hins. apply insert_Some in Hins as (Hh & Hn & ->).
  set (n := activeAvoidCount g h0) in *.
  assert (Hw : wrap32 (n + 1) = n + 1)
    by (unfold wrap32; rewrite Z.mod_small; lia).
  split.
  - intros h. unfold bucket, hits. simpl.
    destruct (decide (h0 = h)) as [<-|Hne].
    + rewrite !upd_eq, Hw. fold n.
      rewrite seqZ_app by lia.
      replace (seqZ (0 + n) 1) with [n] by (unfold seqZ; simpl; f_equal; lia).
      rewrite fmap_app. simpl. rewrite upd_eq. f_equal.
      apply list_fmap_ext. intros i k Hk.
      apply lookup_seqZ in Hk as [-> Hk]. apply upd_ne. lia.
    + rewrite !upd_ne by done. by rewrite app_nil_r.
  - intros h Hc. simpl. destruct (decide (h = h0)) as [->|Hne].
    + rewrite upd_eq, Hw. lia.
    + by rewrite upd_ne.
Qed.

Lemma hits_app ia h F1 F2 : hits ia h (F1 ++ F2) = hits ia h F1 ++ hits ia h F2.
Proof. unfold hits. apply bind_app. Qed.

Lemma bucket_foldM_insert cfg ia F : forall g g',
  Z.of_nat (kAvoidCount cfg) < 2 ^ 32 ->
  (forall h, 0 <= activeAvoidCount g h) ->
  foldM (insert cfg ia) F g = Some g' ->
  (forall h, bucket g' h = bucket g h ++ hits ia h F) /\
  (forall h, 0 <= activeAvoidCount g' h).
Proof.
  induction F as [|h0 F IH]; intros g g' HH H0 Hrun; simpl in Hrun.
  - simplify_eq. split; [|done]. intros h. unfold hits. simpl.
    by rewrite app_nil_r.
  - destruct (insert cfg ia h0 g) as [g1|] eqn:Hins; simpl in Hrun; [|done].
    destruct (bucket_insert cfg ia h0 g g1 HH (H0 h0) Hins) as [Hb1 Hc1].
    destruct (IH g1 g' HH) as [Hb Hc]; [|done|].
    { intros h. apply Hc1, H0. }
    split; [|done]. intros h.
    rewrite Hb, Hb1, <- app_assoc. f_equal.
    change (h0 :: F) with ([h0] ++ F). by rewrite hits_app.
Qed.

Lemma bucket_build_loop cfg positions l : forall g g',
  Z.of_nat (kAvoidCount cfg) < 2 ^ 32 ->
  (forall h, 0 <= activeAvoidCount g h) ->
  foldM (build_body cfg positions) l g = Some g' ->
  forall h,
    bucket g' h =
      bucket g h ++
      (ia ← l;
       match positions !! ia with
       | Some p => hits ia h (footprint cfg p)
       | None => []
       end).
Proof.
  induction l as [|ia l IH]; intros g g' HH H0 Hrun h; simpl in Hrun.
  - simplify_eq. simpl. by rewrite app_nil_r.
  - destruct (build_body cfg positions ia g) as [g1|] eqn:Hb; simpl in Hrun;
      [|done].
    unfold build_body in Hb.
    destruct (positions !! ia) as [p|] eqn:Hp; simpl in Hb; [|done].
    destruct (bucket_foldM_insert cfg ia _ g g1 HH H0 Hb) as [Hb1 Hc1].
    rewrite (IH g1 g' HH Hc1 Hrun h), Hb1, <- app_assoc. f_equal.
    rewrite bind_cons, Hp. done.
Qed.

End Buckets.

(** X9.  Contents of the grid.  After the rebuild, the used slots of
    every bucket [h] hold, in increasing identifier order, exactly the
    hazards whose footprint contains [h] (a hazard once per occurrence of
    [h] in its footprint); nothing is left of what the static array held
    before. *)
Theorem grid_contents cfg positions grid g :
  config_ok cfg ->
  AvoidanceSystem.build cfg positions grid = Some g ->
  forall h, bucket g h = registered cfg positions h.
Proof.
  intros Hcfg Hb h. unfold config_ok in Hcfg.
  unfold AvoidanceSystem.build in Hb.
  assert (H0 : forall h', 0 <= AvoidanceSystem.activeAvoidCount
                               (AvoidanceSystem.mkGrid grid (fun _ => 0)) h')
    by (intros h'; simpl; lia).
  rewrite (bucket_build_loop cfg positions _ _ g ltac:(lia) H0 Hb h).
  reflexivity.
Qed.

Lemma grid_contents_witness :
  exists g,
    AvoidanceSystem.build scene_config
      (m_Positions (scene (mkMove (fpow2 (-1)) (fpow2 (-1)))))
      (fun _ _ => 7%nat) = Some g /\
    (forall h, bucket g h =
       registered scene_config
         (m_Positions (scene (mkMove (fpow2 (-1)) (fpow2 (-1))))) h) /\
    bucket g 2080 = [1%nat] /\ bucket g 0 = [].
Proof.
  eexists. split; [by vm_compute|]. split; [|by vm_compute].
  apply (grid_contents scene_config _ (fun _ _ => 7%nat)); [|by vm_compute].
  unfold config_ok. simpl. lia.
Defined.

(** X10.  Without hazards the Avoidance System changes nothing: when
    [kAvoidCount] is 0, a pass that completes returns the store and the
    static array it was given. *)
Theorem avoidance_without_hazards cfg dt grid s s' grid' :
  kAvoidCount cfg = 0%nat ->
  AvoidanceSystem.UpdateSystem cfg dt grid s = Some (s', grid') ->
  s' = s /\ grid' = grid.
Proof.
  intros H0. unfold AvoidanceSystem.UpdateSystem, AvoidanceSystem.build.
  rewrite H0. simpl.
  destruct (foldM _ _ s) as [s2|] eqn:Hq; simpl; [|done].
  intros [= <- <-]. split; [|done]. revert Hq.
  apply (foldM_invariant (fun t => t = s)); [|done].
  intros io t t' _ -> Hstep. revert Hstep.
  unfold AvoidanceSystem.query_body.
  destruct (m_Positions s !! io) as [p|]; simpl; [|done].
  destruct (negb _); [done|]. simpl. by intros [= <-].
Qed.

Lemma avoidance_without_hazards_witness :
  exists s' grid',
    AvoidanceSystem.UpdateSystem (mkConfig 2 0 (fun _ => 0)) (fpow2 (-6))
      (fun _ _ => 7%nat) (scene (mkMove (fpow2 (-1)) (fpow2 (-1))))
      = Some (s', grid') /\
    s' = scene (mkMove (fpow2 (-1)) (fpow2 (-1))) /\
    grid' = (fun _ _ => 7%nat).
Proof.
  eexists _, _. split; [by vm_compute|].
  eapply (avoidance_without_hazards (mkConfig 2 0 (fun _ => 0)) (fpow2 (-6))).
  - reflexivity.
  - by vm_compute.
Defined.

(** * The proximity test *)

Section Proximity.
Import AvoidanceSystem.

(** The shape of a float that is not finite and not a negative
    infinity. *)
Lemma round_result_false_shape m e :
  round_result false m e = S754_nan \/
  round_result false m e = S754_infinity false \/
  is_finite (round_result false m e) = true.
Proof.
  unfold round_result. destruct m as [|p|p]; [by right; right| |by left].
  destruct (_ <=? _); [by right; right|by right; left].
Qed.

(** A square is a NaN, the positive infinity or a finite value; it is
    finite only when its argument is. *)
Lemma square_shape d :
  (fmul d d = S754_nan \/ fmul d d = S754_infinity false \/
   is_finite (fmul d d) = true) /\
  (is_finite (fmul d d) = true -> is_finite d = true).
Proof.
  destruct d as [s|s| |s m e]; simpl.
  - split; [by right; right|done].
  - split; [right; left; by destruct s|by destruct s].
  - split; [by left|done].
  - split; [|done]. unfold fmul, SFmul.
    destruct (binary_round_aux_spec (xorb s s) (m * m) (e + e)) as (m2 & _ & ->).
    cbv zeta. rewrite xorb_nilpotent. apply round_result_false_shape.
Qed.

Lemma fsub_finite x y :
  is_finite (fsub x y) = true -> is_finite x = true /\ is_finite y = true.
Proof.
  destruct x as [sx|sx| |sx mx ex], y as [sy|sy| |sy my ey]; try done;
    by destruct sx, sy.
Qed.

Lemma fadd_shape_finite a b :
  a = S754_nan \/ a = S754_infinity false \/ is_finite a = true ->
  b = S754_nan \/ b = S754_infinity false \/ is_finite b = true ->
  (fadd a b = S754_nan \/ fadd a b = S754_infinity false) \/
  (is_finite a = true /\ is_finite b = true).
Proof.
  intros [->|[->|Ha]] [->|[->|Hb]]; try (by left; left); try (by left; right);
    try (by right).
  - left; right. by destruct b.
  - left; left. by destruct a.
  - left; right. by destruct a.
Qed.

Lemma too_close_finite a b :
  too_close a b = true ->
  position_finite a = true /\ position_finite b = true.
Proof.
  unfold too_close. cbv zeta.
  set (dx := fsub (pos_x a) (pos_x b)). set (dy := fsub (pos_y a) (pos_y b)).
  destruct (square_shape dx) as [Hsx Hfx], (square_shape dy) as [Hsy Hfy].
  destruct (fadd_shape_finite _ _ Hsx Hsy) as [[Hs|Hs]|[Hx Hy]].
  - rewrite Hs. done.
  - rewrite Hs. intros H. by vm_compute in H.
  - intros _. apply Hfx, fsub_finite in Hx as [? ?].
    apply Hfy, fsub_finite in Hy as [? ?].
    unfold position_finite. split; by apply andb_true_iff.
Qed.

(** *** Symmetry *)

Lemma binary_round_aux_opp s m e l :
  binary_round_aux prec emax (negb s) m e l =
  SFopp (binary_round_aux prec emax s m e l).
Proof.
  unfold binary_round_aux.
  destruct (shr_fexp prec emax m e l) as [r1 e1].
  destruct (shr_fexp prec emax _ e1 loc_Exact) as [r2 e2].
  destruct (shr_m r2); try done. by destruct (_ <=? _).
Qed.

Lemma binary_normalize_opp M e :
  binary_normalize prec emax (- M) e false =
  match M with
  | 0 => S754_zero false
  | _ => SFopp (binary_normalize prec emax M e false)
  end.
Proof.
  destruct M as [|p|p]; simpl; [done| |]; unfold binary_round;
    destruct (shl_align _ _ _) as [mz ez].
  - apply (binary_round_aux_opp false).
  - pose proof (binary_round_aux_opp false (Z.pos mz) ez loc_Exact) as H.
    simpl negb in H. rewrite H. symmetry. apply fneg_involutive.
Qed.

Lemma fmul_opp d : fmul (SFopp d) (SFopp d) = fmul d d.
Proof.
  destruct d as [s|s| |s m e]; simpl; try done; by destruct s.
Qed.

Lemma square_fsub_comm x y :
  fmul (fsub x y) (fsub x y) = fmul (fsub y x) (fsub y x).
Proof.
  destruct x as [sx|sx| |sx mx ex], y as [sy|sy| |sy my ey]; try done;
    try (by destruct sx, sy); try (by destruct sx); try (by destruct sy).
  unfold fsub, SFsub. cbv zeta. rewrite (Z.min_comm ey ex).
  set (A := cond_Zopp sx _). set (B := cond_Zopp sy _).
  replace (B - A) with (- (A - B)) by lia.
  rewrite binary_normalize_opp.
  destruct (A - B) eqn:HM; [done| |]; by rewrite fmul_opp.
Qed.

End Proximity.

(** X11.  Only finite positions react.  When the proximity test of the
    Avoidance System succeeds, the four coordinates compared are finite:
    an entity or a hazard with a NaN or infinite coordinate never takes
    part in a reaction. *)
Theorem reaction_needs_finite_positions avoidposition myposition :
  AvoidanceSystem.too_close avoidposition myposition = true ->
  position_finite avoidposition = true /\ position_finite myposition = true.
Proof. apply too_close_finite. Qed.

Lemma reaction_needs_finite_positions_witness :
  position_finite (mkPosition fzero fzero) = true /\
  position_finite (mkPosition (float_of_int 1) fzero) = true.
Proof. apply reaction_needs_finite_positions. by vm_compute. Defined.

(** X12.  The proximity test is symmetric: it gives the same answer when
    the two positions are exchanged, for all binary32 coordinates, NaN
    and the infinities included. *)
Theorem proximity_test_symmetric p q :
  AvoidanceSystem.too_close p q = AvoidanceSystem.too_close q p.
Proof.
  unfold AvoidanceSystem.too_close. cbv zeta.
  by rewrite (square_fsub_comm (pos_x p)), (square_fsub_comm (pos_y p)).
Qed.

(** * Start-up: positions and velocities *)

Lemma in_range_of_Fval lo hi p :
  fvalid (float_of_int lo) = true -> is_finite (float_of_int lo) = true ->
  fvalid (float_of_int hi) = true -> is_finite (float_of_int hi) = true ->
  fvalid p = true -> is_finite p = true ->
  Fval (float_of_int lo) <= Fval p <= Fval (float_of_int hi) ->
  in_range lo hi p = true.
Proof.
  intros Hvl Hfl Hvh Hfh Hv Hf [H1 H2]. unfold in_range.
  apply andb_true_iff. split; by apply Fval_fle.
Qed.

Lemma fmul_nonneg x y :
  fvalid x = true -> fvalid y = true ->
  is_finite x = true -> is_finite y = true ->
  0 <= Fval x -> 0 <= Fval y -> 0 <= Fval (fmul x y).
Proof.
  intros Hvx Hvy Hfx Hfy Hx Hy.
  pose proof (fmul_sign x y Hfx Hfy) as Hs.
  pose proof (Fmag_nonneg (fmul x y)) as Hm.
  destruct x as [sx|sx| |sx mx ex], y as [sy|sy| |sy my ey]; try done;
    try (simpl fmul; rewrite Fval_zero; lia).
  apply fvalid_finite in Hvx as (_ & Hex & _).
  apply fvalid_finite in Hvy as (_ & Hey & _).
  pose proof (Fmag_finite_pos sx mx ex ltac:(lia)).
  pose proof (Fmag_finite_pos sy my ey ltac:(lia)).
  unfold Fval in *. simpl Fsign in *. rewrite Hs.
  destruct sx, sy; [lia|lia|lia|]. cbn [xorb]. lia.
Qed.

(** The constants of an axis of the world and of its central quarter. *)
Lemma axis_constants lo hi :
  world_axis lo hi ->
  exists c, 6 <= c <= 7 /\
    (fvalid (float_of_int lo) = true /\ is_finite (float_of_int lo) = true /\
     Fval (float_of_int lo) = - 2 ^ (c + 149)) /\
    (fvalid (float_of_int hi) = true /\ is_finite (float_of_int hi) = true /\
     Fval (float_of_int hi) = 2 ^ (c + 149)) /\
    (fvalid (float_of_int (lo / 4)) = true /\
     is_finite (float_of_int (lo / 4)) = true /\
     Fval (float_of_int (lo / 4)) = - 2 ^ (c - 2 + 149)) /\
    (fvalid (float_of_int (hi / 4)) = true /\
     is_finite (float_of_int (hi / 4)) = true /\
     Fval (float_of_int (hi / 4)) = 2 ^ (c - 2 + 149)).
Proof.
  intros [[-> ->]|[-> ->]]; [exists 7|exists 6];
    (split; [lia|]); repeat split; by vm_compute.
Qed.

Section StartupRange.
Variable lc : Libc.
Hypothesis Hlc : libc_ok lc.

(** [RandomFloat] between [-2^c] and [2^c]. *)
Lemma RandomFloat_sym k c lo hi :
  -100 <= c <= 100 ->
  fvalid lo = true -> is_finite lo = true -> Fval lo = - 2 ^ (c + 149) ->
  fvalid (fsub hi lo) = true -> is_finite (fsub hi lo) = true ->
  Fsign (fsub hi lo) = false -> Fmag (fsub hi lo) = 2 ^ (c + 1 + 149) ->
  let x := fst (RandomFloat lc lo hi k) in
  fvalid x = true /\ is_finite x = true /\
  - 2 ^ (c + 149) <= Fval x <= 2 ^ (c + 149).
Proof.
  intros Hc Hvl Hfl Hl Hvw Hfw Hsw Hw x. subst x.
  unfold RandomFloat. cbv zeta. cbn [fst snd].
  destruct Hlc as (Hmax & Hrand & _).
  destruct (RandomFloat01_unit lc Hmax k (Hrand k)) as [(Hvr & Hfr & Hmr) Hsr].
  set (r := fst (RandomFloat01 lc k)) in *. set (W := fsub hi lo) in *.
  destruct (fmul_spec r W Hvr Hvw Hfr Hfw) as (Hvp & _ & Hbp).
  destruct (Hbp 1%positive (c + 1)) as [Hfp Hmp].
  { split; [reflexivity|lia]. }
  { rewrite Hw, Z.mul_1_l. change (2 ^ (0 + 149)) with (2 ^ 149) in Hmr.
    assert (0 < 2 ^ (c + 1 + 149)) by (apply Z.pow_pos_nonneg; lia).
    rewrite (Z.mul_comm (2 ^ (c + 1 + 149))).
    apply Z.mul_le_mono_nonneg_r; lia. }
  pose proof (fmul_sign r W Hfr Hfw) as Hsp. rewrite Hsr, Hsw in Hsp.
  assert (HFp : Fval (fmul r W) = Fmag (fmul r W))
    by (unfold Fval; by rewrite Hsp).
  pose proof (Fmag_nonneg (fmul r W)).
  assert (Hp2 : 2 ^ (c + 1 + 149) = 2 * 2 ^ (c + 149)).
  { replace (c + 1 + 149) with (Z.succ (c + 149)) by lia.
    apply Z.pow_succ_r. lia. }
  destruct (fadd_interval (fmul r W) lo 1 c 1 c Hvp Hvl Hfp Hfl)
    as (Hv & Hf & Hb & _).
  - split; [reflexivity|lia].
  - split; [reflexivity|lia].
  - rewrite HFp, Hl. lia.
  - split; [done|]. split; [done|]. lia.
Qed.

Lemma world_coord_range lo hi k :
  world_axis lo hi ->
  let x := fst (RandomFloat lc (float_of_int lo) (float_of_int hi) k) in
  fvalid x = true /\ is_finite x = true /\
  Fval (float_of_int lo) <= Fval x <= Fval (float_of_int hi).
Proof.
  intros [[-> ->]|[-> ->]].
  - apply (RandomFloat_sym k 7); [lia|by vm_compute..].
  - apply (RandomFloat_sym k 6); [lia|by vm_compute..].
Qed.

Lemma world_coord_in_range lo hi k :
  world_axis lo hi ->
  let x := fst (RandomFloat lc (float_of_int lo) (float_of_int hi) k) in
  fvalid x = true /\ in_range lo hi x = true.
Proof.
  intros Hax x. destruct (world_coord_range lo hi k Hax) as (Hv & Hf & Hb).
  fold x in Hv, Hf, Hb. split; [exact Hv|].
  destruct (axis_constants lo hi Hax)
    as (c & _ & (Hvl & Hfl & _) & (Hvh & Hfh & _) & _).
  by apply in_range_of_Fval.
Qed.

(** A coordinate of a hazard: a fifth of a coordinate of the world. *)
Lemma hazard_coord_range lo hi k :
  world_axis lo hi ->
  let x := fmul (fst (RandomFloat lc (float_of_int lo) (float_of_int hi) k))
             (float_of_tenths 2) in
  fvalid x = true /\ in_range lo hi x = true /\
  in_range (lo / 4) (hi / 4) x = true.
Proof.
  intros Hax x. destruct (world_coord_range lo hi k Hax) as (Hv & Hf & Hb).
  set (y := fst (RandomFloat lc (float_of_int lo) (float_of_int hi) k)) in *.
  destruct (axis_constants lo hi Hax)
    as (c & Hc & (Hvl & Hfl & Hlo) & (Hvh & Hfh & Hhi) &
        (Hvl4 & Hfl4 & Hlo4) & (Hvh4 & Hfh4 & Hhi4)).
  rewrite Hlo, Hhi in Hb.
  assert (Hmy : Fmag y <= 2 ^ (c + 149)).
  { rewrite <- Fval_abs. lia. }
  assert (Ht : fbnd (-2) (float_of_tenths 2)) by (by vm_compute).
  destruct Ht as (Hvt & Hft & Hmt).
  destruct (fmul_spec y (float_of_tenths 2) Hv Hvt Hf Hft) as (Hvx & _ & Hbx).
  destruct (Hbx 1%positive (c - 2)) as [Hfx Hmx].
  { split; [reflexivity|lia]. }
  { rewrite Z.mul_1_l.
    pose proof (Fmag_nonneg y). pose proof (Fmag_nonneg (float_of_tenths 2)).
    replace (2 ^ (c - 2 + 149) * 2 ^ 149)
      with (2 ^ (c + 149) * 2 ^ (-2 + 149)).
    - apply Z.mul_le_mono_nonneg; lia.
    - rewrite <- !Z.pow_add_r by lia. f_equal. lia. }
  fold x in Hvx, Hfx, Hmx. rewrite Z.mul_1_l, <- Fval_abs in Hmx.
  assert (Hmono : 2 ^ (c - 2 + 149) <= 2 ^ (c + 149))
    by (apply Z.pow_le_mono_r; lia).
  split; [exact Hvx|]. split.
  - apply in_range_of_Fval; [exact Hvl|exact Hfl|exact Hvh|exact Hfh|
                             exact Hvx|exact Hfx|].
    rewrite Hlo, Hhi. lia.
  - apply in_range_of_Fval; [exact Hvl4|exact Hfl4|exact Hvh4|exact Hfh4|
                             exact Hvx|exact Hfx|].
    rewrite Hlo4, Hhi4. lia.
Qed.

Lemma start_ok_set_entity n pos spr move s s' :
  start_ok n s ->
  position_valid pos = true -> in_bounds pos = true ->
  fbnd 0 (velx move) -> fbnd 0 (vely move) ->
  ((n <= m_IdGenerator s)%nat -> central pos = true) ->
  set_entity (fst (AddEntity s)) pos spr move (snd (AddEntity s)) = Some s' ->
  start_ok n s' /\ m_IdGenerator s' = S (m_IdGenerator s).
Proof.
  intros Hs Hv Hb Hvx Hvy Hc. unfold set_entity, AddEntity. cbn [fst snd].
  repeat (destruct (negb _); [done|]). intros [= <-].
  split; [|done]. intros j p m Hp Hm. simpl in *.
  destruct (decide (j = m_IdGenerator s)) as [->|Hne].
  - apply list_lookup_insert_Some in Hp as [(_ & <- & _)|[? _]]; [|done].
    apply list_lookup_insert_Some in Hm as [(_ & <- & _)|[? _]]; [|done].
    split; [done|]. split; [done|]. intros Hj. apply Hc. lia.
  - rewrite list_lookup_insert_ne in Hp by done.
    rewrite list_lookup_insert_ne in Hm by done.
    destruct (Hs j p m Hp Hm) as (H1 & H2 & H3).
    split; [done|]. split; [done|]. intros Hj. apply H3. lia.
Qed.

Lemma init_regular_start_ok cfg n i st st' :
  (m_IdGenerator (fst st) < n)%nat ->
  start_ok n (fst st) -> init_regular lc cfg i st = Some st' ->
  start_ok n (fst st') /\ m_IdGenerator (fst st') = S (m_IdGenerator (fst st)).
Proof.
  intros Hn Hs. unfold init_regular.
  cbv beta iota zeta delta [AddEntity].
  destruct (set_entity _ _ _ _ _) as [s'|] eqn:Hset; simpl; [|done].
  intros [= <-]. cbn [fst].
  destruct (world_coord_in_range (xMin s_WorldBounds) (xMax s_WorldBounds)
              (snd st) (or_introl (conj eq_refl eq_refl))) as [Hvx Hrx].
  destruct (world_coord_in_range (yMin s_WorldBounds) (yMax s_WorldBounds)
              (snd (RandomFloat lc (float_of_int (xMin s_WorldBounds))
                      (float_of_int (xMax s_WorldBounds)) (snd st)))
              (or_intror (conj eq_refl eq_refl))) as [Hvy Hry].
  cbv zeta in Hvx, Hrx, Hvy, Hry.
  refine (start_ok_set_entity n _ _ _ (fst st) s' Hs _ _ _ _ _ Hset).
  - unfold position_valid. cbn [pos_x pos_y]. by rewrite Hvx, Hvy.
  - unfold in_bounds. cbn [pos_x pos_y]. by rewrite Hrx, Hry.
  - apply Initialize_bnd; [exact Hlc|by vm_compute|by vm_compute].
  - apply Initialize_bnd; [exact Hlc|by vm_compute|by vm_compute].
  - lia.
Qed.

Lemma init_avoid_start_ok cfg n i st st' :
  start_ok n (fst st) -> init_avoid lc cfg i st = Some st' ->
  start_ok n (fst st') /\ m_IdGenerator (fst st') = S (m_IdGenerator (fst st)).
Proof.
  intros Hs. unfold init_avoid.
  cbv beta iota zeta delta [AddEntity].
  destruct (set_entity _ _ _ _ _) as [s'|] eqn:Hset; simpl; [|done].
  intros [= <-]. cbn [fst].
  destruct (hazard_coord_range (xMin s_WorldBounds) (xMax s_WorldBounds)
              (snd st) (or_introl (conj eq_refl eq_refl)))
    as (Hvx & Hrx & Hcx).
  destruct (hazard_coord_range (yMin s_WorldBounds) (yMax s_WorldBounds)
              (snd (RandomFloat lc (float_of_int (xMin s_WorldBounds))
                      (float_of_int (xMax s_WorldBounds)) (snd st)))
              (or_intror (conj eq_refl eq_refl)))
    as (Hvy & Hry & Hcy).
  cbv zeta in Hvx, Hrx, Hcx, Hvy, Hry, Hcy.
  refine (start_ok_set_entity n _ _ _ (fst st) s' Hs _ _ _ _ _ Hset).
  - unfold position_valid. cbn [pos_x pos_y]. by rewrite Hvx, Hvy.
  - unfold in_bounds. cbn [pos_x pos_y]. by rewrite Hrx, Hry.
  - apply Initialize_bnd; [exact Hlc|by vm_compute|by vm_compute].
  - apply Initialize_bnd; [exact Hlc|by vm_compute|by vm_compute].
  - intros _. unfold central. cbn [pos_x pos_y].
    change (-32) with (xMin s_WorldBounds / 4).
    change 32 with (xMax s_WorldBounds / 4).
    change (-16) with (yMin s_WorldBounds / 4).
    change 16 with (yMax s_WorldBounds / 4).
    by rewrite Hcx, Hcy.
Qed.

Lemma start_ok_reserve n k :
  start_ok n (reserve k (s_Objects game_start)).
Proof.
  intros j p m Hp Hm. unfold reserve, resize in *. simpl in *.
  rewrite take_nil in Hp. rewrite take_nil in Hm. simpl in *.
  apply lookup_replicate in Hp as [-> _].
  apply lookup_replicate in Hm as [-> _].
  split; [by vm_compute|]. split; [by vm_compute|]. lia.
Qed.

Lemma init_regular_loop_start_ok cfg n l : forall st st',
  (m_IdGenerator (fst st) + length l <= n)%nat ->
  start_ok n (fst st) ->
  foldM (init_regular lc cfg) l st = Some st' ->
  start_ok n (fst st') /\
  m_IdGenerator (fst st') = (m_IdGenerator (fst st) + length l)%nat.
Proof.
  induction l as [|i l IH]; intros st st' Hn Hs Hrun; simpl in *.
  - simplify_eq. split; [done|lia].
  - destruct (init_regular lc cfg i st) as [st1|] eqn:Hstep; simpl in Hrun;
      [|done].
    apply (init_regular_start_ok cfg n) in Hstep as [Hs1 Hid1]; [|lia|done].
    destruct (IH st1 st') as [Hs' Hid']; [lia|done|done|].
    split; [done|lia].
Qed.

Lemma init_avoid_loop_start_ok cfg n l : forall st st',
  start_ok n (fst st) ->
  foldM (init_avoid lc cfg) l st = Some st' ->
  start_ok n (fst st').
Proof.
  induction l as [|i l IH]; intros st st' Hs Hrun; simpl in *.
  - by simplify_eq.
  - destruct (init_avoid lc cfg i st) as [st1|] eqn:Hstep; simpl in Hrun;
      [|done].
    apply (init_avoid_start_ok cfg n) in Hstep as [Hs1 _]; [|done].
    by apply (IH st1 st').
Qed.

End StartupRange.

(** X14.  The store at start-up.  When [RAND_MAX] is a positive [int],
    [rand()] returns values between 0 and [RAND_MAX], and [cosf] and
    [sinf] return well-formed values of magnitude at most 1, then after
    [game_initialize] every entity has a well-formed position within the
    world bounds and velocity components of magnitude at most 1, and
    every hazard lies in the central quarter -32 <= x <= 32,
    -16 <= y <= 16 of the world. *)
Theorem initialize_positions lc cfg :
  libc_ok lc ->
  exists gm0,
    game_initialize lc cfg game_start = Some gm0 /\
    forall j p m,
      m_Positions (s_Objects gm0) !! j = Some p ->
      m_Moves (s_Objects gm0) !! j = Some m ->
      (position_valid p = true /\ in_bounds p = true) /\
      (fbnd 0 (velx m) /\ fbnd 0 (vely m)) /\
      ((kObjectCount cfg <= j)%nat -> central p = true).
Proof.
  intros Hlc.
  destruct (game_initialize_spec lc cfg) as (gm0 & Hinit & Hs & Hid).
  exists gm0. split; [exact Hinit|].
  revert Hinit. unfold game_initialize. cbv zeta.
  destruct (foldM (init_regular lc cfg) _ _) as [st1|] eqn:H1; simpl; [|done].
  destruct (foldM (init_avoid lc cfg) _ _) as [st2|] eqn:H2; simpl; [|done].
  intros [= <-]. cbn [s_Objects] in *.
  apply (init_regular_loop_start_ok lc Hlc cfg (kObjectCount cfg)) in H1
    as [Hs1 _].
  - apply (init_avoid_loop_start_ok lc Hlc cfg (kObjectCount cfg)) in H2;
      [|exact Hs1].
    intros j p m Hp Hm. destruct (H2 j p m Hp Hm) as (Ha & Hb & Hc).
    split; [exact Ha|]. split; [exact Hb|]. intros Hj. apply Hc.
    apply lookup_lt_Some in Hp. destruct Hs as (Hl & _). lia.
  - rewrite length_seq. simpl. lia.
  - apply start_ok_reserve.
Qed.

Lemma initialize_positions_witness :
  exists gm0,
    game_initialize libc_zero scene_config game_start = Some gm0 /\
    forall j p m,
      m_Positions (s_Objects gm0) !! j = Some p ->
      m_Moves (s_Objects gm0) !! j = Some m ->
      (position_valid p = true /\ in_bounds p = true) /\
      (fbnd 0 (velx m) /\ fbnd 0 (vely m)) /\
      ((kObjectCount scene_config <= j)%nat -> central p = true).
Proof. apply initialize_positions, libc_zero_ok. Defined.

(** * Start-up: the conversions to [uint8_t] *)

Section StartupCasts.
Variable lc : Libc.
Hypothesis Hlc : libc_ok lc.

(** [(uint8_t)r] for a value between 0 and 256. *)
Lemma uint8_of_float_Fval u r :
  fvalid r = true -> is_finite r = true ->
  0 <= Fval r < 2 ^ 8 * 2 ^ 149 ->
  uint8_of_float u r = Fval r / 2 ^ 149.
Proof.
  intros Hv Hf Hr. destruct r as [s|s| |s m e]; try done.
  - by rewrite Fval_zero.
  - apply fvalid_finite in Hv as (Hm & He & _).
    pose proof (Fmag_finite_pos s m e ltac:(lia)) as Hpos.
    unfold Fval in *. simpl Fsign in *. destruct s; [lia|].
    simpl Fmag in *. simpl uint8_of_float.
    assert (Hsh : Z.shiftl (Z.pos m) e = Z.pos m * 2 ^ (e + 149) / 2 ^ 149).
    { destruct (Z.le_gt_cases 0 e).
      - rewrite Z.shiftl_mul_pow2, Z.pow_add_r by lia.
        rewrite Z.mul_assoc, Z.div_mul; lia.
      - rewrite Z.shiftl_div_pow2 by lia.
        replace (2 ^ 149) with (2 ^ (- e) * 2 ^ (e + 149)).
        + rewrite Z.div_mul_cancel_r; lia.
        + rewrite <- Z.pow_add_r by lia. f_equal. lia. }
    rewrite Hsh.
    assert (Z.pos m * 2 ^ (e + 149) / 2 ^ 149 < 2 ^ 8)
      by (apply Z.div_lt_upper_bound; lia).
    destruct (_ <? _) eqn:Hlt; [done|]. apply Z.ltb_ge in Hlt. lia.
Qed.

(** A colour channel or sprite index drawn between [from] and 1, for
    [from] between 0 and 1 and a width [1 - from] of at most [2^a]: the
    value drawn is at most 1 and the value converted is in [0, 255]. *)
Lemma channel_defined a from k u1 u2 :
  -149 <= a <= 0 ->
  fbnd a (fsub (float_of_int 1) from) -> 0 <= Fval (fsub (float_of_int 1) from) ->
  fbnd 0 from -> 0 <= Fval from ->
  2 ^ (a + 149) + Fval from <= 2 ^ 149 ->
  let f := fmul (float_of_int 255)
             (fst (RandomFloat lc from (float_of_int 1) k)) in
  uint8_of_float u1 f = uint8_of_float u2 f.
Proof.
  intros Ha Hd Hd0 Hf Hf0 Hsum f. subst f. unfold RandomFloat.
  cbv zeta. cbn [fst snd].
  destruct Hlc as (Hmax & Hrand & _).
  destruct (RandomFloat01_unit lc Hmax k (Hrand k)) as [Hr Hsr].
  set (r := fst (RandomFloat01 lc k)) in *. set (W := fsub (float_of_int 1) from) in *.
  assert (Hr0 : 0 <= Fval r).
  { unfold Fval. rewrite Hsr. apply Fmag_nonneg. }
  assert (Hp : fbnd (0 + a) (fmul r W)) by (apply fmul_bnd; [lia..|exact Hr|exact Hd]).
  assert (Hp0 : 0 <= Fval (fmul r W)).
  { destruct Hr as (? & ? & _), Hd as (? & ? & _). by apply fmul_nonneg. }
  destruct Hp as (Hvp & Hfp & Hmp), Hf as (Hvf & Hff & Hmf).
  assert (Hpm : Fval (fmul r W) <= 2 ^ (a + 149)).
  { rewrite <- (Z.abs_eq (Fval (fmul r W))) by exact Hp0.
    rewrite Fval_abs. exact Hmp. }
  destruct (fadd_interval (fmul r W) from 1 (-149) 1 0 Hvp Hvf Hfp Hff)
    as (Hvc & Hfc & Hrc & Hc0); [split; [reflexivity|lia]..| |].
  { change (Z.pos 1 * 2 ^ (-149 + 149)) with 1.
    change (Z.pos 1 * 2 ^ (0 + 149)) with (2 ^ 149). lia. }
  set (c := fadd (fmul r W) from) in *.
  change (Z.pos 1 * 2 ^ (0 + 149)) with (2 ^ 149) in Hrc.
  assert (Hc0' : 0 <= Fval c) by (apply Hc0; lia).
  assert (H255 : fvalid (float_of_int 255) = true /\
                 is_finite (float_of_int 255) = true /\
                 Fmag (float_of_int 255) = 255 * 2 ^ 149 /\
                 0 <= Fval (float_of_int 255)) by (by vm_compute).
  destruct H255 as (Hv255 & Hf255 & Hm255 & H2550).
  destruct (fmul_spec (float_of_int 255) c Hv255 Hvc Hf255 Hfc)
    as (Hvx & _ & Hbx).
  destruct (Hbx 255%positive 0) as [Hfx Hmx]; [split; [reflexivity|lia]|..].
  { rewrite Hm255. rewrite <- (Fval_abs c), Z.abs_eq by exact Hc0'.
    change (Z.pos 255 * 2 ^ (0 + 149)) with (255 * 2 ^ 149).
    apply Z.mul_le_mono_nonneg_l; lia. }
  assert (Hx0 : 0 <= Fval (fmul (float_of_int 255) c))
    by (by apply fmul_nonneg).
  set (x := fmul (float_of_int 255) c) in *.
  assert (Hlt : 0 <= Fval x < 2 ^ 8 * 2 ^ 149).
  { split; [exact Hx0|]. rewrite <- (Z.abs_eq (Fval x)) by exact Hx0.
    rewrite Fval_abs.
    change (Z.pos 255 * 2 ^ (0 + 149)) with (255 * 2 ^ 149) in Hmx. lia. }
  by rewrite (uint8_of_float_Fval u1 x Hvx Hfx Hlt),
             (uint8_of_float_Fval u2 x Hvx Hfx Hlt).
Qed.

Lemma init_regular_undef cfg1 cfg2 i st :
  init_regular lc cfg1 i st = init_regular lc cfg2 i st.
Proof.
  unfold init_regular. cbv beta iota zeta delta [AddEntity].
  rewrite (channel_defined 0 fzero _ (cast_undef cfg1) (cast_undef cfg2));
    [done|lia|by vm_compute..].
Qed.

Lemma init_avoid_undef cfg1 cfg2 i st :
  init_avoid lc cfg1 i st = init_avoid lc cfg2 i st.
Proof.
  unfold init_avoid. cbv beta iota zeta delta [AddEntity].
  rewrite !(channel_defined (-1) (float_of_tenths 5) _
              (cast_undef cfg1) (cast_undef cfg2));
    [done|lia|by vm_compute..].
Qed.

End StartupCasts.

Lemma foldM_ext {A S} (f g : A -> S -> option S) l s :
  (forall a t, f a t = g a t) -> foldM f l s = foldM g l s.
Proof.
  intros H. revert s. induction l as [|a l IH]; intros s; simpl; [done|].
  rewrite H. destruct (g a s); simpl; [apply IH|done].
Qed.

(** X15.  Start-up performs no undefined conversion.  Under the same
    assumptions on the C library, every value that [game_initialize]
    converts to [uint8_t] lies between 0 and 255, the range in which the
    conversion is defined: the result of start-up does not depend on what
    the target delivers for an out-of-range conversion from [float]. *)
Theorem initialize_conversions_defined lc cfg1 cfg2 gm :
  libc_ok lc ->
  kObjectCount cfg1 = kObjectCount cfg2 ->
  kAvoidCount cfg1 = kAvoidCount cfg2 ->
  game_initialize lc cfg1 gm = game_initialize lc cfg2 gm.
Proof.
  intros Hlc Ho Ha. unfold game_initialize. cbv zeta. rewrite Ho, Ha.
  rewrite (foldM_ext (init_regular lc cfg1) (init_regular lc cfg2))
    by (intros; by apply init_regular_undef).
  destruct (foldM (init_regular lc cfg2) _ _) as [st1|]; simpl; [|done].
  rewrite (foldM_ext (init_avoid lc cfg1) (init_avoid lc cfg2))
    by (intros; by apply init_avoid_undef).
  done.
Qed.

Lemma initialize_conversions_defined_witness :
  game_initialize libc_zero (mkConfig 1 1 (fun _ => 0)) game_start =
  game_initialize libc_zero (mkConfig 1 1 (fun _ => 4294967295)) game_start.
Proof.
  apply initialize_conversions_defined; [apply libc_zero_ok|done|done].
Defined.

(** * A hazard on a lower face *)

(** X16.  The rebuild of the grid converts a negative value.  For a
    hazard on the [xMin] face, which is where the Motion System puts a
    hazard that crosses it, the lower-left corner
    [(unsigned int)(x - kAvoidDistance - xMin)] is the conversion of -1.3,
    which is undefined.  What the grid holds depends on its result: when
    it is 0 the hazard is registered in the buckets 31 and 32, when it is
    [2^32 - 1] the hazard is registered in no bucket. *)
Theorem rebuild_converts_negative_value :
  (forall i p, face_positions !! i = Some p ->
     position_valid p = true /\ in_bounds p = true) /\
  (exists g,
     AvoidanceSystem.build (mkConfig 1 1 (fun _ => 0)) face_positions
       (fun _ _ => 0%nat) = Some g /\
     bucket g 31 = [1%nat] /\ bucket g 32 = [1%nat]) /\
  (exists g,
     AvoidanceSystem.build (mkConfig 1 1 (fun _ => 2 ^ 32 - 1)) face_positions
       (fun _ _ => 0%nat) = Some g /\
     forall h, bucket g h = []).
Proof.
  split; [|split].
  - intros [|[|i]] p Hp; simpl in Hp; simplify_eq; split; by vm_compute.
  - eexists. split; [by vm_compute|]. split; by vm_compute.
  - eexists. split; [by vm_compute|]. intros h.
    assert (H0 : forall h', 0 <= AvoidanceSystem.activeAvoidCount
                                 (AvoidanceSystem.mkGrid (fun _ _ => 0%nat)
                                    (fun _ => 0)) h')
      by (intros h'; simpl; lia).
    rewrite (bucket_build_loop (mkConfig 1 1 (fun _ => 2 ^ 32 - 1))
               face_positions [1%nat] _ _ ltac:(simpl; lia) H0
               ltac:(by vm_compute) h).
    reflexivity.
Qed.

(** * Calls out of order *)

Lemma foldM_cons_None {A S} (f : A -> S -> option S) a l s :
  f a s = None -> foldM f (a :: l) s = None.
Proof. simpl. by intros ->. Qed.

(** X17.  [game_update] needs [game_initialize] first.  On the initial
    state of the process, where the three arrays are empty, the first
    iteration of the Motion System reads outside them: [game_update]
    does not complete, whatever its [deltaTime], as soon as the
    population is not empty. *)
Theorem update_before_initialize cfg dt :
  (0 < kObjectCount cfg + kAvoidCount cfg)%nat ->
  game_update cfg dt game_start = None.
Proof.
  intros Hn. unfold game_update, MoveSystem.UpdateSystem.
  destruct (kObjectCount cfg + kAvoidCount cfg)%nat as [|n]; [lia|].
  reflexivity.
Qed.

Lemma update_before_initialize_witness :
  game_update scene_config (fpow2 (-6)) game_start = None.
Proof. apply update_before_initialize. simpl. lia. Defined.

Lemma init_step_full lc cfg f i st :
  f = init_regular lc \/ f = init_avoid lc ->
  (length (m_Positions (fst st)) <= m_IdGenerator (fst st))%nat ->
  f cfg i st = None.
Proof.
  intros Hf Hlen.
  assert (Hlt : (m_IdGenerator (fst st) <? length (m_Positions (fst st)))%nat
                = false) by (apply Nat.ltb_ge; lia).
  destruct Hf as [-> | ->]; unfold init_regular, init_avoid;
    cbv beta iota zeta delta [AddEntity]; unfold set_entity;
    cbn [m_Positions m_Sprites m_Moves m_IdGenerator]; by rewrite Hlt.
Qed.

Lemma resize_same {A} (d : A) l : resize (length l) d l = l.
Proof.
  unfold resize. rewrite firstn_all, Nat.sub_diag. simpl.
  by rewrite app_nil_r.
Qed.

(** X18.  [game_initialize] cannot be called twice.  [reserve] keeps
    the identifier generator, so a second call takes its first
    identifier past the end of the arrays and writes outside them: after
    a first call that completed, the second one does not complete, as
    soon as the population is not empty. *)
Theorem initialize_twice lc lc' cfg gm0 :
  (0 < kObjectCount cfg + kAvoidCount cfg)%nat ->
  game_initialize lc cfg game_start = Some gm0 ->
  game_initialize lc' cfg gm0 = None.
Proof.
  intros Hn Hinit.
  destruct (game_initialize_spec lc cfg) as (gm0' & Hinit' & Hs & Hid).
  rewrite Hinit in Hinit'. simplify_eq.
  destruct Hs as (Hlp & Hls & Hlm).
  unfold game_initialize. cbv zeta.
  set (s := reserve _ _).
  assert (Hfull : (length (m_Positions s) <= m_IdGenerator s)%nat).
  { subst s. unfold reserve. simpl. rewrite resize_length. lia. }
  destruct (kObjectCount cfg) as [|n] eqn:Ho.
  - simpl. destruct (kAvoidCount cfg) as [|a] eqn:Ha; [simpl in Hn; lia|].
    simpl. rewrite (init_step_full lc' cfg (init_avoid lc') 0 (s, 0%nat));
      [done|by right|done].
  - simpl. rewrite (init_step_full lc' cfg (init_regular lc') 0 (s, 0%nat));
      [done|by left|done].
Qed.

Lemma initialize_twice_witness :
  exists gm0,
    game_initialize libc_zero scene_config game_start = Some gm0 /\
    game_initialize libc_zero scene_config gm0 = None.
Proof.
  eexists. split; [by vm_compute|].
  apply (initialize_twice libc_zero libc_zero scene_config).
  - simpl. lia.
  - by vm_compute.
Defined.

(** * Conversions to [unsigned int] in the Avoidance System *)

Section Conversions.
Import AvoidanceSystem.

(** A sum that is not negative and below [2^32] is converted the same way
    on every target. *)
Lemma converted_defined x c mh eh u1 u2 :
  fvalid x = true -> fvalid c = true ->
  is_finite x = true -> is_finite c = true ->
  Fbound mh eh -> Z.pos mh * 2 ^ (eh + 149) < 2 ^ 32 * 2 ^ 149 ->
  0 <= Fval x + Fval c <= Z.pos mh * 2 ^ (eh + 149) ->
  uint_of_float u1 (fadd x c) = uint_of_float u2 (fadd x c).
Proof.
  intros Hvx Hvc Hfx Hfc Hb Hlt Hs.
  destruct (fadd_interval x c 1 (-149) mh eh Hvx Hvc Hfx Hfc)
    as (Hv & Hf & Hr & H0); [split; [reflexivity|lia]|done| |].
  { change (Z.pos 1 * 2 ^ (-149 + 149)) with 1. lia. }
  assert (Hr' : 0 <= Fval (fadd x c) < 2 ^ 32 * 2 ^ 149).
  { split; [apply H0; lia|lia]. }
  by rewrite (uint_of_float_Fval u1 _ Hv Hf Hr'),
             (uint_of_float_Fval u2 _ Hv Hf Hr').
Qed.

(** The constants of the lower face of an axis. *)
Lemma face_constants lo hi :
  world_axis lo hi ->
  exists c, 6 <= c <= 7 /\
    (fvalid (float_of_int lo) = true /\ is_finite (float_of_int lo) = true /\
     Fval (float_of_int lo) = - 2 ^ (c + 149)) /\
    (fvalid (float_of_int hi) = true /\ is_finite (float_of_int hi) = true /\
     Fval (float_of_int hi) = 2 ^ (c + 149)) /\
    (fvalid (float_of_int (lo + 2)) = true /\
     is_finite (float_of_int (lo + 2)) = true /\
     Fval (float_of_int (lo + 2)) = - 2 ^ (c + 149) + 2 * 2 ^ 149) /\
    (fvalid (fneg (float_of_int lo)) = true /\
     is_finite (fneg (float_of_int lo)) = true /\
     Fval (fneg (float_of_int lo)) = 2 ^ (c + 149)).
Proof.
  intros [[-> ->]|[-> ->]]; [exists 7|exists 6];
    (split; [lia|]); repeat split; by vm_compute.
Qed.

Lemma kAvoidDistance_props :
  fvalid kAvoidDistance = true /\ is_finite kAvoidDistance = true /\
  2 ^ 149 <= Fval kAvoidDistance <= 2 * 2 ^ 149 /\
  fvalid (fneg kAvoidDistance) = true /\
  is_finite (fneg kAvoidDistance) = true /\
  Fval (fneg kAvoidDistance) = - Fval kAvoidDistance.
Proof. repeat split; by vm_compute. Qed.

(** The cell of a coordinate that is not below the lower face and at most
    512. *)
Lemma cell_coord_defined cfg1 cfg2 f lo hi size :
  world_axis lo hi ->
  fvalid f = true -> is_finite f = true ->
  Fval (float_of_int lo) <= Fval f <= 2 ^ (9 + 149) ->
  cell_coord cfg1 f lo size = cell_coord cfg2 f lo size.
Proof.
  intros Hax Hv Hf Hr.
  destruct (face_constants lo hi Hax)
    as (c & Hc & (Hvl & Hfl & Hlo) & _ & _ & (Hvn & Hfn & Hn)).
  unfold cell_coord. rewrite fsub_fadd. f_equal.
  apply (converted_defined f _ 1 10 _ _ Hv Hvn Hf Hfn).
  - split; [reflexivity|lia].
  - change (Z.pos 1 * 2 ^ (10 + 149)) with (2 ^ 10 * 2 ^ 149). lia.
  - rewrite Hn. rewrite Hlo in Hr.
    assert (2 ^ (c + 149) <= 2 ^ (9 + 149)) by (apply Z.pow_le_mono_r; lia).
    change (Z.pos 1 * 2 ^ (10 + 149)) with (2 * 2 ^ (9 + 149)). lia.
Qed.

(** The three coordinates converted for a position: its own, the upper
    corner and, away from the lower face, the lower corner. *)
Lemma coords_defined lo hi p :
  world_axis lo hi -> fvalid p = true -> in_range lo hi p = true ->
  (fvalid p = true /\ is_finite p = true /\
   Fval (float_of_int lo) <= Fval p <= 2 ^ (9 + 149)) /\
  (fvalid (fadd p kAvoidDistance) = true /\
   is_finite (fadd p kAvoidDistance) = true /\
   Fval (float_of_int lo) <= Fval (fadd p kAvoidDistance) <= 2 ^ (9 + 149)) /\
  (in_range (lo + 2) hi p = true ->
   fvalid (fsub p kAvoidDistance) = true /\
   is_finite (fsub p kAvoidDistance) = true /\
   Fval (float_of_int lo) <= Fval (fsub p kAvoidDistance) <= 2 ^ (9 + 149)).
Proof.
  intros Hax Hv Hr.
  destruct (face_constants lo hi Hax)
    as (c & Hc & (Hvl & Hfl & Hlo) & (Hvh & Hfh & Hhi) & (Hv2 & Hf2 & Hlo2) & _).
  destruct (in_range_Fval lo hi p Hv Hr Hvl Hvh Hfl Hfh) as (Hf & Hpl & Hph).
  destruct kAvoidDistance_props as (Hvk & Hfk & Hk & Hvnk & Hfnk & Hnk).
  rewrite Hlo, Hhi in *.
  assert (Hc9 : 2 ^ (c + 149) + 2 * 2 ^ 149 <= 2 ^ (9 + 149)).
  { assert (2 ^ (c + 149) <= 2 ^ (7 + 149)) by (apply Z.pow_le_mono_r; lia).
    change (2 ^ (7 + 149)) with (2 ^ 7 * 2 ^ 149) in *.
    change (2 ^ (9 + 149)) with (2 ^ 9 * 2 ^ 149). lia. }
  assert (Hpc : 0 < 2 ^ (c + 149)) by (apply Z.pow_pos_nonneg; lia).
  split; [|split].
  - split; [done|]. split; [done|]. lia.
  - destruct (fadd_interval p kAvoidDistance 1 c 1 9 Hv Hvk Hf Hfk)
      as (Hv1 & Hf1 & Hr1 & _); [split; [reflexivity|lia]..| |].
    + rewrite !Z.mul_1_l. lia.
    + rewrite !Z.mul_1_l in Hr1. done.
  - intros Hr2.
    destruct (in_range_Fval (lo + 2) hi p Hv Hr2 Hv2 Hvh Hf2 Hfh)
      as (_ & Hpl2 & _).
    rewrite Hlo2 in Hpl2. rewrite fsub_fadd.
    destruct (fadd_interval p (fneg kAvoidDistance) 1 c 1 9 Hv Hvnk Hf Hfnk)
      as (Hv1 & Hf1 & Hr1 & _); [split; [reflexivity|lia]..| |].
    + rewrite !Z.mul_1_l, Hnk. lia.
    + rewrite !Z.mul_1_l in Hr1. done.
Qed.

Lemma footprint_defined cfg1 cfg2 p :
  position_valid p = true -> in_bounds p = true -> inner p = true ->
  footprint cfg1 p = footprint cfg2 p.
Proof.
  intros Hv Hb Hi. apply position_valid_split in Hv as [Hvx Hvy].
  apply in_bounds_split in Hb as [Hbx Hby].
  apply andb_true_iff in Hi as [Hix Hiy].
  destruct (coords_defined (-128) 128 (pos_x p)
              (or_introl (conj eq_refl eq_refl)) Hvx Hbx)
    as (_ & (Htx1 & Htx2 & Htx3) & Hbx').
  destruct (Hbx' Hix) as (Hbx1 & Hbx2 & Hbx3).
  destruct (coords_defined (-64) 64 (pos_y p)
              (or_intror (conj eq_refl eq_refl)) Hvy Hby)
    as (_ & (Hty1 & Hty2 & Hty3) & Hby').
  destruct (Hby' Hiy) as (Hby1 & Hby2 & Hby3).
  unfold footprint, topRight, bottomLeft. cbv zeta. cbn [fst snd].
  change (xMin s_WorldBounds) with (-128).
  change (yMin s_WorldBounds) with (-64).
  rewrite (cell_coord_defined cfg1 cfg2 (fadd (pos_x p) kAvoidDistance)
             (-128) 128 _ (or_introl (conj eq_refl eq_refl)) Htx1 Htx2 Htx3).
  rewrite (cell_coord_defined cfg1 cfg2 (fadd (pos_y p) kAvoidDistance)
             (-64) 64 _ (or_intror (conj eq_refl eq_refl)) Hty1 Hty2 Hty3).
  rewrite (cell_coord_defined cfg1 cfg2 (fsub (pos_x p) kAvoidDistance)
             (-128) 128 _ (or_introl (conj eq_refl eq_refl)) Hbx1 Hbx2 Hbx3).
  rewrite (cell_coord_defined cfg1 cfg2 (fsub (pos_y p) kAvoidDistance)
             (-64) 64 _ (or_intror (conj eq_refl eq_refl)) Hby1 Hby2 Hby3).
  reflexivity.
Qed.

Lemma query_hash_defined cfg1 cfg2 p :
  position_valid p = true -> in_bounds p = true ->
  query_hash cfg1 p = query_hash cfg2 p.
Proof.
  intros Hv Hb. apply position_valid_split in Hv as [Hvx Hvy].
  apply in_bounds_split in Hb as [Hbx Hby].
  destruct (coords_defined (-64) 64 (pos_y p)
              (or_intror (conj eq_refl eq_refl)) Hvy Hby)
    as ((Hy1 & Hy2 & Hy3) & _).
  unfold query_hash. cbv zeta.
  change (yMin s_WorldBounds) with (-64).
  by rewrite (cell_coord_defined cfg1 cfg2 (pos_y p) (-64) 64 _
                (or_intror (conj eq_refl eq_refl)) Hy1 Hy2 Hy3).
Qed.

Lemma insert_cfg cfg1 cfg2 ia h g :
  kAvoidCount cfg1 = kAvoidCount cfg2 ->
  insert cfg1 ia h g = insert cfg2 ia h g.
Proof. intros H. unfold insert. by rewrite H. Qed.

Lemma check_cfg cfg1 cfg2 dt g io hash ia s :
  kAvoidCount cfg1 = kAvoidCount cfg2 ->
  check cfg1 dt g io hash ia s = check cfg2 dt g io hash ia s.
Proof. intros H. unfold check. by rewrite H. Qed.

Lemma build_defined cfg1 cfg2 positions grid :
  kObjectCount cfg1 = kObjectCount cfg2 ->
  kAvoidCount cfg1 = kAvoidCount cfg2 ->
  (forall ia p, (kObjectCount cfg1 <= ia)%nat -> positions !! ia = Some p ->
     position_valid p = true /\ in_bounds p = true /\ inner p = true) ->
  build cfg1 positions grid = build cfg2 positions grid.
Proof.
  intros Ho Ha Hpos. unfold build. rewrite <- Ho, <- Ha.
  apply foldM_ext_in. intros ia g Hia. apply elem_of_seq in Hia.
  unfold build_body. destruct (positions !! ia) as [p|] eqn:Hp; simpl; [|done].
  destruct (Hpos ia p ltac:(lia) Hp) as (Hv & Hb & Hi).
  rewrite (footprint_defined cfg1 cfg2 p Hv Hb Hi).
  apply foldM_ext_in. intros h t _. by apply insert_cfg.
Qed.

Lemma query_body_defined cfg1 cfg2 dt g io s p :
  kAvoidCount cfg1 = kAvoidCount cfg2 ->
  m_Positions s !! io = Some p ->
  position_valid p = true -> in_bounds p = true ->
  query_body cfg1 dt g io s = query_body cfg2 dt g io s.
Proof.
  intros Ha Hp Hv Hb. unfold query_body. rewrite Hp. simpl.
  rewrite (query_hash_defined cfg1 cfg2 p Hv Hb).
  destruct (negb _); [done|].
  apply foldM_ext_in. intros ia t _. by apply check_cfg.
Qed.

Lemma query_defined cfg1 cfg2 dt g s :
  kAvoidCount cfg1 = kAvoidCount cfg2 ->
  (forall i p, m_Positions s !! i = Some p ->
     position_valid p = true /\ in_bounds p = true) ->
  forall n a t,
    (forall j, (a <= j)%nat -> m_Positions t !! j = m_Positions s !! j) ->
    foldM (query_body cfg1 dt g) (seq a n) t =
    foldM (query_body cfg2 dt g) (seq a n) t.
Proof.
  intros Ha Hpos. induction n as [|n IH]; intros a t Hsame; simpl; [done|].
  destruct (m_Positions t !! a) as [p|] eqn:Hp.
  - destruct (Hpos a p) as [Hv Hb]; [by rewrite <- Hsame|].
    rewrite (query_body_defined cfg1 cfg2 dt g a t p Ha Hp Hv Hb).
    destruct (query_body cfg2 dt g a t) as [t'|] eqn:Hq; simpl; [|done].
    apply IH. intros j Hj.
    apply query_body_frame in Hq as (_ & _ & _ & _ & _ & Hfr).
    destruct (Hfr j) as (-> & _); [lia|]. apply Hsame. lia.
  - unfold query_body. by rewrite Hp.
Qed.

End Conversions.

(** X19.  Away from the lower faces the result of an Avoidance System
    pass is the same on every target.  When every position of the store is
    well formed and within the world bounds, and every hazard is at least
    2 away from the faces [xMin] and [yMin], the row of each entity and
    the footprint corners of each hazard are conversions of values between
    0 and [2^32]: two configurations with the same population that
    differ in what an out-of-range conversion to [unsigned int] delivers
    give the same result. *)
Theorem avoidance_conversions_defined cfg1 cfg2 dt grid s :
  kObjectCount cfg1 = kObjectCount cfg2 ->
  kAvoidCount cfg1 = kAvoidCount cfg2 ->
  (forall i p, m_Positions s !! i = Some p ->
     position_valid p = true /\ in_bounds p = true) ->
  (forall ia p, (kObjectCount cfg1 <= ia)%nat ->
     m_Positions s !! ia = Some p -> inner p = true) ->
  AvoidanceSystem.UpdateSystem cfg1 dt grid s =
  AvoidanceSystem.UpdateSystem cfg2 dt grid s.
Proof.
  intros Ho Ha Hpos Hin. unfold AvoidanceSystem.UpdateSystem.
  rewrite (build_defined cfg1 cfg2 (m_Positions s) grid Ho Ha).
  - destruct (AvoidanceSystem.build cfg2 _ _) as [g|]; simpl; [|done].
    rewrite <- Ho.
    by rewrite (query_defined cfg1 cfg2 dt g s Ha Hpos
                  (kObjectCount cfg1) 0%nat s).
  - intros ia p Hia Hp. destruct (Hpos ia p Hp) as [Hv Hb].
    split; [done|]. split; [done|]. by apply (Hin ia).
Qed.

Lemma avoidance_conversions_defined_witness :
  AvoidanceSystem.UpdateSystem (mkConfig 1 1 (fun _ => 0)) (fpow2 (-6))
    (fun _ _ => 0%nat) (scene (mkMove (fpow2 (-1)) (fpow2 (-1)))) =
  AvoidanceSystem.UpdateSystem (mkConfig 1 1 (fun _ => 2 ^ 32 - 1)) (fpow2 (-6))
    (fun _ _ => 0%nat) (scene (mkMove (fpow2 (-1)) (fpow2 (-1)))).
Proof.
  apply avoidance_conversions_defined; [done|done| |].
  - apply scene_positions_ok.
  - intros [|[|ia]] p Hia Hp; simpl in *; simplify_eq; [lia|by vm_compute].
Defined.

(** * Properties of the specification that rest on rounding errors *)

(** * The error of one rounding *)

(** Rounding an aligned mantissa whose value, at the scale [2^K], is at
    most [2^c]: the result is finite and within [2^(c-23)] of the exact
    value. *)
Lemma binary_round_aux_err s m e K c :
  e <= fexp prec emax (Z.pos (digits2_pos m) + e) ->
  - K <= e -> 149 <= K -> -126 <= c <= 126 ->
  Z.pos m * 2 ^ (e + K) <= 2 ^ (c + K) ->
  let r := binary_round_aux prec emax s (Z.pos m) e loc_Exact in
  is_finite r = true /\
  Z.abs (Fmag r * 2 ^ (K - 149) - Z.pos m * 2 ^ (e + K)) <= 2 ^ (c - 23 + K).
Proof.
  intros HP HK1 HK2 Hc Hle r. subst r.
  destruct (binary_round_aux_mag_loc s m e K loc_Exact HP HK1 HK2)
    as (_ & _ & Hb).
  destruct (Hb 8388608%positive (c - 23)) as [Hfin _];
    [split; [reflexivity|lia]| |].
  { right. split; [done|].
    change (Z.pos 8388608) with (2 ^ 23). rewrite <- Z.pow_add_r by lia.
    replace (23 + (c - 23 + K)) with (c + K) by lia. exact Hle. }
  split; [exact Hfin|].
  pose proof (binary_round_aux_aligned_loc s m e loc_Exact) as Hal.
  cbv zeta in Hal.
  set (E := fexp prec emax (Z.pos (digits2_pos m) + e)) in *.
  destruct (Hal HP)
    as (m2 & m3 & e3 & _ & Hres & Hm3 & He3 & HE & Hr3 & Hcan & Hfloor & Hstrict
        & _).
  rewrite Hres in *. clear Hres Hal Hb.
  pose proof (digits2_bounds m) as [Hdlo _].
  set (d := Z.pos (digits2_pos m)) in *.
  assert (Hpe : 0 < 2 ^ (e + K)) by (apply Z.pow_pos_nonneg; lia).
  assert (HEc : E <= c - 23).
  { assert (HE' : E = Z.max (d + e - 24) (-149)) by apply fexp32.
    destruct (Z.le_gt_cases (d + e - 24) (c - 23)) as [|Hgt]; [lia|exfalso].
    assert (Hp : 2 ^ (1 + (c + K)) <= 2 ^ (d - 1 + (e + K)))
      by (apply Z.pow_le_mono_r; lia).
    rewrite (Z.pow_add_r 2 1 (c + K)) in Hp by lia.
    rewrite (Z.pow_add_r 2 (d - 1) (e + K)) in Hp by lia.
    assert (0 < 2 ^ (c + K)) by (apply Z.pow_pos_nonneg; lia).
    change (2 ^ 1) with 2 in Hp. nia. }
  set (k := E - e) in *.
  assert (Hk : 0 <= k) by (unfold k; lia).
  assert (Hpk : 0 < 2 ^ k) by (apply Z.pow_pos_nonneg; lia).
  assert (Hlo : Z.pos m / 2 ^ k <= m2).
  { apply Hfloor. rewrite Z.mul_comm. apply Z.mul_div_le. lia. }
  assert (Hhi : m2 <= Z.pos m / 2 ^ k + 1).
  { apply Hstrict.
    pose proof (Z.div_mod (Z.pos m) (2 ^ k) ltac:(lia)) as Hdm.
    pose proof (Z.mod_pos_bound (Z.pos m) (2 ^ k) ltac:(lia)). lia. }
  assert (Hdiff : Z.abs (m2 * 2 ^ k - Z.pos m) <= 2 ^ k).
  { pose proof (Z.div_mod (Z.pos m) (2 ^ k) ltac:(lia)) as Hdm.
    pose proof (Z.mod_pos_bound (Z.pos m) (2 ^ k) ltac:(lia)). nia. }
  assert (Hmag : Fmag (round_result s m3 e3) * 2 ^ (K - 149) =
                 m2 * 2 ^ k * 2 ^ (e + K)).
  { unfold round_result in *. destruct m3 as [|p|p]; [simpl; lia| |lia].
    change (emax - prec) with 104 in *.
    destruct (e3 <=? 104) eqn:Hle3; [|done]. apply Z.leb_le in Hle3.
    simpl Fmag. rewrite <- Hm3.
    rewrite <- !Z.mul_assoc, <- !Z.pow_add_r by lia.
    do 2 f_equal. unfold k. lia. }
  rewrite Hmag.
  replace (m2 * 2 ^ k * 2 ^ (e + K) - Z.pos m * 2 ^ (e + K))
    with ((m2 * 2 ^ k - Z.pos m) * 2 ^ (e + K)) by lia.
  rewrite Z.abs_mul, (Z.abs_eq (2 ^ (e + K))) by lia.
  replace (c - 23 + K) with ((c - 23 - E) + (k + (e + K))) by (unfold k; lia).
  rewrite (Z.pow_add_r 2 (c - 23 - E)), (Z.pow_add_r 2 k) by lia.
  assert (Hg : 1 <= 2 ^ (c - 23 - E)).
  { assert (0 < 2 ^ (c - 23 - E)) by (apply Z.pow_pos_nonneg; lia). lia. }
  assert (H1 : Z.abs (m2 * 2 ^ k - Z.pos m) * 2 ^ (e + K) <= 2 ^ k * 2 ^ (e + K))
    by (apply Z.mul_le_mono_nonneg_r; lia).
  assert (H2 : 1 * (2 ^ k * 2 ^ (e + K)) <=
               2 ^ (c - 23 - E) * (2 ^ k * 2 ^ (e + K))).
  { apply Z.mul_le_mono_nonneg_r; [|exact Hg].
    apply Z.mul_nonneg_nonneg; lia. }
  lia.
Qed.

Lemma binary_round_err s m e c :
  -149 <= e -> -126 <= c <= 126 ->
  Z.pos m * 2 ^ (e + 149) <= 2 ^ (c + 149) ->
  let r := binary_round prec emax s m e in
  is_finite r = true /\
  Z.abs (Fmag r - Z.pos m * 2 ^ (e + 149)) <= 2 ^ (c - 23 + 149).
Proof.
  intros He Hc Hle r. subst r. unfold binary_round.
  pose proof (shl_align_spec m e (fexp prec emax (Z.pos (digits2_pos m) + e)))
    as (Hz1 & Hz2 & Hz3). cbv zeta in *.
  destruct (shl_align m e _) as [mz ez]. simpl in Hz1, Hz2, Hz3.
  set (E := fexp prec emax (Z.pos (digits2_pos m) + e)) in *.
  assert (HE : -149 <= E) by (unfold E; rewrite fexp32; lia).
  assert (Hval : Z.pos mz * 2 ^ (ez + 149) = Z.pos m * 2 ^ (e + 149)).
  { rewrite Hz2, <- Z.mul_assoc, <- Z.pow_add_r by lia. do 2 f_equal. lia. }
  destruct (binary_round_aux_err s mz ez 149 c) as [Hf Herr];
    [rewrite Hz3; fold E; lia|lia|lia|lia|lia|].
  split; [exact Hf|].
  change (2 ^ (149 - 149)) with 1 in Herr. rewrite Z.mul_1_r, Hval in Herr.
  exact Herr.
Qed.

Lemma binary_normalize_err M e c :
  -149 <= e -> -126 <= c <= 126 ->
  Z.abs M * 2 ^ (e + 149) <= 2 ^ (c + 149) ->
  let r := binary_normalize prec emax M e false in
  is_finite r = true /\
  Z.abs (Fval r - M * 2 ^ (e + 149)) <= 2 ^ (c - 23 + 149).
Proof.
  intros He Hc Hle r. subst r.
  assert (0 < 2 ^ (c - 23 + 149)) by (apply Z.pow_pos_nonneg; lia).
  destruct M as [|p|p]; simpl binary_normalize.
  - split; [done|]. rewrite Fval_zero, Z.mul_0_l.
    change (Z.abs (0 - 0)) with 0. lia.
  - destruct (binary_round_mag false p e He) as (_ & _ & Hs & _).
    destruct (binary_round_err false p e c He Hc) as [Hf Herr];
      [simpl in Hle; lia|].
    split; [exact Hf|]. unfold Fval. rewrite Hs. exact Herr.
  - destruct (binary_round_mag true p e He) as (_ & _ & Hs & _).
    destruct (binary_round_err true p e c He Hc) as [Hf Herr];
      [simpl in Hle; lia|].
    split; [exact Hf|]. unfold Fval. rewrite Hs.
    replace (- Fmag (binary_round prec emax true p e) - Z.neg p * 2 ^ (e + 149))
      with (- (Fmag (binary_round prec emax true p e) - Z.pos p * 2 ^ (e + 149)))
      by lia.
    rewrite Z.abs_opp. exact Herr.
Qed.

(** An addition whose exact result is at most [2^c] in magnitude is off by
    at most [2^(c-23)]. *)
Lemma fadd_err x y c :
  fvalid x = true -> fvalid y = true ->
  is_finite x = true -> is_finite y = true ->
  -126 <= c <= 126 ->
  Z.abs (Fval x + Fval y) <= 2 ^ (c + 149) ->
  let r := fadd x y in
  fvalid r = true /\ is_finite r = true /\
  Z.abs (Fval r - (Fval x + Fval y)) <= 2 ^ (c - 23 + 149).
Proof.
  intros Hvx Hvy Hfx Hfy Hc Hle r. subst r.
  destruct (fadd_spec x y Hvx Hvy Hfx Hfy) as (Hv & _).
  split; [exact Hv|]. clear Hv.
  assert (Hpos : 0 < 2 ^ (c - 23 + 149)) by (apply Z.pow_pos_nonneg; lia).
  destruct x as [sx|sx| |sx mx ex], y as [sy|sy| |sy my ey]; try done.
  - destruct sx, sy; simpl; unfold Fval; simpl; split; try done; lia.
  - rewrite Fval_zero. change (fadd _ _) with (S754_finite sy my ey).
    split; [done|]. replace (_ - _) with 0 by lia. simpl. lia.
  - rewrite Fval_zero. change (fadd _ _) with (S754_finite sx mx ex).
    split; [done|]. replace (_ - _) with 0 by lia. simpl. lia.
  - apply fvalid_finite in Hvx as (Hmx & Hex & _).
    apply fvalid_finite in Hvy as (Hmy & Hey & _).
    revert Hle. unfold fadd, SFadd. cbv zeta.
    set (ez := Z.min ex ey).
    pose proof (shl_align_spec mx ex ez) as (Hx1 & Hx2 & _).
    pose proof (shl_align_spec my ey ez) as (Hy1 & Hy2 & _).
    cbv zeta in *. rewrite Hx1 in Hx2. rewrite Hy1 in Hy2.
    replace (Z.min ex ez) with ez in Hx2 by lia.
    replace (Z.min ey ez) with ez in Hy2 by lia.
    rewrite Hx2, Hy2.
    set (M := cond_Zopp sx (Z.pos mx * 2 ^ (ex - ez)) +
              cond_Zopp sy (Z.pos my * 2 ^ (ey - ez))).
    assert (HM : Fval (S754_finite sx mx ex) + Fval (S754_finite sy my ey)
                 = M * 2 ^ (ez + 149)).
    { unfold Fval, M. simpl Fsign. simpl Fmag.
      replace (ex + 149) with ((ex - ez) + (ez + 149)) by lia.
      replace (ey + 149) with ((ey - ez) + (ez + 149)) by lia.
      rewrite (Z.pow_add_r 2 (ex - ez)), (Z.pow_add_r 2 (ey - ez)) by lia.
      destruct sx, sy; simpl; lia. }
    rewrite HM. intros Hle.
    assert (Hp : 0 < 2 ^ (ez + 149)) by (apply Z.pow_pos_nonneg; lia).
    apply binary_normalize_err; [lia|lia|].
    rewrite Z.abs_mul in Hle. rewrite (Z.abs_eq (2 ^ _)) in Hle by lia.
    exact Hle.
Qed.

Lemma fsub_err x y c :
  fvalid x = true -> fvalid y = true ->
  is_finite x = true -> is_finite y = true ->
  -126 <= c <= 126 ->
  Z.abs (Fval x - Fval y) <= 2 ^ (c + 149) ->
  let r := fsub x y in
  fvalid r = true /\ is_finite r = true /\
  Z.abs (Fval r - (Fval x - Fval y)) <= 2 ^ (c - 23 + 149).
Proof.
  intros Hvx Hvy Hfx Hfy Hc Hle. rewrite fsub_fadd.
  destruct (fneg_props y) as (Hn1 & Hn2 & Hn3).
  replace (Fval x - Fval y) with (Fval x + Fval (fneg y)) in * by lia.
  apply fadd_err; try done; congruence.
Qed.

(** A product whose exact value is at most [2^c] in magnitude is off by at
    most [2^(c-23)]; the values of products are at the scale [2^298]. *)
Lemma fmul_err x y c :
  fvalid x = true -> fvalid y = true ->
  is_finite x = true -> is_finite y = true ->
  -126 <= c <= 126 ->
  Fmag x * Fmag y <= 2 ^ (c + 149) * 2 ^ 149 ->
  let r := fmul x y in
  fvalid r = true /\ is_finite r = true /\
  Z.abs (Fval r * 2 ^ 149 - Fval x * Fval y) <= 2 ^ (c - 23 + 149) * 2 ^ 149.
Proof.
  intros Hvx Hvy Hfx Hfy Hc Hle r. subst r.
  destruct (fmul_spec x y Hvx Hvy Hfx Hfy) as (Hv & _).
  split; [exact Hv|]. clear Hv.
  assert (Hpos : 0 < 2 ^ (c - 23 + 149)) by (apply Z.pow_pos_nonneg; lia).
  pose proof (fmul_sign x y Hfx Hfy) as Hsg.
  destruct x as [sx|sx| |sx mx ex], y as [sy|sy| |sy my ey]; try done.
  - split; [done|]. rewrite !Fval_zero.
    change (fmul _ _) with (S754_zero (xorb sx sy)). rewrite Fval_zero.
    simpl. lia.
  - split; [done|]. rewrite !Fval_zero.
    change (fmul _ _) with (S754_zero (xorb sx sy)). rewrite Fval_zero.
    simpl. lia.
  - split; [done|]. rewrite !Fval_zero.
    change (fmul _ _) with (S754_zero (xorb sx sy)). rewrite Fval_zero.
    rewrite Z.mul_0_r. simpl. lia.
  - apply fvalid_finite in Hvx as (Hmx & Hex & Hnx).
    apply fvalid_finite in Hvy as (Hmy & Hey & Hny).
    unfold Fval. rewrite Hsg. cbn [Fsign Fmag]. cbn [Fmag] in Hle.
    unfold fmul, SFmul.
    change (Z.pos (mx * my)) with (Z.pos (mx * my)%positive).
    destruct (binary_round_aux_err (xorb sx sy) (mx * my) (ex + ey) 298 c)
      as [Hf Herr]; [|lia|lia|lia| |].
    { rewrite fexp32.
      destruct (decide (ex = -149 /\ ey = -149)) as [[-> ->]|Hne]; [lia|].
      assert (2 ^ 23 <= Z.pos (mx * my)).
      { rewrite Pos2Z.inj_mul.
        assert (Z.pos my <= Z.pos mx * Z.pos my) by nia.
        assert (Z.pos mx <= Z.pos mx * Z.pos my) by nia.
        destruct Hnx as [Hnx|Hnx], Hny as [Hny|Hny];
          [by destruct Hne|lia..]. }
      assert (24 <= Z.pos (digits2_pos (mx * my)))
        by (by apply digits2_ge). lia. }
    { rewrite Pos2Z.inj_mul.
      replace (ex + ey + 298) with ((ex + 149) + (ey + 149)) by lia.
      replace (c + 298) with ((c + 149) + 149) by lia.
      rewrite (Z.pow_add_r 2 (ex + 149)), (Z.pow_add_r 2 (c + 149)) by lia.
      lia. }
    split; [exact Hf|].
    set (R := binary_round_aux prec emax (xorb sx sy) (Z.pos (mx * my))
                (ex + ey) loc_Exact) in *.
    change (298 - 149) with 149 in Herr.
    rewrite Pos2Z.inj_mul in Herr.
    replace (ex + ey + 298) with ((ex + 149) + (ey + 149)) in Herr by lia.
    replace (c - 23 + 298) with ((c - 23 + 149) + 149) in Herr by lia.
    rewrite (Z.pow_add_r 2 (ex + 149)), (Z.pow_add_r 2 (c - 23 + 149))
      in Herr by lia.
    set (A := Z.pos mx * 2 ^ (ex + 149)) in *.
    set (B := Z.pos my * 2 ^ (ey + 149)) in *.
    replace (Z.pos mx * Z.pos my * (2 ^ (ex + 149) * 2 ^ (ey + 149)))
      with (A * B) in Herr by (unfold A, B; lia).
    destruct sx, sy; simpl xorb; cbv iota;
      [replace (Fmag R * 2 ^ 149 - - A * - B) with (Fmag R * 2 ^ 149 - A * B) by lia
      |replace (- Fmag R * 2 ^ 149 - - A * B) with (- (Fmag R * 2 ^ 149 - A * B)) by lia;
       rewrite Z.abs_opp
      |replace (- Fmag R * 2 ^ 149 - A * - B) with (- (Fmag R * 2 ^ 149 - A * B)) by lia;
       rewrite Z.abs_opp
      |]; exact Herr.
Qed.

(** * Comparisons with zero and with each other *)

Lemma flt_zero_false r :
  fvalid r = true -> is_finite r = true -> 0 <= Fval r -> flt r fzero = false.
Proof.
  intros Hv Hn H0. destruct r as [s|s| |s m e]; try done.
  apply fvalid_finite in Hv as (_ & He & _).
  pose proof (Fmag_finite_pos s m e ltac:(lia)) as Hp.
  destruct s; [|done]. unfold Fval in H0. cbn [Fsign] in H0. lia.
Qed.


Lemma flt_fle a b : flt a b = true -> fle a b = true.
Proof.
  unfold flt, fle, SFltb, SFleb. by destruct (SFcompare a b) as [[]|].
Qed.




(** * The bucket scanned for a regular entity *)

Section QueryCell.
Import AvoidanceSystem.

Lemma elem_of_hits ia' ia h F : ia' ∈ hits ia h F <-> ia' = ia /\ h ∈ F.
Proof.
  unfold hits. rewrite list_elem_of_bind. split.
  - intros (h' & Hin & Hh'). destruct (decide (h' = h)) as [->|]; [|by inversion Hin].
    apply list_elem_of_singleton in Hin. done.
  - intros [-> Hh]. exists h. split; [|done].
    rewrite decide_True by done. by apply list_elem_of_singleton.
Qed.

Lemma hits_not_in ia h F : h ∉ F -> hits ia h F = [].
Proof.
  intros Hn. induction F as [|h' F IH]; [done|].
  unfold hits in *. simpl. rewrite decide_False.
  - simpl. apply IH. intros H. apply Hn. by right.
  - intros ->. apply Hn. by left.
Qed.

Lemma hits_NoDup ia h F : NoDup F -> h ∈ F -> hits ia h F = [ia].
Proof.
  induction 1 as [|h' F Hni Hnd IH]; intros Hin; [by inversion Hin|].
  unfold hits in *. simpl. destruct (decide (h' = h)) as [->|Hne].
  - simpl. f_equal. by apply hits_not_in.
  - simpl. apply IH. apply elem_of_cons in Hin as [->|]; done.
Qed.

Lemma elem_of_registered cfg positions h ia :
  ia ∈ registered cfg positions h <->
  (kObjectCount cfg <= ia < kObjectCount cfg + kAvoidCount cfg)%nat /\
  exists p, positions !! ia = Some p /\ h ∈ footprint cfg p.
Proof.
  unfold registered. rewrite list_elem_of_bind. split.
  - intros (ib & Hin & Hib). apply elem_of_seq in Hib.
    destruct (positions !! ib) as [p|] eqn:Hp; [|by inversion Hin].
    apply elem_of_hits in Hin as [-> Hh]. split; [lia|]. by exists p.
  - intros (Hia & p & Hp & Hh). exists ia. split.
    + rewrite Hp. by apply elem_of_hits.
    + apply elem_of_seq. lia.
Qed.

Lemma bind_single {A B} (f : A -> list B) l a :
  NoDup l -> a ∈ l -> (forall b, b ∈ l -> b <> a -> f b = []) ->
  l ≫= f = f a.
Proof.
  induction 1 as [|b l Hni Hnd IH]; intros Hin Hf; [by inversion Hin|].
  rewrite bind_cons. apply elem_of_cons in Hin as [->|Hin].
  - assert (Hl : l ≫= f = []).
    { clear IH. induction l as [|c l IHl]; [done|].
      rewrite bind_cons, (Hf c); [|by right; left|].
      - simpl. apply IHl.
        + intros H. apply Hni. by right.
        + by inversion Hnd.
        + intros c' Hc' Hne. apply Hf; [|done].
          apply elem_of_cons in Hc' as [->|Hc']; [by left|by right; right].
      - intros ->. apply Hni. by left. }
    by rewrite Hl, app_nil_r.
  - rewrite (Hf b); [|by left|by intros ->]. simpl. apply IH; [done|].
    intros c Hc Hne. apply Hf; [by right|done].
Qed.

(** The bucket of [h] when one hazard only has [h] in its footprint. *)
Lemma registered_single cfg positions h ia p :
  (kObjectCount cfg <= ia < kObjectCount cfg + kAvoidCount cfg)%nat ->
  positions !! ia = Some p ->
  NoDup (footprint cfg p) -> h ∈ footprint cfg p ->
  (forall ib pb, ib <> ia ->
     (kObjectCount cfg <= ib < kObjectCount cfg + kAvoidCount cfg)%nat ->
     positions !! ib = Some pb -> h ∉ footprint cfg pb) ->
  registered cfg positions h = [ia].
Proof.
  intros Hia Hp Hnd Hh Hother. unfold registered.
  rewrite (bind_single _ _ ia).
  - rewrite Hp. by apply hits_NoDup.
  - apply NoDup_seq.
  - apply elem_of_seq. lia.
  - intros ib Hib Hne. apply elem_of_seq in Hib.
    destruct (positions !! ib) as [pb|] eqn:Hpb; [|done].
    apply hits_not_in. apply (Hother ib pb); [done|lia|done].
Qed.

(** What the rebuild puts in the buckets. *)
Lemma build_registered cfg positions grid g :
  config_ok cfg ->
  build cfg positions grid = Some g ->
  forall h, bucket g h = registered cfg positions h.
Proof.
  intros Hcfg Hb h. unfold config_ok in Hcfg. unfold build in Hb.
  assert (H0 : forall h', 0 <= activeAvoidCount (mkGrid grid (fun _ => 0)) h')
    by (intros h'; simpl; lia).
  rewrite (bucket_build_loop cfg positions _ _ g ltac:(lia) H0 Hb h).
  reflexivity.
Qed.

(** The scan of the bucket of a regular entity when no hazard in it is
    close. *)
Lemma query_body_skip cfg dt g io s t p :
  m_Positions s !! io = Some p ->
  (forall ia pa, ia ∈ bucket g (query_hash cfg p) ->
     m_Positions s !! ia = Some pa -> too_close pa p = false) ->
  query_body cfg dt g io s = Some t -> t = s.
Proof.
  intros Hp Hfar. unfold query_body. rewrite Hp. simpl.
  destruct (negb _); [done|].
  apply (foldM_invariant (fun u => u = s)); [|done].
  intros k u u' Hk -> Hc.
  eapply check_no_reaction; [exact Hc|].
  intros pa p' Hpa Hp'. rewrite Hp in Hp'. simplify_eq.
  apply (Hfar (avoidEntityGrid g (query_hash cfg p') k)); [|done].
  unfold bucket. apply list_elem_of_fmap. by exists k.
Qed.

(** The scan of a bucket that holds one hazard, which is close. *)
Lemma query_body_single cfg dt g io s p ia pa mv spa sp :
  (0 < kAvoidCount cfg)%nat ->
  m_Positions s !! io = Some p ->
  query_hash cfg p < kGridCells ->
  bucket g (query_hash cfg p) = [ia] ->
  m_Positions s !! ia = Some pa -> too_close pa p = true ->
  m_Moves s !! io = Some mv ->
  m_Sprites s !! ia = Some spa -> m_Sprites s !! io = Some sp ->
  exists t,
    query_body cfg dt g io s = Some t /\
    m_Moves t !! io = Some (mkMove (fneg (velx mv)) (fneg (vely mv))) /\
    m_Sprites t !! io =
      Some (mkSprite (colorR spa) (colorG spa) (colorB spa) (spriteIndex sp)).
Proof.
  intros Hna Hp Hh Hb Hpa Hc Hmv Hspa Hsp.
  assert (Hn : activeAvoidCount g (query_hash cfg p) = 1 /\
               avoidEntityGrid g (query_hash cfg p) 0 = ia).
  { unfold bucket in Hb.
    assert (Hlen : length (seqZ 0 (activeAvoidCount g (query_hash cfg p))) = 1%nat).
    { apply (f_equal length) in Hb. by rewrite length_fmap in Hb. }
    rewrite length_seqZ in Hlen.
    assert (Hone : activeAvoidCount g (query_hash cfg p) = 1) by lia.
    rewrite Hone in Hb. change (seqZ 0 1) with [0] in Hb. simpl in Hb.
    split; [done|]. by inversion Hb. }
  destruct Hn as [Hn H0].
  rewrite (query_body_eq cfg dt g io s p (query_hash cfg p) 1 Hp eq_refl Hh Hn).
  change (seqZ 0 1) with [0]. cbn [foldM].
  rewrite (check_react_eq cfg dt g io (query_hash cfg p) 0 s ia p pa mv spa sp);
    try done; [|lia].
  cbn [mbind option_bind]. eexists. split; [reflexivity|].
  cbn [m_Moves m_Sprites].
  apply lookup_lt_Some in Hmv. apply lookup_lt_Some in Hsp.
  by rewrite !list_lookup_insert_eq.
Qed.

Lemma query_range_frame cfg dt g a n s t :
  foldM (query_body cfg dt g) (seq a n) s = Some t ->
  store_frame (fun j => (a <= j < a + n)%nat) s t.
Proof.
  apply (foldM_frame _ (fun io => eq io)).
  - intros io u u' _. apply query_body_frame.
  - intros io j Hio <-. by apply elem_of_seq in Hio.
Qed.

(** The pass, seen from the regular entity [io]: the entities before it
    are scanned, then [io], then the entities after it. *)
Lemma avoidance_entity cfg dt grid s s' grid' io :
  (io < kObjectCount cfg)%nat ->
  UpdateSystem cfg dt grid s = Some (s', grid') ->
  exists g s1 s2,
    build cfg (m_Positions s) grid = Some g /\
    store_frame (fun j => (j < io)%nat) s s1 /\
    query_body cfg dt g io s1 = Some s2 /\
    store_frame (fun j => (io < j < kObjectCount cfg)%nat) s2 s'.
Proof.
  intros Hio Hrun. unfold UpdateSystem in Hrun.
  destruct (build cfg (m_Positions s) grid) as [g|] eqn:Hb; simpl in Hrun;
    [|done].
  destruct (foldM _ _ s) as [t|] eqn:Hq; simpl in Hrun; [|done].
  simplify_eq. exists g.
  assert (Hsplit : seq 0 (kObjectCount cfg) =
                   seq 0 io ++ [io] ++ seq (S io) (kObjectCount cfg - S io)).
  { replace (kObjectCount cfg) with (io + (1 + (kObjectCount cfg - S io)))%nat
      at 1 by lia.
    rewrite seq_app. f_equal. }
  rewrite Hsplit, foldM_app in Hq.
  destruct (foldM _ (seq 0 io) s) as [s1|] eqn:H1;
    cbn [mbind option_bind] in Hq; [|done].
  cbn [app foldM] in Hq.
  destruct (query_body cfg dt g io s1) as [s2|] eqn:H2; simpl in Hq; [|done].
  exists s1, s2. split; [done|]. split.
  - apply query_range_frame in H1.
    eapply store_frame_weaken; [|exact H1]. simpl. intros j. lia.
  - split; [done|]. apply query_range_frame in Hq.
    eapply store_frame_weaken; [|exact Hq]. simpl. intros j. lia.
Qed.

Lemma store_frame_at P s s' j :
  store_frame P s s' -> ~ P j ->
  m_Positions s' !! j = m_Positions s !! j /\
  m_Sprites s' !! j = m_Sprites s !! j /\
  m_Moves s' !! j = m_Moves s !! j.
Proof. intros (_ & _ & _ & _ & _ & H) Hj. by apply H. Qed.

(** A regular entity is left alone when no hazard registered in the
    bucket it scans is close. *)
Lemma avoidance_untouched cfg dt grid s s' grid' io p :
  config_ok cfg -> (io < kObjectCount cfg)%nat ->
  UpdateSystem cfg dt grid s = Some (s', grid') ->
  m_Positions s !! io = Some p ->
  (forall ia pa,
     (kObjectCount cfg <= ia < kObjectCount cfg + kAvoidCount cfg)%nat ->
     m_Positions s !! ia = Some pa ->
     query_hash cfg p ∈ footprint cfg pa -> too_close pa p = false) ->
  m_Positions s' !! io = Some p /\
  m_Sprites s' !! io = m_Sprites s !! io /\
  m_Moves s' !! io = m_Moves s !! io.
Proof.
  intros Hcfg Hio Hrun Hp Hfar.
  destruct (avoidance_entity cfg dt grid s s' grid' io Hio Hrun)
    as (g & s1 & s2 & Hb & Hf1 & Hq & Hf2).
  destruct (store_frame_at _ _ _ io Hf1 ltac:(cbv beta; lia)) as (Hp1 & Hs1 & Hm1).
  destruct (store_frame_at _ _ _ io Hf2 ltac:(cbv beta; lia)) as (Hp2 & Hs2 & Hm2).
  assert (Hs2' : s2 = s1).
  { apply (query_body_skip cfg dt g io s1 s2 p); [congruence| |done].
    intros ia pa Hia Hpa.
    rewrite (build_registered cfg _ grid g Hcfg Hb) in Hia.
    apply elem_of_registered in Hia as (Hra & pa' & Hpa' & Hh).
    destruct (store_frame_at _ _ _ ia Hf1 ltac:(cbv beta; lia)) as (Hpa1 & _).
    rewrite Hpa1, Hpa' in Hpa. simplify_eq. by apply (Hfar ia). }
  subst s2. rewrite Hp2, Hs2, Hm2, Hp1, Hs1, Hm1. done.
Qed.

(** A regular entity reacts to the one hazard registered in the bucket it
    scans, when it is close. *)
Lemma avoidance_reacts cfg dt grid s s' grid' io p ia pa mv spa sp :
  config_ok cfg -> (io < kObjectCount cfg)%nat ->
  UpdateSystem cfg dt grid s = Some (s', grid') ->
  m_Positions s !! io = Some p ->
  position_valid p = true -> in_bounds p = true ->
  (kObjectCount cfg <= ia < kObjectCount cfg + kAvoidCount cfg)%nat ->
  m_Positions s !! ia = Some pa ->
  position_valid pa = true -> in_bounds pa = true ->
  query_hash cfg p ∈ footprint cfg pa -> too_close pa p = true ->
  (forall ib pb, ib <> ia ->
     (kObjectCount cfg <= ib < kObjectCount cfg + kAvoidCount cfg)%nat ->
     m_Positions s !! ib = Some pb -> query_hash cfg p ∉ footprint cfg pb) ->
  m_Moves s !! io = Some mv ->
  m_Sprites s !! ia = Some spa -> m_Sprites s !! io = Some sp ->
  m_Moves s' !! io = Some (mkMove (fneg (velx mv)) (fneg (vely mv))) /\
  m_Sprites s' !! io =
    Some (mkSprite (colorR spa) (colorG spa) (colorB spa) (spriteIndex sp)).
Proof.
  intros Hcfg Hio Hrun Hp Hvp Hbp Hia Hpa Hvpa Hbpa Hh Hc Hother Hmv Hspa Hsp.
  destruct (avoidance_entity cfg dt grid s s' grid' io Hio Hrun)
    as (g & s1 & s2 & Hb & Hf1 & Hq & Hf2).
  destruct (store_frame_at _ _ _ io Hf1 ltac:(cbv beta; lia)) as (Hp1 & Hs1 & Hm1).
  destruct (store_frame_at _ _ _ ia Hf1 ltac:(cbv beta; lia)) as (Hpa1 & Hsa1 & _).
  destruct (store_frame_at _ _ _ io Hf2 ltac:(cbv beta; lia)) as (_ & Hs2 & Hm2).
  destruct (query_body_single cfg dt g io s1 p ia pa mv spa sp)
    as (t & Ht & Hmt & Hst); try congruence.
  - lia.
  - by apply query_hash_lt.
  - rewrite (build_registered cfg _ grid g Hcfg Hb).
    apply (registered_single cfg _ _ ia pa); try done.
    by apply footprint_ok.
  - rewrite Hq in Ht. simplify_eq. by rewrite Hm2, Hs2.
Qed.

End QueryCell.

(** The pass on a regular entity at (0,10) and a hazard at (0.5,10): the
    bucket scanned is empty. *)
Lemma avoidance_off_diagonal undef dt grid vel :
  exists grid',
    AvoidanceSystem.UpdateSystem (mkConfig 1 1 undef) dt grid
      (scene_at (mkPosition fzero (float_of_int 10))
                (mkPosition (fpow2 (-1)) (float_of_int 10)) vel) =
    Some (scene_at (mkPosition fzero (float_of_int 10))
                   (mkPosition (fpow2 (-1)) (float_of_int 10)) vel, grid').
Proof.
  set (cfg := mkConfig 1 1 undef).
  set (s := scene_at _ _ _).
  unfold AvoidanceSystem.UpdateSystem.
  eassert (Hb : AvoidanceSystem.build cfg (m_Positions s) grid = Some _)
    by (by vm_compute).
  rewrite Hb. clear Hb. cbn [mbind option_bind].
  match goal with |- context [AvoidanceSystem.query_body _ _ ?g0] =>
    set (g := g0) end.
  cbn [mbind option_bind kObjectCount cfg seq foldM].
  rewrite (query_body_eq cfg dt g 0%nat s
             (mkPosition fzero (float_of_int 10)) 2405 0);
    [|reflexivity|by vm_compute|by vm_compute|by vm_compute].
  change (seqZ 0 0) with (@nil Z). cbn [foldM mbind option_bind].
  by eexists.
Qed.

(** C1.  The cell scanned for a regular entity.  On a store whose
    positions are within the world bounds the Avoidance System pass
    completes, and for every regular entity the one bucket scanned is that
    of the cell whose two coordinates both come from the [y] coordinate
    of the entity: [x] is the corrected cell coordinate of [y], and the
    [x] coordinate of the entity plays no part.  The entity is left alone
    unless a hazard whose footprint holds that cell is close, and it
    reacts to a close hazard when this is the one hazard whose footprint
    holds that cell.  That cell is not reliably the cell of the entity:
    the entity at (0,10) lies in the footprint of the hazard at (0.5,10),
    which is close, and the pass leaves it alone. *)
Theorem query_cell_from_y_alone :
  (forall cfg dt grid s,
     config_ok cfg -> store_sized cfg s ->
     (forall i p, m_Positions s !! i = Some p ->
        position_valid p = true /\ in_bounds p = true) ->
     exists s' grid',
       AvoidanceSystem.UpdateSystem cfg dt grid s = Some (s', grid') /\
       forall io p,
         (io < kObjectCount cfg)%nat -> m_Positions s !! io = Some p ->
         let y := AvoidanceSystem.cell_coord cfg (pos_y p) (yMin s_WorldBounds)
                    (snd AvoidanceSystem.kGridCellSize) in
         let h := AvoidanceSystem.cell_hash (AvoidanceSystem.wrap_cell y) y in
         ((forall ia pa,
             (kObjectCount cfg <= ia < kObjectCount cfg + kAvoidCount cfg)%nat ->
             m_Positions s !! ia = Some pa ->
             h ∈ AvoidanceSystem.footprint cfg pa ->
             AvoidanceSystem.too_close pa p = false) ->
          m_Positions s' !! io = Some p /\
          m_Sprites s' !! io = m_Sprites s !! io /\
          m_Moves s' !! io = m_Moves s !! io) /\
         (forall ia pa mv spa sp,
            (kObjectCount cfg <= ia < kObjectCount cfg + kAvoidCount cfg)%nat ->
            m_Positions s !! ia = Some pa ->
            h ∈ AvoidanceSystem.footprint cfg pa ->
            AvoidanceSystem.too_close pa p = true ->
            (forall ib pb, ib <> ia ->
               (kObjectCount cfg <= ib < kObjectCount cfg + kAvoidCount cfg)%nat ->
               m_Positions s !! ib = Some pb ->
               h ∉ AvoidanceSystem.footprint cfg pb) ->
            m_Moves s !! io = Some mv ->
            m_Sprites s !! ia = Some spa -> m_Sprites s !! io = Some sp ->
            m_Moves s' !! io =
              Some (mkMove (fneg (velx mv)) (fneg (vely mv))) /\
            m_Sprites s' !! io =
              Some (mkSprite (colorR spa) (colorG spa) (colorB spa)
                      (spriteIndex sp)))) /\
  (forall undef dt grid vel,
     let cfg := mkConfig 1 1 undef in
     let p := mkPosition fzero (float_of_int 10) in
     let q := mkPosition (fpow2 (-1)) (float_of_int 10) in
     AvoidanceSystem.too_close q p = true /\
     containing_cell cfg p ∈ AvoidanceSystem.footprint cfg q /\
     exists grid',
       AvoidanceSystem.UpdateSystem cfg dt grid (scene_at p q vel) =
       Some (scene_at p q vel, grid')).
Proof.
  split.
  - intros cfg dt grid s Hcfg Hs Hpos.
    destruct (avoidance_total cfg dt grid s Hcfg Hs Hpos) as (s' & grid' & Hrun).
    exists s', grid'. split; [exact Hrun|].
    intros io p Hio Hp y h. subst y h.
    change (AvoidanceSystem.cell_hash _ _)
      with (AvoidanceSystem.query_hash cfg p).
    destruct (Hpos io p Hp) as [Hvp Hbp]. split.
    + intros Hfar.
      by apply (avoidance_untouched cfg dt grid s s' grid' io p).
    + intros ia pa mv spa sp Hia Hpa Hh Hc Hother Hmv Hspa Hsp.
      destruct (Hpos ia pa Hpa) as [Hvpa Hbpa].
      by apply (avoidance_reacts cfg dt grid s s' grid' io p ia pa mv spa sp).
  - intros undef dt grid vel cfg p q. subst cfg p q.
    split; [by vm_compute|]. split.
    + refine (bool_decide_unpack _ _). by vm_compute.
    + apply avoidance_off_diagonal.
Qed.

(** On the diagonal of the grid the scanned cell is the cell of the
    entity: the regular entity at (21,10) reacts to the hazard at
    (21.5,10). *)
Lemma query_cell_from_y_alone_witness :
  exists s' grid',
    AvoidanceSystem.UpdateSystem scene_config (fpow2 (-6)) (fun _ _ => 0%nat)
      (scene_at (mkPosition (float_of_int 21) (float_of_int 10))
         (mkPosition (fdiv (float_of_int 43) (float_of_int 2)) (float_of_int 10))
         (mkMove (fpow2 (-1)) (fpow2 (-1)))) = Some (s', grid') /\
    m_Moves s' !! 0%nat =
      Some (mkMove (fneg (fpow2 (-1))) (fneg (fpow2 (-1)))) /\
    m_Sprites s' !! 0%nat = Some (mkSprite 200 100 50 7).
Proof.
  destruct query_cell_from_y_alone as [H _].
  destruct (H scene_config (fpow2 (-6)) (fun _ _ => 0%nat)
              (scene_at (mkPosition (float_of_int 21) (float_of_int 10))
                 (mkPosition (fdiv (float_of_int 43) (float_of_int 2))
                    (float_of_int 10))
                 (mkMove (fpow2 (-1)) (fpow2 (-1)))))
    as (s' & grid' & Hrun & Hent).
  - unfold config_ok. simpl. lia.
  - by repeat split.
  - intros [|[|i]] p Hp; simpl in Hp; simplify_eq; by vm_compute.
  - exists s', grid'. split; [exact Hrun|].
    destruct (Hent 0%nat (mkPosition (float_of_int 21) (float_of_int 10)))
      as [_ Hreact]; [simpl; lia|reflexivity|].
    apply (Hreact 1%nat
             (mkPosition (fdiv (float_of_int 43) (float_of_int 2))
                (float_of_int 10))
             (mkMove (fpow2 (-1)) (fpow2 (-1)))
             (mkSprite 200 100 50 255) (mkSprite 255 255 255 7)).
    + simpl. lia.
    + reflexivity.
    + refine (bool_decide_unpack _ _). by vm_compute.
    + by vm_compute.
    + intros ib pb Hne Hib. simpl in Hib. lia.
    + reflexivity.
    + reflexivity.
    + reflexivity.
Defined.

(** * The proximity test on positions that are near or far *)

Lemma sq_err a b e B :
  Z.abs (a - b) <= e -> Z.abs b <= B ->
  Z.abs (a * a - b * b) <= e * (2 * B + e).
Proof.
  intros Hab Hb.
  replace (a * a - b * b) with ((a - b) * (a + b)) by ring.
  rewrite Z.abs_mul.
  assert (H1 : Z.abs (a + b) <= 2 * B + e) by lia.
  pose proof (Z.abs_nonneg (a - b)). pose proof (Z.abs_nonneg (a + b)).
  apply Z.mul_le_mono_nonneg; lia.
Qed.

Section ProximityMargins.
Import AvoidanceSystem.

Lemma kAvoidDistance_squared :
  fvalid (fmul kAvoidDistance kAvoidDistance) = true /\
  is_finite (fmul kAvoidDistance kAvoidDistance) = true /\
  27 * 2 ^ 145 <= Fval (fmul kAvoidDistance kAvoidDistance) <= 7 * 2 ^ 147.
Proof. repeat split; by vm_compute. Qed.

(** One square of the test: the difference of two coordinates that are
    at most [2^c] apart, squared.  The exact difference is [D]. *)
Lemma square_err x y c :
  fvalid x = true -> fvalid y = true ->
  is_finite x = true -> is_finite y = true ->
  0 <= c <= 50 ->
  Z.abs (Fval x - Fval y) <= 2 ^ (c + 149) ->
  let d := fsub x y in
  let D := Fval x - Fval y in
  fvalid (fmul d d) = true /\ is_finite (fmul d d) = true /\
  Z.abs (Fval (fmul d d) * 2 ^ 149 - D * D)
    <= 3 * (2 ^ (2 * c - 22 + 149) * 2 ^ 149).
Proof.
  intros Hvx Hvy Hfx Hfy Hc HD d D. subst d.
  destruct (fsub_err x y c Hvx Hvy Hfx Hfy ltac:(lia) HD) as (Hvd & Hfd & Hed).
  set (d := fsub x y) in *. fold D in Hed, HD.
  set (e := 2 ^ (c - 23 + 149)) in *.
  set (B := 2 ^ (c + 149)) in *.
  assert (He : 0 < e) by (apply Z.pow_pos_nonneg; lia).
  assert (Hee : 0 < e * e) by (apply Z.mul_pos_pos; lia).
  assert (HB : B = 2 ^ 23 * e).
  { unfold B, e. rewrite <- Z.pow_add_r by lia. f_equal. lia. }
  assert (Hd : Z.abs (Fval d) <= B + e) by lia.
  assert (Ht : 2 ^ (2 * c - 22 + 149) * 2 ^ 149 = 2 ^ 24 * (e * e)).
  { unfold e. rewrite <- !Z.pow_add_r by lia. f_equal. lia. }
  assert (Hmag : Fmag d * Fmag d <= 2 ^ (2 * c + 1 + 149) * 2 ^ 149).
  { rewrite <- Fval_abs.
    assert (H1 : Z.abs (Fval d) * Z.abs (Fval d) <= (B + e) * (B + e))
      by (apply Z.mul_le_mono_nonneg; lia).
    assert (H2 : (B + e) * (B + e) = (2 ^ 23 + 1) * (2 ^ 23 + 1) * (e * e))
      by (rewrite HB; ring).
    assert (H3 : 2 ^ (2 * c + 1 + 149) * 2 ^ 149 = 2 ^ 47 * (e * e)).
    { unfold e. rewrite <- !Z.pow_add_r by lia. f_equal. lia. }
    rewrite H3. lia. }
  destruct (fmul_err d d (2 * c + 1) Hvd Hvd Hfd Hfd ltac:(lia) Hmag)
    as (Hvm & Hfm & Hem).
  split; [exact Hvm|]. split; [exact Hfm|].
  pose proof (sq_err (Fval d) D e B Hed HD) as Hsq.
  replace (2 * c + 1 - 23 + 149) with (2 * c - 22 + 149) in Hem by lia.
  rewrite Ht in *.
  replace (e * (2 * B + e)) with ((2 ^ 24 + 1) * (e * e)) in Hsq
    by (rewrite HB; ring).
  lia.
Qed.

(** The sum of the two squares of the test, for coordinates at most [2^c]
    apart on each axis: within [2^(2c-19)] of the exact squared
    distance. *)
Lemma squares_err a b c :
  position_valid a = true -> position_valid b = true ->
  position_finite a = true -> position_finite b = true ->
  0 <= c <= 50 ->
  Z.abs (Fval (pos_x a) - Fval (pos_x b)) <= 2 ^ (c + 149) ->
  Z.abs (Fval (pos_y a) - Fval (pos_y b)) <= 2 ^ (c + 149) ->
  let dx := fsub (pos_x a) (pos_x b) in
  let dy := fsub (pos_y a) (pos_y b) in
  let S := fadd (fmul dx dx) (fmul dy dy) in
  fvalid S = true /\ is_finite S = true /\
  Z.abs (Fval S * 2 ^ 149 - dist2 a b) <= 2 ^ (2 * c - 19 + 149) * 2 ^ 149 /\
  Z.abs (Fval S) <= 2 ^ (2 * c + 2 + 149).
Proof.
  intros Hva Hvb Hfa Hfb Hc HDx HDy dx dy S. subst S dx dy.
  apply position_valid_split in Hva as [Hvax Hvay].
  apply position_valid_split in Hvb as [Hvbx Hvby].
  apply andb_true_iff in Hfa as [Hfax Hfay].
  apply andb_true_iff in Hfb as [Hfbx Hfby].
  destruct (square_err _ _ c Hvax Hvbx Hfax Hfbx Hc HDx) as (HvX & HfX & HeX).
  destruct (square_err _ _ c Hvay Hvby Hfay Hfby Hc HDy) as (HvY & HfY & HeY).
  cbv zeta in HeX, HeY. unfold dist2.
  set (Dx := Fval (pos_x a) - Fval (pos_x b)) in *.
  set (Dy := Fval (pos_y a) - Fval (pos_y b)) in *.
  set (X := fmul (fsub (pos_x a) (pos_x b)) (fsub (pos_x a) (pos_x b))) in *.
  set (Y := fmul (fsub (pos_y a) (pos_y b)) (fsub (pos_y a) (pos_y b))) in *.
  set (t := 2 ^ (2 * c - 22 + 149)) in *.
  assert (Ht : 0 < t) by (apply Z.pow_pos_nonneg; lia).
  assert (HU : 0 < 2 ^ 149) by lia.
  set (W := t * 2 ^ 149) in *.
  assert (HW : 0 < W) by (apply Z.mul_pos_pos; lia).
  assert (HB : 2 ^ (c + 149) * 2 ^ (c + 149) = 2 ^ 22 * W).
  { unfold W, t. rewrite <- !Z.pow_add_r by lia. f_equal. lia. }
  assert (HDx2 : 0 <= Dx * Dx <= 2 ^ 22 * W).
  { split; [apply Z.square_nonneg|].
    rewrite <- HB, <- Z.abs_square. apply Z.mul_le_mono_nonneg; lia. }
  assert (HDy2 : 0 <= Dy * Dy <= 2 ^ 22 * W).
  { split; [apply Z.square_nonneg|].
    rewrite <- HB, <- Z.abs_square. apply Z.mul_le_mono_nonneg; lia. }
  assert (Hscale : forall v n, Z.abs (v * 2 ^ 149) <= n * W -> Z.abs v <= n * t).
  { intros v n Hv. rewrite Z.abs_mul, (Z.abs_eq (2 ^ 149)) in Hv by lia.
    apply (Z.mul_le_mono_pos_r _ _ (2 ^ 149)); [lia|].
    unfold W in Hv. lia. }
  assert (HX : Z.abs (Fval X) <= (2 ^ 22 + 3) * t) by (apply Hscale; lia).
  assert (HY : Z.abs (Fval Y) <= (2 ^ 22 + 3) * t) by (apply Hscale; lia).
  assert (H4 : 2 ^ (2 * c + 2 + 149) = 2 ^ 24 * t).
  { unfold t. rewrite <- Z.pow_add_r by lia. f_equal. lia. }
  destruct (fadd_err X Y (2 * c + 2) HvX HvY HfX HfY ltac:(lia))
    as (HvS & HfS & HeS); [rewrite H4; lia|].
  split; [exact HvS|]. split; [exact HfS|].
  replace (2 ^ (2 * c + 2 - 23 + 149)) with (2 * t) in HeS; cycle 1.
  { unfold t.
    replace (2 * c + 2 - 23 + 149) with (1 + (2 * c - 22 + 149)) by lia.
    rewrite (Z.pow_add_r 2 1) by lia. reflexivity. }
  replace (2 ^ (2 * c - 19 + 149) * 2 ^ 149) with (8 * W); cycle 1.
  { unfold W, t.
    replace (2 * c - 19 + 149) with (3 + (2 * c - 22 + 149)) by lia.
    rewrite (Z.pow_add_r 2 3) by lia. change (2 ^ 3) with 8. ring. }
  set (S := fadd X Y) in *.
  split; [|rewrite H4; lia].
  assert (HSU : Z.abs (Fval S * 2 ^ 149 - (Fval X * 2 ^ 149 + Fval Y * 2 ^ 149))
                <= 2 * W).
  { replace (Fval S * 2 ^ 149 - (Fval X * 2 ^ 149 + Fval Y * 2 ^ 149))
      with ((Fval S - (Fval X + Fval Y)) * 2 ^ 149) by ring.
    rewrite Z.abs_mul, (Z.abs_eq (2 ^ 149)) by lia.
    unfold W. replace (2 * (t * 2 ^ 149)) with (2 * t * 2 ^ 149) by ring.
    apply Z.mul_le_mono_nonneg_r; lia. }
  lia.
Qed.


(** Positions that are at most 256 apart on each axis and at a squared
    distance of at least 2: the test fails. *)
Lemma too_close_far a b :
  position_valid a = true -> position_valid b = true ->
  position_finite a = true -> position_finite b = true ->
  Z.abs (Fval (pos_x a) - Fval (pos_x b)) <= 2 ^ (8 + 149) ->
  Z.abs (Fval (pos_y a) - Fval (pos_y b)) <= 2 ^ (8 + 149) ->
  2 * (2 ^ 149 * 2 ^ 149) <= dist2 a b ->
  too_close a b = false.
Proof.
  intros Hva Hvb Hfa Hfb HDx HDy Hd.
  destruct (squares_err a b 8 Hva Hvb Hfa Hfb ltac:(lia) HDx HDy)
    as (HvS & HfS & HeS & HmS).
  cbv zeta in *. unfold too_close. cbv zeta.
  set (S := fadd _ _) in *.
  destruct kAvoidDistance_squared as (HvK & HfK & HK).
  set (K := fmul kAvoidDistance kAvoidDistance) in *.
  change (2 ^ (2 * 8 - 19 + 149)) with (2 ^ 146) in HeS.
  change (2 ^ (2 * 8 + 2 + 149)) with (2 ^ 167) in HmS.
  destruct (fsub_err S K 19 HvS HvK HfS HfK ltac:(lia)) as (HvR & HfR & HeR);
    [change (2 ^ (19 + 149)) with (2 ^ 168); lia|].
  apply flt_zero_false; [exact HvR|exact HfR|].
  rewrite fsub_fadd.
  destruct (fneg_props K) as (HnK1 & HnK2 & HnK3).
  destruct (fadd_spec S (fneg K) HvS ltac:(congruence) HfS ltac:(congruence))
    as (_ & _ & Hpos & _).
  apply Hpos. rewrite HnK1.
  assert (HS : 2 * (2 ^ 149 * 2 ^ 149) - 2 ^ 146 * 2 ^ 149 <= Fval S * 2 ^ 149)
    by lia.
  assert (HS' : (2 * 2 ^ 149 - 2 ^ 146) * 2 ^ 149 <= Fval S * 2 ^ 149) by lia.
  assert (HS'' : 2 * 2 ^ 149 - 2 ^ 146 <= Fval S).
  { apply (Z.mul_le_mono_pos_r _ _ (2 ^ 149)); lia. }
  lia.
Qed.

End ProximityMargins.

(** * One frame of an entity and a hazard that start 1 apart *)

Section SmallSteps.
Import AvoidanceSystem.








End SmallSteps.

Section Reaction.
Import AvoidanceSystem.






End Reaction.




(** * An entity that starts far from every hazard *)

Section FarAway.
Import AvoidanceSystem.

(** A Motion System step at a speed of at most 1 over at most 1/16 s,
    from a coordinate within the bounds: the coordinate moves by at most
    1/16, up to one rounding, whether a face is reached or not. *)
Lemma step_axis_near lo hi dt p v :
  world_axis lo hi -> fvalid p = true -> in_range lo hi p = true ->
  fbnd 0 v -> fbnd (-4) dt ->
  let p' := fst (MoveSystem.step_axis lo hi dt p v) in
  fvalid p' = true /\ in_range lo hi p' = true /\
  Z.abs (Fval p' - Fval p) <= 2 ^ 145 + 2 ^ 134.
Proof.
  intros Hax Hv Hr Hbv Hbdt p'. subst p'.
  destruct (axis_constants lo hi Hax)
    as (c & Hc & (Hvl & Hfl & Hlo) & (Hvh & Hfh & Hhi) & _).
  destruct (in_range_Fval lo hi p Hv Hr Hvl Hvh Hfl Hfh) as (Hf & Hpl & Hph).
  rewrite Hlo in Hpl. rewrite Hhi in Hph.
  assert (Hc7 : 2 ^ (c + 149) <= 2 ^ 156)
    by (change (2 ^ 156) with (2 ^ (7 + 149)); apply Z.pow_le_mono_r; lia).
  assert (Hcp : 0 < 2 ^ (c + 149)) by (apply Z.pow_pos_nonneg; lia).
  destruct (step_axis_calm lo hi dt p v Hax) as (Hr' & Hv' & _).
  { eapply fbnd_mono; [|exact Hbdt]. lia. }
  { split; [exact Hv|]. by destruct p. }
  { eapply fbnd_mono; [|exact Hbv]. lia. }
  cbv zeta in Hr', Hv'.
  split; [exact Hv'|]. split; [exact Hr'|].
  destruct (fmul_bnd 0 (-4) v dt ltac:(lia) ltac:(lia) ltac:(lia) Hbv Hbdt)
    as (Hvm & Hfm & Hmm).
  rewrite <- Fval_abs in Hmm. change (2 ^ (0 + -4 + 149)) with (2 ^ 145) in Hmm.
  set (w := fmul v dt) in *.
  destruct (fadd_err p w 8 Hv Hvm Hf Hfm ltac:(lia)) as (Hv1 & Hf1 & He1);
    [change (2 ^ (8 + 149)) with (2 ^ 157); lia|].
  change (2 ^ (8 - 23 + 149)) with (2 ^ 134) in He1.
  revert Hr' Hv'.
  unfold MoveSystem.step_axis, MoveSystem.reflect. cbv zeta. cbn [fst snd].
  fold w. set (p1 := fadd p w) in *.
  destruct (flt p1 (float_of_int lo)) eqn:H1; cbn [fst snd].
  - apply flt_fle, fle_Fval in H1; try done. rewrite Hlo in H1.
    destruct (flt (float_of_int hi) (float_of_int lo)) eqn:H2; cbn [fst snd];
      intros _ _.
    + apply flt_fle, fle_Fval in H2; try done. rewrite Hlo, Hhi in H2. lia.
    + rewrite Hlo. lia.
  - destruct (flt (float_of_int hi) p1) eqn:H2; cbn [fst snd]; intros _ _.
    + apply flt_fle, fle_Fval in H2; try done. rewrite Hhi in *. lia.
    + lia.
Qed.

Lemma step_entity_near dt pos move :
  fbnd (-4) dt -> position_valid pos = true -> in_bounds pos = true ->
  fbnd 0 (velx move) -> fbnd 0 (vely move) ->
  let p' := fst (MoveSystem.step_entity dt pos move) in
  position_valid p' = true /\ in_bounds p' = true /\
  Z.abs (Fval (pos_x p') - Fval (pos_x pos)) <= 2 ^ 145 + 2 ^ 134 /\
  Z.abs (Fval (pos_y p') - Fval (pos_y pos)) <= 2 ^ 145 + 2 ^ 134.
Proof.
  intros Hdt Hv Hb Hvx Hvy p'. subst p'.
  apply position_valid_split in Hv as [Hpvx Hpvy].
  apply in_bounds_split in Hb as [Hbx Hby].
  destruct (step_axis_near (xMin s_WorldBounds) (xMax s_WorldBounds) dt
              (pos_x pos) (velx move) (or_introl (conj eq_refl eq_refl))
              Hpvx Hbx Hvx Hdt) as (HvX & HrX & HeX).
  destruct (step_axis_near (yMin s_WorldBounds) (yMax s_WorldBounds) dt
              (pos_y pos) (vely move) (or_intror (conj eq_refl eq_refl))
              Hpvy Hby Hvy Hdt) as (HvY & HrY & HeY).
  cbv zeta in *. unfold MoveSystem.step_entity. cbv zeta.
  cbn [fst snd pos_x pos_y].
  split; [unfold position_valid; cbn [pos_x pos_y]; by rewrite HvX, HvY|].
  split; [unfold in_bounds; cbn [pos_x pos_y]; by rewrite HrX, HrY|].
  split; [exact HeX|exact HeY].
Qed.

(** A coordinate difference that changes by at most [d]. *)
Lemma sq_lower x x' d :
  Z.abs (x' - x) <= d -> 3 * (x * x) - 16 * (d * d) <= 4 * (x' * x').
Proof.
  intros Hd. set (t := x' - x).
  assert (Ht : t * t <= d * d).
  { rewrite <- (Z.abs_square t). apply Z.mul_le_mono_nonneg; unfold t; lia. }
  assert (Hs : 0 <= (x + 4 * t) * (x + 4 * t)) by apply Z.square_nonneg.
  replace (4 * (x' * x')) with
    ((x + 4 * t) * (x + 4 * t) - 12 * (t * t) + 3 * (x * x))
    by (unfold t; ring).
  assert (0 <= d * d) by apply Z.square_nonneg. lia.
Qed.

(** Two positions within the bounds that were at least 2 apart, each
    moved by at most 1/16 and one rounding on each axis: the proximity
    test fails. *)
Lemma too_close_moved a b a' b' :
  position_valid a = true -> in_bounds a = true ->
  position_valid b = true -> in_bounds b = true ->
  position_valid a' = true -> in_bounds a' = true ->
  position_valid b' = true -> in_bounds b' = true ->
  Z.abs (Fval (pos_x a') - Fval (pos_x a)) <= 2 ^ 145 + 2 ^ 134 ->
  Z.abs (Fval (pos_y a') - Fval (pos_y a)) <= 2 ^ 145 + 2 ^ 134 ->
  Z.abs (Fval (pos_x b') - Fval (pos_x b)) <= 2 ^ 145 + 2 ^ 134 ->
  Z.abs (Fval (pos_y b') - Fval (pos_y b)) <= 2 ^ 145 + 2 ^ 134 ->
  4 * (2 ^ 149 * 2 ^ 149) <= dist2 a b ->
  too_close a' b' = false.
Proof.
  intros Hva Hba Hvb Hbb Hva' Hba' Hvb' Hbb' Hax Hay Hbx Hby Hd.
  assert (Hrange : forall r, position_valid r = true -> in_bounds r = true ->
            position_finite r = true /\
            Z.abs (Fval (pos_x r)) <= 2 ^ 156 /\
            Z.abs (Fval (pos_y r)) <= 2 ^ 156).
  { intros r Hv Hb. apply position_valid_split in Hv as [Hvx Hvy].
    apply in_bounds_split in Hb as [Hbx' Hby'].
    assert (Hk : fvalid (float_of_int (-128)) = true /\
                 fvalid (float_of_int 128) = true /\
                 fvalid (float_of_int (-64)) = true /\
                 fvalid (float_of_int 64) = true /\
                 Fval (float_of_int (-128)) = - 2 ^ 156 /\
                 Fval (float_of_int 128) = 2 ^ 156 /\
                 Fval (float_of_int (-64)) = - 2 ^ 155 /\
                 Fval (float_of_int 64) = 2 ^ 155) by (by vm_compute).
    destruct Hk as (K1 & K2 & K3 & K4 & K5 & K6 & K7 & K8).
    destruct (in_range_Fval (-128) 128 _ Hvx Hbx' K1 K2 eq_refl eq_refl)
      as (Hfx & Hx1 & Hx2).
    destruct (in_range_Fval (-64) 64 _ Hvy Hby' K3 K4 eq_refl eq_refl)
      as (Hfy & Hy1 & Hy2).
    rewrite K5 in Hx1. rewrite K6 in Hx2. rewrite K7 in Hy1. rewrite K8 in Hy2.
    unfold position_finite. rewrite Hfx, Hfy. split; [done|]. lia. }
  destruct (Hrange a' Hva' Hba') as (Hfa' & Hxa' & Hya').
  destruct (Hrange b' Hvb' Hbb') as (Hfb' & Hxb' & Hyb').
  apply too_close_far; try done.
  - change (2 ^ (8 + 149)) with (2 ^ 157). lia.
  - change (2 ^ (8 + 149)) with (2 ^ 157). lia.
  - unfold dist2 in *.
    set (Dx := Fval (pos_x a) - Fval (pos_x b)) in *.
    set (Dy := Fval (pos_y a) - Fval (pos_y b)) in *.
    set (Dx' := Fval (pos_x a') - Fval (pos_x b')) in *.
    set (Dy' := Fval (pos_y a') - Fval (pos_y b')) in *.
    set (d := 2 ^ 146 + 2 ^ 135).
    pose proof (sq_lower Dx Dx' d ltac:(unfold Dx, Dx', d; lia)) as Hx.
    pose proof (sq_lower Dy Dy' d ltac:(unfold Dy, Dy', d; lia)) as Hy.
    assert (Hdd : 32 * (d * d) <= 2 ^ 149 * 2 ^ 149) by (by vm_compute).
    lia.
Qed.

(** An entity for which the proximity test fails for every hazard on the
    positions the Avoidance System scans leaves the call as the Motion
    System left it. *)
Lemma update_no_reaction cfg dt gm s1 frame gm' io :
  MoveSystem.UpdateSystem cfg dt (s_Objects gm) = Some s1 ->
  game_update cfg dt gm = Some (frame, gm') ->
  (io < kObjectCount cfg)%nat ->
  (forall ia pa p,
     (kObjectCount cfg <= ia < kObjectCount cfg + kAvoidCount cfg)%nat ->
     m_Positions s1 !! ia = Some pa -> m_Positions s1 !! io = Some p ->
     too_close pa p = false) ->
  m_Sprites (s_Objects gm') !! io = m_Sprites (s_Objects gm) !! io /\
  m_Moves (s_Objects gm') !! io = m_Moves s1 !! io /\
  m_Positions (s_Objects gm') !! io = m_Positions s1 !! io.
Proof.
  intros Hmove Hupd Hio Hfar.
  apply game_update_Some in Hupd as (s1' & s2 & grid & Hm' & Ha & -> & ->).
  rewrite Hmove in Hm'. simplify_eq.
  apply move_frame in Hmove as (_ & _ & Hspr & _).
  unfold UpdateSystem in Ha.
  destruct (build cfg (m_Positions s1') (s_Grid gm))
    as [g|] eqn:Hb; simpl in Ha; [|done].
  destruct (foldM _ _ s1') as [t|] eqn:Hq; simpl in Ha; [|done].
  simplify_eq. apply build_bucket_ok in Hb.
  destruct (query_no_reaction cfg dt g io s1' s2 Hb Hio Hfar Hq)
    as (Hp & Hs & Hm).
  simpl. by rewrite Hs, Hspr, Hm, Hp.
Qed.

(** The same for an entity that starts at least 2 from every hazard. *)
Lemma update_far cfg dt gm frame gm' io p m :
  game_update cfg dt gm = Some (frame, gm') ->
  (io < kObjectCount cfg)%nat -> fbnd (-4) dt ->
  m_Positions (s_Objects gm) !! io = Some p ->
  m_Moves (s_Objects gm) !! io = Some m ->
  position_valid p = true -> in_bounds p = true ->
  fbnd 0 (velx m) -> fbnd 0 (vely m) ->
  (forall ia pa ma,
     (kObjectCount cfg <= ia < kObjectCount cfg + kAvoidCount cfg)%nat ->
     m_Positions (s_Objects gm) !! ia = Some pa ->
     m_Moves (s_Objects gm) !! ia = Some ma ->
     position_valid pa = true /\ in_bounds pa = true /\
     fbnd 0 (velx ma) /\ fbnd 0 (vely ma) /\
     4 * (2 ^ 149 * 2 ^ 149) <= dist2 pa p) ->
  m_Sprites (s_Objects gm') !! io = m_Sprites (s_Objects gm) !! io /\
  m_Positions (s_Objects gm') !! io = Some (MoveSystem.step_entity dt p m).1 /\
  m_Moves (s_Objects gm') !! io = Some (MoveSystem.step_entity dt p m).2.
Proof.
  intros Hupd Hio Hdt Hp Hm Hvp Hbp Hmx Hmy Hhaz.
  pose proof Hupd as Hupd'.
  apply game_update_Some in Hupd' as (s1 & s2 & grid & Hmove & _ & _ & _).
  pose proof Hmove as Hspec. unfold MoveSystem.UpdateSystem in Hspec.
  apply move_range_spec in Hspec as (_ & _ & _ & _ & Hi).
  destruct (Hi io) as [Hin _].
  destruct Hin as (p0 & m0 & Hp0 & Hm0 & Hp1 & Hm1); [lia|].
  rewrite Hp in Hp0. rewrite Hm in Hm0. simplify_eq.
  destruct (step_entity_near dt p0 m0 Hdt Hvp Hbp Hmx Hmy)
    as (Hvp' & Hbp' & Hxp & Hyp).
  cbv zeta in *.
  destruct (update_no_reaction cfg dt gm s1 frame gm' io Hmove Hupd Hio)
    as (Hs & Hm2 & Hp2).
  - intros ia pa' p' Hia Hpa' Hp'. rewrite Hp1 in Hp'. simplify_eq.
    destruct (Hi ia) as [Hin _].
    destruct Hin as (pa & ma & Hpa & Hma & Hpa1 & _); [lia|].
    rewrite Hpa1 in Hpa'. simplify_eq.
    destruct (Hhaz ia pa ma Hia Hpa Hma) as (Hva & Hba & Hax & Hay & Hd).
    destruct (step_entity_near dt pa ma Hdt Hva Hba Hax Hay)
      as (Hva' & Hba' & Hxa & Hya).
    cbv zeta in *.
    by apply (too_close_moved pa p0).
  - split; [exact Hs|]. split; congruence.
Qed.

End FarAway.

(** C7 (amended).  No false reaction.  The distance that counts is the
    one the Avoidance System measures: a regular entity for which, on the
    positions left by the Motion System pass of an update call, the
    proximity test of the source fails for every hazard keeps its sprite
    through the call and leaves it with the velocity and the position the
    Motion System gave it.  This is the case of a regular entity that
    before the call is at a distance of at least 2 from every hazard,
    when it and the hazards are within the world bounds, their velocity
    components have a magnitude of at most 1 and [deltaTime] a magnitude
    of at most 1/16. *)
Theorem no_false_reaction :
  (forall cfg dt gm s1 frame gm' io,
     MoveSystem.UpdateSystem cfg dt (s_Objects gm) = Some s1 ->
     game_update cfg dt gm = Some (frame, gm') ->
     (io < kObjectCount cfg)%nat ->
     (forall ia pa p,
        (kObjectCount cfg <= ia < kObjectCount cfg + kAvoidCount cfg)%nat ->
        m_Positions s1 !! ia = Some pa -> m_Positions s1 !! io = Some p ->
        AvoidanceSystem.too_close pa p = false) ->
     m_Sprites (s_Objects gm') !! io = m_Sprites (s_Objects gm) !! io /\
     m_Moves (s_Objects gm') !! io = m_Moves s1 !! io /\
     m_Positions (s_Objects gm') !! io = m_Positions s1 !! io) /\
  (forall cfg dt gm frame gm' io p m,
     game_update cfg dt gm = Some (frame, gm') ->
     (io < kObjectCount cfg)%nat -> fbnd (-4) dt ->
     m_Positions (s_Objects gm) !! io = Some p ->
     m_Moves (s_Objects gm) !! io = Some m ->
     position_valid p = true -> in_bounds p = true ->
     fbnd 0 (velx m) -> fbnd 0 (vely m) ->
     (forall ia pa ma,
        (kObjectCount cfg <= ia < kObjectCount cfg + kAvoidCount cfg)%nat ->
        m_Positions (s_Objects gm) !! ia = Some pa ->
        m_Moves (s_Objects gm) !! ia = Some ma ->
        position_valid pa = true /\ in_bounds pa = true /\
        fbnd 0 (velx ma) /\ fbnd 0 (vely ma) /\
        4 * (2 ^ 149 * 2 ^ 149) <= dist2 pa p) ->
     m_Sprites (s_Objects gm') !! io = m_Sprites (s_Objects gm) !! io /\
     m_Positions (s_Objects gm') !! io =
       Some (MoveSystem.step_entity dt p m).1 /\
     m_Moves (s_Objects gm') !! io = Some (MoveSystem.step_entity dt p m).2).
Proof.
  split.
  - intros cfg dt gm s1 frame gm' io. apply update_no_reaction.
  - intros cfg dt gm frame gm' io p m. apply update_far.
Qed.

(** A regular entity at (10,0) that moves at speed 1/2 on both axes, and
    a hazard at rest at (0,0). *)
Lemma no_false_reaction_witness :
  exists frame gm',
    game_update scene_config (fpow2 (-6))
      (scene_far (mkMove (fpow2 (-1)) (fpow2 (-1)))) = Some (frame, gm') /\
    m_Sprites (s_Objects gm') !! 0%nat = Some (mkSprite 255 255 255 7) /\
    m_Positions (s_Objects gm') !! 0%nat =
      Some (MoveSystem.step_entity (fpow2 (-6))
              (mkPosition (float_of_int 10) fzero)
              (mkMove (fpow2 (-1)) (fpow2 (-1)))).1 /\
    m_Moves (s_Objects gm') !! 0%nat =
      Some (MoveSystem.step_entity (fpow2 (-6))
              (mkPosition (float_of_int 10) fzero)
              (mkMove (fpow2 (-1)) (fpow2 (-1)))).2.
Proof.
  eassert (Hu : game_update scene_config (fpow2 (-6))
                  (scene_far (mkMove (fpow2 (-1)) (fpow2 (-1)))) = Some (_, _))
    by (by vm_compute).
  eexists _, _. split; [exact Hu|].
  destruct no_false_reaction as [_ H].
  apply (H scene_config (fpow2 (-6)) _ _ _ 0%nat
           (mkPosition (float_of_int 10) fzero)
           (mkMove (fpow2 (-1)) (fpow2 (-1))) Hu); clear Hu H.
  - simpl. lia.
  - by vm_compute.
  - reflexivity.
  - reflexivity.
  - by vm_compute.
  - by vm_compute.
  - by vm_compute.
  - by vm_compute.
  - intros [|[|ia]] pa ma Hia Hpa Hma; simpl in Hia, Hpa, Hma; try lia.
    simplify_eq. by vm_compute.
Defined.

(** Being farther than the avoidance distance before the call is not
    enough: a regular entity at (21/16,0), farther than 1.3 from the
    hazard at (0,0), that moves towards it at speed 1/2 is at 1.28125
    after the Motion System pass of a call with a [deltaTime] of 1/16,
    and reacts. *)
Lemma no_false_reaction_counterexample :
  let p := mkPosition (fdiv (float_of_int 21) (float_of_int 16)) fzero in
  let q := mkPosition fzero fzero in
  let vel := mkMove (fneg (fpow2 (-1))) fzero in
  169 * (2 ^ 149 * 2 ^ 149) < 100 * dist2 q p /\
  AvoidanceSystem.too_close q p = false /\
  exists s1 frame gm',
    MoveSystem.UpdateSystem scene_config (fpow2 (-4)) (scene_at p q vel)
      = Some s1 /\
    m_Moves s1 !! 0%nat = Some vel /\
    game_update scene_config (fpow2 (-4))
      (mkGame (scene_at p q vel) (fun _ _ => 0%nat)) = Some (frame, gm') /\
    m_Moves (s_Objects gm') !! 0%nat =
      Some (mkMove (fpow2 (-1)) (fneg fzero)) /\
    m_Sprites (s_Objects gm') !! 0%nat = Some (mkSprite 200 100 50 7).
Proof.
  split; [by vm_compute|]. split; [by vm_compute|].
  eexists _, _, _. split; [by vm_compute|]. split; [reflexivity|].
  split; [by vm_compute|]. split; reflexivity.
Qed.

(** * Population *)


